(** * idle-resource-loader: a shallow embedding of the loader and its scheduler

    The development follows the source modules:
    - [Core] is the scheduling core that [src/index.ts] imports from
      ['./core'] (the second half of [src/src/loaders.ts]): error reporter,
      timeout guard, batch loader and idle scheduler;
    - [Index] is [src/index.ts]: input validation and [loadResources];
    - the fetcher [loadByType] of ['./loaders'], with the DOM and the network
      behind it, is a port of the host: what a call does is given by the host.

    Modelling conventions.
    - A JavaScript string is a [string]; each [ascii] stands for one UTF-16
      code unit below 256, so the white space that [trim] removes is
      TAB, LF, VT, FF, CR, SPACE and NBSP (code units 9-13, 32, 160).
    - Numbers are integers ([Z]): milliseconds on the host clock, batch sizes.
    - The host (fetch layer, timers, idle callbacks, page visibility) is an
      explicit record of ports, [Core.Host].  A promise is described by the
      instant at which it settles and by its result; an asynchronous call by
      the promise it returns and the events it causes, each with its instant.
      Host tasks due at the same instant run in the order in which they were
      set.
    - Module state ([idleQueue], [isIdleProcessing]) is passed explicitly in
      [Core.State], together with the callbacks the host holds and a record
      of what the code did (writes of the flag, registrations, warnings). *)

From Stdlib Require Import List String Ascii ZArith Lia Bool Arith Permutation.
From Equations Require Import Equations.
Import ListNotations.

(** ** String primitives of the JavaScript runtime *)
Module Js.

Definition isEmpty (s : string) : bool :=
  match s with EmptyString => true | String _ _ => false end.

(** White space and line terminators of ECMAScript, restricted to code units
    below 256. *)
Definition isWhiteSpace (c : ascii) : bool :=
  let n := nat_of_ascii c in
  ((9 <=? n) && (n <=? 13)) || (n =? 32) || (n =? 160).

Fixpoint trimStart (s : string) : string :=
  match s with
  | EmptyString => EmptyString
  | String c s' => if isWhiteSpace c then trimStart s' else s
  end.

Fixpoint trimEnd (s : string) : string :=
  match s with
  | EmptyString => EmptyString
  | String c s' =>
      let r := trimEnd s' in
      if isEmpty r && isWhiteSpace c then EmptyString else String c r
  end.

(** [s.trim()] *)
Definition trim (s : string) : string := trimEnd (trimStart s).

(** [s.startsWith(p)], the anchored literal match [/^p/]. *)
Fixpoint startsWith (p s : string) : bool :=
  match p, s with
  | EmptyString, _ => true
  | String a p', String b s' => Ascii.eqb a b && startsWith p' s'
  | String _ _, EmptyString => false
  end.

(** [s.includes(p)] *)
Fixpoint includes (p s : string) : bool :=
  startsWith p s ||
  match s with
  | EmptyString => false
  | String _ s' => includes p s'
  end.

(** Case folding of the [i] flag on ASCII letters. *)
Definition toLower (c : ascii) : ascii :=
  let n := nat_of_ascii c in
  if (65 <=? n) && (n <=? 90) then ascii_of_nat (n + 32) else c.

(** The anchored literal match [/^p/i]. *)
Fixpoint startsWithIgnoreCase (p s : string) : bool :=
  match p, s with
  | EmptyString, _ => true
  | String a p', String b s' =>
      Ascii.eqb (toLower a) (toLower b) && startsWithIgnoreCase p' s'
  | String _ _, EmptyString => false
  end.

Fixpoint forallChars (f : ascii -> bool) (s : string) : bool :=
  match s with
  | EmptyString => true
  | String c s' => f c && forallChars f s'
  end.

End Js.

(** ** The scheduling core (['./core']) *)
Module Core.

Local Open Scope Z_scope.

(** Milliseconds on the host clock. *)
Definition Time := Z.

Inductive Error :=
| TimeoutError (url : string)   (* new Error(`Timeout: ${url}`) *)
| LoadError (url : string)      (* the failure reported by the fetcher for url *)
| Thrown (msg : string).        (* any other value thrown by a collaborator *)

(** [onError]: run for its side effects only; the model keeps whether the
    call returns ([None]) or throws ([Some callbackError]). *)
Definition Callback := string -> Error -> option Error.

Record LoadOptions := {
  batchSize : option Z;
  timeout : option Z;
  onError : option Callback
}.

Record IdleTask := mkIdleTask {
  urls : list string;
  options : LoadOptions
}.

(** [deadline.timeRemaining()], a host function: a number, or an exception. *)
Record IdleDeadline := { timeRemaining : Z + Error }.

(** *** Synchronous code: what it prints and calls, and how it completes *)

Inductive Event :=
| CallLoadByType (url : string)                  (* loadByType(url) *)
| WarnLoadFailed (url : string) (error : Error)  (* console.warn(`Resource load failed: ${url}`, error) *)
| CallOnError (url : string) (error : Error)     (* userCallback(url, error) *)
| WarnCallback (callbackError : Error).          (* console.warn('Error in user callback:', callbackError) *)

(** Events in program order, then a normal completion or a thrown value. *)
Definition Sync (A : Type) : Type := (list Event * (A + Error))%type.

Definition ret {A} (a : A) : Sync A := ([], inl a).
Definition throw {A} (e : Error) : Sync A := ([], inr e).
Definition emit (ev : Event) : Sync unit := ([ev], inl tt).

Definition bind {A B} (m : Sync A) (k : A -> Sync B) : Sync B :=
  match snd m with
  | inl a => (fst m ++ fst (k a), snd (k a))
  | inr e => (fst m, inr e)
  end.

(** [try { body } catch (e) { handler(e) }] *)
Definition tryCatch {A} (body : Sync A) (handler : Error -> Sync A) : Sync A :=
  match snd body with
  | inl a => body
  | inr e => (fst body ++ fst (handler e), snd (handler e))
  end.

Notation "m ;; k" := (bind m (fun _ => k)) (at level 61, right associativity).

Definition callUser (userCallback : Callback) (url : string) (error : Error) : Sync unit :=
  (emit (CallOnError url error) ;;
   match userCallback url error with
   | None => ret tt
   | Some callbackError => throw callbackError
   end).

Definition handleError (error : Error) (url : string)
    (userCallback : option Callback) : Sync unit :=
  (emit (WarnLoadFailed url error) ;;
   match userCallback with
   | Some cb =>
       tryCatch (callUser cb url error)
                (fun callbackError => emit (WarnCallback callbackError))
   | None => ret tt
   end).

(** *** The host *)

(** What [loadByType(url)] does when called: it throws, or returns a promise
    that resolves or rejects after a delay, or one that stays pending. *)
Inductive LoadOutcome :=
| Throws (error : Error)
| Resolves (after : Z)
| Rejects (after : Z) (error : Error)
| Hangs.

Record Host := {
  loadByType : string -> Time -> LoadOutcome;  (* url, instant of the call *)
  hasAbortController : bool;                   (* typeof AbortController !== 'undefined' *)
  hasRequestIdleCallback : bool;               (* typeof window.requestIdleCallback === 'function' *)
  documentHidden : Time -> option bool         (* None: no document; Some b: document.hidden *)
}.

(** A promise, by the instant it settles and its result. *)
Inductive Promise :=
| Settles (at_ : Time) (result : unit + Error)
| NeverSettles.

(** A started asynchronous call: the events it causes, each with its instant,
    and the promise it returned. *)
Record Async := {
  events : list (Time * Event);
  promise : Promise
}.

(** A timer never fires before it was set. *)
Definition timerDelay (ms : Z) : Z := Z.max 0 ms.

(** [Promise.race] of two promises that are pending when it is called and
    that host tasks settle later: the first to settle.  When both tasks are
    due at the same instant the host runs them in the order in which they
    were set: [p] stands for the promise whose task was set first. *)
Definition race (p q : Promise) : Promise :=
  match p, q with
  | Settles t _, Settles t' _ => if (t <=? t')%Z then p else q
  | Settles _ _, NeverSettles => p
  | NeverSettles, _ => q
  end.

(** [Promise.allSettled(ps)], awaited at [now]: fulfilled once every member
    has settled, whatever the results. *)
Fixpoint allSettled (now : Time) (ps : list Promise) : Promise :=
  match ps with
  | [] => Settles now (inl tt)
  | p :: ps' =>
      match p, allSettled now ps' with
      | Settles t _, Settles t' _ => Settles (Z.max t t') (inl tt)
      | _, _ => NeverSettles
      end
  end.

Definition callLoadByType (h : Host) (url : string) (now : Time) : Promise + Error :=
  match loadByType h url now with
  | Throws error => inr error
  | Resolves after => inl (Settles (now + timerDelay after) (inl tt))
  | Rejects after error => inl (Settles (now + timerDelay after) (inr error))
  | Hangs => inl NeverSettles
  end.

(** *** Timeout guard *)

(** The controller, by the instant at which its timer aborts the signal. *)
Record AbortController := { abortsAt : Time }.

Definition createTimeoutController (h : Host) (timeout : Z) (now : Time)
    : option AbortController :=
  if hasAbortController h
  then Some {| abortsAt := (now + timerDelay timeout)%Z |}
  else None.

(** An asynchronous function whose remaining body [m] runs at [t]. *)
Definition settle (t : Time) (m : Sync unit) : Async :=
  {| events := map (pair t) (fst m); promise := Settles t (snd m) |}.

Definition startingWith (ev : Time * Event) (a : Async) : Async :=
  {| events := ev :: events a; promise := promise a |}.

(** The [catch] block of [loadSingleAsset]. *)
Definition reportAndRethrow (error : Error) (url : string) (options : LoadOptions)
    : Sync unit :=
  (handleError error url (onError options) ;; throw error).

(** Both branches await [Promise.race([loadPromise, timeoutPromise])], and
    both promises are pending when the race starts.  With an
    [AbortController] the timer behind [timeoutPromise] was set by
    [createTimeoutController], before [loadByType] was called; without one it
    is set after the call.  A load that settles after a delay is settled by
    a host task set during the call of [loadByType]: at a tie the timer wins
    in the first branch and the load in the second. *)
Definition loadSingleAsset (h : Host) (url : string) (timeout : Z)
    (options : LoadOptions) (now : Time) : Async :=
  let controller := createTimeoutController h timeout now in
  startingWith (now, CallLoadByType url)
    match callLoadByType h url now with
    | inr error => settle now (reportAndRethrow error url options)
    | inl loadPromise =>
        let raced :=
          match controller with
          | Some c =>
              let timeoutPromise := Settles (abortsAt c) (inr (TimeoutError url)) in
              race timeoutPromise loadPromise
          | None =>
              let timeoutPromise :=
                Settles (now + timerDelay timeout)%Z (inr (TimeoutError url)) in
              race loadPromise timeoutPromise
          end in
        match raced with
        | Settles t (inl _) => settle t (ret tt)
        | Settles t (inr error) => settle t (reportAndRethrow error url options)
        | NeverSettles => {| events := []; promise := NeverSettles |}
        end
    end.

(** *** Batch loader *)

Definition MAX_CONCURRENT : Z := 2.
Definition DEFAULT_SIZE : Z := 1.

Definition getOptimalBatchSize (requestedSize : Z) : Z :=
  if (0 <? requestedSize)%Z
  then Z.min requestedSize MAX_CONCURRENT
  else DEFAULT_SIZE.

Lemma getOptimalBatchSize_pos (requestedSize : Z) :
  (0 < getOptimalBatchSize requestedSize)%Z.
Proof.
  unfold getOptimalBatchSize, MAX_CONCURRENT, DEFAULT_SIZE.
  destruct (0 <? requestedSize)%Z eqn:E; [apply Z.ltb_lt in E|]; lia.
Qed.

(** [urls.slice(i, j)] for [0 <= i <= j]. *)
Definition slice {A} (i j : nat) (l : list A) : list A :=
  firstn (j - i)%nat (skipn i l).

(** One iteration of the [for] loop: the batch and the loads it started. *)
Record Chunk := {
  startedAt : Time;
  batch : list string;
  promises : list Async
}.

Record BatchRun := {
  chunks : list Chunk;
  finished : Promise   (* the promise returned by loadAssetsBatch *)
}.

(** The loop [for (let i = 0; i < urls.length; i += optimalBatchSize)],
    entered at index [i] and instant [now]. *)
Equations? batchLoop (h : Host) (urls : list string) (timeout : Z)
    (options : LoadOptions) (optimalBatchSize : Z)
    (running : 0 < optimalBatchSize) (i : nat) (now : Time) : BatchRun
    by wf (List.length urls - i)%nat lt :=
  batchLoop h urls timeout options optimalBatchSize running i now
    with lt_dec i (List.length urls) := {
    | right _ => {| chunks := []; finished := Settles now (inl tt) |}
    | left _ =>
        let batch := slice i (i + Z.to_nat optimalBatchSize)%nat urls in
        let promises :=
          map (fun url => loadSingleAsset h url timeout options now) batch in
        let chunk :=
          {| startedAt := now; batch := batch; promises := promises |} in
        match allSettled now (map promise promises) with
        | Settles t _ =>
            let rest :=
              batchLoop h urls timeout options optimalBatchSize running
                        (i + Z.to_nat optimalBatchSize)%nat t in
            {| chunks := chunk :: chunks rest; finished := finished rest |}
        | NeverSettles => {| chunks := [chunk]; finished := NeverSettles |}
        end }.
Proof. lia. Qed.

Definition loadAssetsBatch (h : Host) (urls : list string) (options : LoadOptions)
    (now : Time) : BatchRun :=
  let batchSize := match batchSize options with Some b => b | None => 1%Z end in
  let timeout := match timeout options with Some t => t | None => 15000%Z end in
  let optimalBatchSize := getOptimalBatchSize batchSize in
  batchLoop h urls timeout options optimalBatchSize
            (getOptimalBatchSize_pos batchSize) 0%nat now.

(** *** Idle scheduler *)

(** A callback registered with the host and not yet run. *)
Inductive HostJob :=
| IdleCallbackJob                   (* requestIdleCallback(cb) *)
| FallbackTimerJob (due : Time)     (* setTimeout(cb, 50), the fallback slot *)
| RescheduleTimerJob (due : Time).  (* setTimeout(() => scheduleIdleWork(), 1000) *)

(** An idle slot or its fallback timer, as opposed to the back-off timer. *)
Definition isSlot (job : HostJob) : bool :=
  match job with
  | IdleCallbackJob | FallbackTimerJob _ => true
  | RescheduleTimerJob _ => false
  end.

Inductive Action :=
| SetProcessing (value : bool)          (* isIdleProcessing = value *)
| Register (job : HostJob)              (* requestIdleCallback(...) or setTimeout(...) *)
| WarnIdleFailed (error : Error)        (* console.warn('Idle processing failed:', error) *)
| WarnImmediateFailed (error : Error).  (* console.warn('[system] Immediate load failed:', error) *)

(** The module state ([idleQueue], [isIdleProcessing]), the callbacks the host
    holds, and what has been started and done so far. *)
Record State := {
  idleQueue : list IdleTask;
  isIdleProcessing : bool;
  hostJobs : list HostJob;
  started : list (string * Async);  (* loads dispatched from the idle queue *)
  batchRuns : list BatchRun;        (* calls of loadAssetsBatch *)
  trace : list (Time * Action)
}.

Definition initialState : State :=
  {| idleQueue := []; isIdleProcessing := false; hostJobs := [];
     started := []; batchRuns := []; trace := [] |}.

Definition setProcessing (now : Time) (value : bool) (st : State) : State :=
  {| idleQueue := idleQueue st; isIdleProcessing := value;
     hostJobs := hostJobs st; started := started st; batchRuns := batchRuns st;
     trace := trace st ++ [(now, SetProcessing value)] |}.

Definition register (now : Time) (job : HostJob) (st : State) : State :=
  {| idleQueue := idleQueue st; isIdleProcessing := isIdleProcessing st;
     hostJobs := hostJobs st ++ [job]; started := started st;
     batchRuns := batchRuns st;
     trace := trace st ++ [(now, Register job)] |}.

Definition warn (now : Time) (a : Action) (st : State) : State :=
  {| idleQueue := idleQueue st; isIdleProcessing := isIdleProcessing st;
     hostJobs := hostJobs st; started := started st; batchRuns := batchRuns st;
     trace := trace st ++ [(now, a)] |}.

Definition withQueue (queue : list IdleTask) (loads : list (string * Async))
    (st : State) : State :=
  {| idleQueue := queue; isIdleProcessing := isIdleProcessing st;
     hostJobs := hostJobs st; started := loads; batchRuns := batchRuns st;
     trace := trace st |}.

Definition withBatchRun (run : BatchRun) (st : State) : State :=
  {| idleQueue := idleQueue st; isIdleProcessing := isIdleProcessing st;
     hostJobs := hostJobs st; started := started st;
     batchRuns := batchRuns st ++ [run]; trace := trace st |}.

Definition addIdleTask (urls : list string) (options : LoadOptions) (st : State)
    : State :=
  withQueue (idleQueue st ++ [mkIdleTask urls options]) (started st) st.

(** The host's [requestIdleCallback], as the job its call registers, or
    [None] where the host has none. *)
Definition getRequestIdleCallback (h : Host) : option HostJob :=
  if hasRequestIdleCallback h then Some IdleCallbackJob else None.

Definition scheduleIdleWork (h : Host) (now : Time) (st : State) : State :=
  if isIdleProcessing st || (List.length (idleQueue st) =? 0)%nat then st
  else
    let st := setProcessing now true st in
    match getRequestIdleCallback h with
    | Some requestIdleCallback => register now requestIdleCallback st
    | None => register now (FallbackTimerJob (now + 50)) st
    end.

Definition shouldPauseIdleLoading (h : Host) (now : Time) : bool :=
  match documentHidden h now with
  | Some true => true
  | _ => false
  end.

Definition MIN_TIME_REMAINING : Z := 12.
Definition ESTIMATED_PROCESS_TIME : Z := 3.
Definition MAX_BATCH_SIZE : Z := 2.

Definition calculateOptimalBatchSize (timeRemaining : Z) : Z :=
  let availableTime := timeRemaining - MIN_TIME_REMAINING in
  if availableTime <=? 0 then 0
  else
    let calculatedSize := availableTime / ESTIMATED_PROCESS_TIME in
    Z.min calculatedSize MAX_BATCH_SIZE.

(** [p.catch(handler)] *)
Definition catchWith (a : Async) (handler : Error -> Sync unit) : Async :=
  match promise a with
  | Settles t (inr error) =>
      {| events := events a ++ map (pair t) (fst (handler error));
         promise := Settles t (snd (handler error)) |}
  | _ => a
  end.

(** [options.timeout || 15000] *)
Definition timeoutOrDefault (options : LoadOptions) : Z :=
  match timeout options with
  | Some t => if t =? 0 then 15000 else t
  | None => 15000
  end.

(** The fire-and-forget launch of [processIdleQueue]. *)
Definition dispatch (h : Host) (url : string) (options : LoadOptions) (now : Time)
    : Async :=
  catchWith (loadSingleAsset h url (timeoutOrDefault options) options now)
            (fun error => handleError error url (onError options)).

Definition queueWeight (queue : list IdleTask) : nat :=
  list_sum (map (fun task => S (List.length (urls task))) queue).

Lemma queueWeight_app (q1 q2 : list IdleTask) :
  queueWeight (q1 ++ q2) = (queueWeight q1 + queueWeight q2)%nat.
Proof. unfold queueWeight. now rewrite map_app, list_sum_app. Qed.

(** The loop [while (processedCount < optimalBatchSize && idleQueue.length > 0)]. *)
Equations? idleLoop (h : Host) (now : Time) (optimalBatchSize processedCount : Z)
    (queue : list IdleTask) (loads : list (string * Async))
    : list IdleTask * list (string * Async)
    by wf (queueWeight queue) lt :=
  idleLoop h now optimalBatchSize processedCount queue loads
    with (processedCount <? optimalBatchSize) := {
    | false => (queue, loads)
    | true with queue := {
      | [] => ([], loads)
      | mkIdleTask [] options :: rest =>
          idleLoop h now optimalBatchSize processedCount rest loads
      | mkIdleTask (url :: remaining) options :: rest =>
          let requeued :=
            if (0 <? List.length remaining)%nat
            then rest ++ [mkIdleTask remaining options]
            else rest in
          if Js.isEmpty url
          then idleLoop h now optimalBatchSize processedCount requeued loads
          else idleLoop h now optimalBatchSize (processedCount + 1) requeued
                        (loads ++ [(url, dispatch h url options now)]) } }.
Proof.
  all: subst requeued; destruct remaining; cbn [List.length Nat.ltb Nat.leb];
    rewrite ?queueWeight_app; unfold queueWeight, list_sum; cbn; lia.
Qed.

Definition processIdleQueue (h : Host) (now : Time) (deadline : IdleDeadline)
    (st : State) : (unit + Error) * State :=
  if shouldPauseIdleLoading h now then
    let st := setProcessing now false st in
    (inl tt, register now (RescheduleTimerJob (now + 1000)) st)
  else
    match timeRemaining deadline with
    | inr error => (inr error, st)
    | inl timeRemaining =>
        let optimalBatchSize := calculateOptimalBatchSize timeRemaining in
        if (optimalBatchSize =? 0) || (List.length (idleQueue st) =? 0)%nat then
          let st := setProcessing now false st in
          (inl tt,
           if (0 <? List.length (idleQueue st))%nat
           then scheduleIdleWork h now st
           else st)
        else
          let drained := idleLoop h now optimalBatchSize 0 (idleQueue st) (started st) in
          let st := withQueue (fst drained) (snd drained) st in
          let st := setProcessing now false st in
          (inl tt,
           if (0 <? List.length (idleQueue st))%nat
           then scheduleIdleWork h now st
           else st)
    end.

(** The callback handed to the host by [scheduleIdleWork]:
    [try { processIdleQueue(deadline) } catch (error) { ... }]. *)
Definition idleCallback (h : Host) (now : Time) (deadline : IdleDeadline)
    (st : State) : State :=
  match processIdleQueue h now deadline st with
  | (inl _, st') => st'
  | (inr error, st') =>
      setProcessing now false (warn now (WarnIdleFailed error) st')
  end.

(** The deadline built by the [setTimeout] fallback. *)
Definition fallbackDeadline : IdleDeadline := {| timeRemaining := inl 5 |}.

(** *** The host runs the registered callbacks *)

Definition HostJob_eqb (a b : HostJob) : bool :=
  match a, b with
  | IdleCallbackJob, IdleCallbackJob => true
  | FallbackTimerJob d, FallbackTimerJob d' => d =? d'
  | RescheduleTimerJob d, RescheduleTimerJob d' => d =? d'
  | _, _ => false
  end.

(** Take the first occurrence of [job] out of the pending callbacks. *)
Fixpoint takeJob (job : HostJob) (jobs : list HostJob) : option (list HostJob) :=
  match jobs with
  | [] => None
  | j :: jobs' =>
      if HostJob_eqb job j then Some jobs'
      else option_map (cons j) (takeJob job jobs')
  end.

Definition withJobs (jobs : list HostJob) (st : State) : State :=
  {| idleQueue := idleQueue st; isIdleProcessing := isIdleProcessing st;
     hostJobs := jobs; started := started st; batchRuns := batchRuns st;
     trace := trace st |}.

Inductive HostEvent :=
| IdleCallbackFires (deadline : IdleDeadline)
| FallbackTimerFires (due : Time)
| RescheduleTimerFires (due : Time).

(** One host task at instant [now]; [None] when the host cannot run it: the
    callback is not pending, or its timer is not due yet. *)
Definition fire (h : Host) (now : Time) (ev : HostEvent) (st : State)
    : option State :=
  match ev with
  | IdleCallbackFires deadline =>
      match takeJob IdleCallbackJob (hostJobs st) with
      | Some jobs => Some (idleCallback h now deadline (withJobs jobs st))
      | None => None
      end
  | FallbackTimerFires due =>
      match takeJob (FallbackTimerJob due) (hostJobs st) with
      | Some jobs =>
          if due <=? now
          then Some (idleCallback h now fallbackDeadline (withJobs jobs st))
          else None
      | None => None
      end
  | RescheduleTimerFires due =>
      match takeJob (RescheduleTimerJob due) (hostJobs st) with
      | Some jobs =>
          if due <=? now
          then Some (scheduleIdleWork h now (withJobs jobs st))
          else None
      | None => None
      end
  end.

End Core.

(** ** [src/index.ts]: validation and the public entry point *)
Module Index.

Local Open Scope string_scope.

(** A resource entry as it arrives at run time.  The declared type is
    [string]; the run-time guard of [resolveResourceUrl] also meets [null],
    [undefined] and other non-string values. *)
Inductive ResourceInput :=
| JsString (s : string)
| JsNull
| JsUndefined
| JsOther.

(** [ResourceInput | ResourceInput[]] *)
Inductive Resources :=
| Single (r : ResourceInput)
| Many (rs : list ResourceInput).

(** [/^(javascript|data|file|ftp|blob):/i] *)
Definition dangerousSchemes : list string :=
  ["javascript:"; "data:"; "file:"; "ftp:"; "blob:"].

Definition hasDangerousScheme (s : string) : bool :=
  existsb (fun scheme => Js.startsWithIgnoreCase scheme s) dangerousSchemes.

(** [/^https?:\/\//] *)
Definition hasHttpPrefix (s : string) : bool :=
  Js.startsWith "http://" s || Js.startsWith "https://" s.

(** The character class [[a-zA-Z0-9\-._~:/?#[\]@!$&'()*+,;=%]]. *)
Definition isUrlChar (c : ascii) : bool :=
  let n := nat_of_ascii c in
  ((97 <=? n)%nat && (n <=? 122)%nat) || ((65 <=? n)%nat && (n <=? 90)%nat) ||
  ((48 <=? n)%nat && (n <=? 57)%nat) ||
  existsb (Ascii.eqb c)
    (list_ascii_of_string "-._~:/?#[]@!$&'()*+,;=%").

(** [/^[...]+$/] *)
Definition hasOnlyUrlChars (s : string) : bool :=
  negb (Js.isEmpty s) && Js.forallChars isUrlChar s.

Definition resolveResourceUrl (resource : ResourceInput) : option string :=
  match resource with
  | JsString s =>
      if Js.isEmpty s then None
      else
        let trimmed := Js.trim s in
        if Js.isEmpty trimmed then None
        else if hasDangerousScheme trimmed then None
        else if Js.includes "://" trimmed && negb (hasHttpPrefix trimmed) then None
        else if negb (hasOnlyUrlChars trimmed) then None
        else Some trimmed
  | _ => None
  end.

(** [.filter((url): url is string => url !== null)] *)
Fixpoint dropNulls (l : list (option string)) : list string :=
  match l with
  | [] => []
  | None :: l' => dropNulls l'
  | Some url :: l' => url :: dropNulls l'
  end.

Definition prepareResourcesForLoading (resources : Resources) : list string :=
  let resourceArray :=
    match resources with
    | Many rs => rs
    | Single r => [r]
    end in
  dropNulls (map resolveResourceUrl resourceArray).

Inductive LoadStrategy := immediate | idle.

Record LoadResourcesOptions := {
  strategy : option LoadStrategy;
  batchSize : option Z;
  timeout : option Z;
  onError : option Core.Callback
}.

(** [promise.catch((error) => console.warn('[system] Immediate load failed:', error))] *)
Definition catchImmediate (run : Core.BatchRun) (st : Core.State) : Core.State :=
  match Core.finished run with
  | Core.Settles t (inr error) => Core.warn t (Core.WarnImmediateFailed error) st
  | _ => st
  end.

Definition loadResources (h : Core.Host) (now : Core.Time) (resources : Resources)
    (options : LoadResourcesOptions) (st : Core.State)
    : (unit + Core.Error) * Core.State :=
  let strategy := match strategy options with Some s => s | None => immediate end in
  let batchSize := match batchSize options with Some b => b | None => 1%Z end in
  let validUrls := prepareResourcesForLoading resources in
  if (List.length validUrls =? 0)%nat then (inl tt, st)
  else
    match strategy with
    | idle =>
        let idleOptions :=
          {| Core.batchSize := Some batchSize; Core.timeout := timeout options;
             Core.onError := onError options |} in
        (inl tt, Core.scheduleIdleWork h now (Core.addIdleTask validUrls idleOptions st))
    | immediate =>
        let immediateOptions :=
          {| Core.batchSize := Some batchSize; Core.timeout := timeout options;
             Core.onError := onError options |} in
        let run := Core.loadAssetsBatch h validUrls immediateOptions now in
        (inl tt, catchImmediate run (Core.withBatchRun run st))
    end.

End Index.

(** ** The running page

    The states the module can be in: the page calls [loadResources], the only
    export, and the host runs the callbacks it was given, one task after the
    other, the clock never going back. *)
Inductive reachable (h : Core.Host) : Core.Time -> Core.State -> Prop :=
| reachable_init (t : Core.Time) : reachable h t Core.initialState
| reachable_call (t t' : Core.Time) (resources : Index.Resources)
    (options : Index.LoadResourcesOptions) (st : Core.State) :
    reachable h t st -> (t <= t')%Z ->
    reachable h t' (snd (Index.loadResources h t' resources options st))
| reachable_fire (t t' : Core.Time) (ev : Core.HostEvent) (st st' : Core.State) :
    reachable h t st -> (t <= t')%Z -> Core.fire h t' ev st = Some st' ->
    reachable h t' st'.

(** ** ['./loaders']: the fetcher (first half of [src/src/loaders.ts]) *)
Module Loaders.

Local Open Scope string_scope.

(** [String.prototype.toLowerCase] on code units below 256: A-Z and the
    Latin-1 capitals U+00C0-U+00DE (U+00D7, the multiplication sign, apart). *)
Definition lowerUnit (c : ascii) : ascii :=
  let n := nat_of_ascii c in
  if ((65 <=? n)%nat && (n <=? 90)%nat)
     || ((192 <=? n)%nat && (n <=? 222)%nat && negb (n =? 215)%nat)
  then ascii_of_nat (n + 32) else c.

Fixpoint toLowerCase (s : string) : string :=
  match s with
  | EmptyString => EmptyString
  | String c s' => String (lowerUnit c) (toLowerCase s')
  end.

(** [s.split(sep)] for a separator of one character: never an empty array. *)
Fixpoint split (sep : ascii) (s : string) : list string :=
  match s with
  | EmptyString => [EmptyString]
  | String c s' =>
      if Ascii.eqb c sep then EmptyString :: split sep s'
      else
        match split sep s' with
        | part :: parts => String c part :: parts
        | [] => [String c EmptyString]
        end
  end.

Definition getFileExtension (url : string) : string :=
  let cleanUrl :=
    match split "?" url with
    | first :: _ => first
    | [] => EmptyString
    end in
  let parts := split "." cleanUrl in
  if (List.length parts <=? 1)%nat then EmptyString
  else
    let extension := last parts EmptyString in
    if Js.isEmpty extension then EmptyString else toLowerCase extension.

Inductive ResourceLoader := loadImage | loadAudio | loadVideo | loadFont | loadGeneric.

Definition LOADER_MAP : list (string * ResourceLoader) :=
  [("jpg", loadImage); ("jpeg", loadImage); ("png", loadImage);
   ("gif", loadImage); ("webp", loadImage); ("svg", loadImage);
   ("mp3", loadAudio); ("wav", loadAudio); ("ogg", loadAudio);
   ("mp4", loadVideo); ("webm", loadVideo); ("mov", loadVideo);
   ("avi", loadVideo); ("mkv", loadVideo); ("flv", loadVideo);
   ("woff", loadFont); ("woff2", loadFont); ("ttf", loadFont)].

(** [LOADER_MAP.get(key)] *)
Fixpoint mapGet (key : string) (entries : list (string * ResourceLoader))
    : option ResourceLoader :=
  match entries with
  | [] => None
  | (k, loader) :: rest => if String.eqb key k then Some loader else mapGet key rest
  end.

(** The loader that [loadByType] calls. *)
Definition loaderOf (url : string) : ResourceLoader :=
  let extension := getFileExtension url in
  match mapGet extension LOADER_MAP with
  | Some loader => loader
  | None => loadGeneric
  end.

Definition getFontType (url : string) : string :=
  let extension := getFileExtension url in
  if String.eqb extension "woff2" then "font/woff2"
  else if String.eqb extension "woff" then "font/woff"
  else if String.eqb extension "ttf" then "font/ttf"
  else "font/woff2".

(** *** [createResourceLoader]: one load through a DOM element *)

(** What the page offers: the [Image] and [Audio] constructors, [document],
    [document.head]. *)
Record Env := {
  hasImage : bool;
  hasAudio : bool;
  hasDocument : bool;
  hasHead : bool
}.

(** A [LoaderConfig]: [createElement] gives the lower-cased tag name of the
    element, or the message of the error it throws; [appendsToHead] says
    whether [setup] puts the element in [document.head]; [hasCleanup] whether
    the config has a [cleanup], which takes the element out of its parent. *)
Record LoaderConfig := {
  createElement : Env -> string + string;
  successEvent : string;
  errorEvent : string;
  appendsToHead : bool;
  hasCleanup : bool
}.

Definition imageConfig : LoaderConfig :=
  {| createElement := fun env =>
       if hasImage env then inl "img"
       else inr "Image constructor not available in this environment";
     successEvent := "load"; errorEvent := "error";
     appendsToHead := false; hasCleanup := false |}.

Definition audioConfig : LoaderConfig :=
  {| createElement := fun env =>
       if hasAudio env then inl "audio"
       else inr "Audio constructor not available in this environment";
     successEvent := "canplaythrough"; errorEvent := "error";
     appendsToHead := false; hasCleanup := false |}.

Definition videoConfig : LoaderConfig :=
  {| createElement := fun env =>
       if hasDocument env then inl "video"
       else inr "document not available in this environment";
     successEvent := "loadedmetadata"; errorEvent := "error";
     appendsToHead := false; hasCleanup := false |}.

Definition fontConfig : LoaderConfig :=
  {| createElement := fun env =>
       if hasDocument env then inl "link"
       else inr "document not available in this environment";
     successEvent := "load"; errorEvent := "error";
     appendsToHead := true; hasCleanup := true |}.

(** The two listeners of the executor. *)
Inductive Handler := onSuccess | onError.

Definition Handler_eqb (a b : Handler) : bool :=
  match a, b with
  | onSuccess, onSuccess | onError, onError => true
  | _, _ => false
  end.

(** One call of the loader: the listeners on the element, the [isCleanedUp]
    flag, the state of the promise, whether the element is in the document,
    and two counters: calls of [config.cleanup] and calls of [resolve] or
    [reject]. *)
Record Load := {
  listeners : list (string * Handler);
  isCleanedUp : bool;
  settled : option (unit + string);
  inDocument : bool;
  cleanupCalls : nat;
  settleCalls : nat
}.

Definition removeEventListener (name : string) (handler : Handler) (l : Load) : Load :=
  {| listeners :=
       filter (fun entry =>
                 negb (String.eqb (fst entry) name && Handler_eqb (snd entry) handler))
              (listeners l);
     isCleanedUp := isCleanedUp l; settled := settled l;
     inDocument := inDocument l; cleanupCalls := cleanupCalls l;
     settleCalls := settleCalls l |}.

(** [config.cleanup?.(element)]: the font config removes the link from its
    parent, if it has one. *)
Definition configCleanup (config : LoaderConfig) (l : Load) : Load :=
  if hasCleanup config then
    {| listeners := listeners l; isCleanedUp := isCleanedUp l;
       settled := settled l; inDocument := false;
       cleanupCalls := S (cleanupCalls l); settleCalls := settleCalls l |}
  else l.

Definition cleanup (config : LoaderConfig) (l : Load) : Load :=
  if isCleanedUp l then l
  else
    let l :=
      {| listeners := listeners l; isCleanedUp := true; settled := settled l;
         inDocument := inDocument l; cleanupCalls := cleanupCalls l;
         settleCalls := settleCalls l |} in
    let l := removeEventListener (successEvent config) onSuccess l in
    let l := removeEventListener (errorEvent config) onError l in
    configCleanup config l.

(** [resolve()] or [reject(error)]: only the first call settles the promise. *)
Definition settleWith (result : unit + string) (l : Load) : Load :=
  {| listeners := listeners l; isCleanedUp := isCleanedUp l;
     settled := match settled l with Some r => Some r | None => Some result end;
     inDocument := inDocument l; cleanupCalls := cleanupCalls l;
     settleCalls := S (settleCalls l) |}.

Definition failureMessage (tag url : string) : string :=
  "Failed to load " ++ tag ++ ": " ++ url.

Definition runHandler (config : LoaderConfig) (tag url : string)
    (handler : Handler) (l : Load) : Load :=
  match handler with
  | onSuccess => settleWith (inl tt) (cleanup config l)
  | onError => settleWith (inr (failureMessage tag url)) (cleanup config l)
  end.

(** The executor of the promise: an exception of [createElement] rejects the
    promise (the constructor does it, no call of [reject]); otherwise both
    listeners are added and [setup] runs.  Setting [crossOrigin], which
    changes nothing here, is left out. *)
Definition startLoad (env : Env) (config : LoaderConfig) : (string * Load) :=
  match createElement config env with
  | inr message =>
      (EmptyString,
       {| listeners := []; isCleanedUp := false; settled := Some (inr message);
          inDocument := false; cleanupCalls := 0; settleCalls := 0 |})
  | inl tag =>
      (tag,
       {| listeners := [(successEvent config, onSuccess); (errorEvent config, onError)];
          isCleanedUp := false; settled := None;
          inDocument := appendsToHead config && hasHead env;
          cleanupCalls := 0; settleCalls := 0 |})
  end.

Definition isListening (name : string) (handler : Handler) (l : Load) : bool :=
  existsb (fun entry => String.eqb (fst entry) name && Handler_eqb (snd entry) handler)
          (listeners l).

(** The element receives the event [name]: the listeners registered for it
    when the dispatch starts run in order, each unless it has been removed in
    between; a listener added with [once] is removed before it runs. *)
Fixpoint deliver (config : LoaderConfig) (tag url : string) (name : string)
    (registered : list (string * Handler)) (l : Load) : Load :=
  match registered with
  | [] => l
  | (n, handler) :: rest =>
      if String.eqb n name && isListening n handler l
      then deliver config tag url name rest
             (runHandler config tag url handler (removeEventListener n handler l))
      else deliver config tag url name rest l
  end.

Definition dispatchEvent (config : LoaderConfig) (tag url : string) (name : string)
    (l : Load) : Load :=
  deliver config tag url name (listeners l) l.

(** The events the element receives, one after the other. *)
Definition receive (config : LoaderConfig) (tag url : string)
    (names : list string) (l : Load) : Load :=
  fold_left (fun l name => dispatchEvent config tag url name l) names l.

End Loaders.

(** * Observations

    What the statements below measure on a run: counts of reports, the urls
    fetched, the slots pending; and the inputs of the concrete runs. *)

Import Core.
Local Open Scope Z_scope.

(** ** On event lists *)

(** Diagnostic reports of a timeout failure. *)
Definition isTimeoutReport (ev : Event) : bool :=
  match ev with
  | WarnLoadFailed _ (TimeoutError _) => true
  | _ => false
  end.

Definition isCallbackCall (ev : Event) : bool :=
  match ev with
  | CallOnError _ _ => true
  | _ => false
  end.

Definition timeoutReports (evs : list (Time * Event)) : nat :=
  List.length (filter (fun te => isTimeoutReport (snd te)) evs).

Definition callbackCalls (evs : list (Time * Event)) : nat :=
  List.length (filter (fun te => isCallbackCall (snd te)) evs).

(** The urls handed to [loadByType], in the order of the calls. *)
Definition fetchCalls (evs : list (Time * Event)) : list string :=
  flat_map (fun te => match snd te with CallLoadByType url => [url] | _ => [] end) evs.

(** The urls named in a diagnostic log or passed to [onError]. *)
Definition reportedUrls (evs : list (Time * Event)) : list string :=
  flat_map
    (fun te =>
       match snd te with
       | WarnLoadFailed url _ | CallOnError url _ => [url]
       | _ => []
       end)
    evs.

(** The events of a run, grouped chunk by chunk and load by load.  The order
    of the list is that of the launches, not that of time: when an event
    happens is told by the instant it carries. *)
Definition eventsOf (run : BatchRun) : list (Time * Event) :=
  flat_map (fun c => flat_map events (promises c)) (chunks run).

(** The load does not settle within the timeout: it stays pending, or it
    settles strictly after the timer is due. *)
Definition staysPending (h : Host) (url : string) (timeout : Z) (now : Time) : bool :=
  match loadByType h url now with
  | Throws _ => false
  | Resolves after => timerDelay timeout <? timerDelay after
  | Rejects after _ => timerDelay timeout <? timerDelay after
  | Hangs => true
  end.

(** ** On batches *)

(** Number of iterations over [len] urls taken [n] at a time. *)
Definition chunkCount (len n : nat) : nat := ((len + n - 1) / n)%nat.

(** Each load of a chunk is the guarded load of its url, started when the
    chunk starts: its outcome does not depend on the other loads. *)
Definition launchedTogether (h : Host) (timeout : Z) (options : LoadOptions)
    (c : Chunk) : Prop :=
  promises c =
  map (fun url => loadSingleAsset h url timeout options (startedAt c)) (batch c).

(** Every load of [c] has settled when [c'] starts. *)
Definition settledBefore (c c' : Chunk) : Prop :=
  forall a, In a (promises c) ->
    exists t r, promise a = Settles t r /\ t <= startedAt c'.

(** ** On the idle queue and the host *)

(** The group has a first url, and it is not the empty string. *)
Definition headReady (task : IdleTask) : bool :=
  match urls task with
  | url :: _ => negb (Js.isEmpty url)
  | [] => false
  end.

(** A group as [loadResources] enqueues it and as the scheduler keeps it:
    some urls, none of them the empty string. *)
Definition groupReady (task : IdleTask) : Prop :=
  urls task <> [] /\ Forall (fun url => Js.isEmpty url = false) (urls task).

(** What is left of the visited groups, in the order of the visits; a group
    left without urls is dropped. *)
Definition requeue (front : list IdleTask) : list IdleTask :=
  flat_map
    (fun task =>
       match tl (urls task) with
       | [] => []
       | remaining => [mkIdleTask remaining (options task)]
       end)
    front.

(** The first url of each visited group, launched. *)
Definition launches (h : Host) (now : Time) (front : list IdleTask)
    : list (string * Async) :=
  map (fun task =>
         let url := hd EmptyString (urls task) in
         (url, dispatch h url (options task) now))
      front.

(** Idle slots or fallback timers requested from the host and not yet run. *)
Definition pendingSlots (st : State) : nat :=
  List.length (filter isSlot (hostJobs st)).

(** Between host tasks the flag says exactly whether a slot is pending. *)
Definition slotInvariant (st : State) : Prop :=
  pendingSlots st = (if isIdleProcessing st then 1 else 0)%nat.

(** The slot [scheduleIdleWork] asks for at [now]. *)
Definition slotFor (h : Host) (now : Time) : HostJob :=
  if hasRequestIdleCallback h then IdleCallbackJob else FallbackTimerJob (now + 50).

(** Whether [scheduleIdleWork] goes past its guard. *)
Definition willRequest (st : State) : bool :=
  negb (isIdleProcessing st || (List.length (idleQueue st) =? 0)%nat).

Definition isFlagClear (a : Time * Action) : bool :=
  match snd a with
  | SetProcessing false => true
  | _ => false
  end.

Definition flagClears (acts : list (Time * Action)) : nat :=
  List.length (filter isFlagClear acts).

(** ** On the input *)

(** The checks that the code of [resolveResourceUrl] makes on a trimmed
    string, in its own terms: not empty, none of the five dangerous schemes,
    no ["://"] unless it begins with [http://] or [https://], and url
    characters only. *)
Definition acceptable (trimmed : string) : bool :=
  negb (Js.isEmpty trimmed)
  && negb (Index.hasDangerousScheme trimmed)
  && (Index.hasHttpPrefix trimmed || negb (Js.includes "://" trimmed))
  && Index.hasOnlyUrlChars trimmed.

Definition isValid (r : Index.ResourceInput) : bool :=
  match Index.resolveResourceUrl r with
  | Some _ => true
  | None => false
  end.

(** The entries of the input, one or many. *)
Definition entries (resources : Index.Resources) : list Index.ResourceInput :=
  match resources with
  | Index.Many rs => rs
  | Index.Single r => [r]
  end.

Definition trimmedOf (r : Index.ResourceInput) : string :=
  match r with
  | Index.JsString s => Js.trim s
  | _ => EmptyString
  end.

(** ** Concrete inputs *)

(** Inputs used for the concrete runs below: a host on which every load
    resolves after 10 ms, and a visible page. *)
Definition quietHost : Host :=
  {| loadByType := fun _ _ => Resolves 10;
     hasAbortController := true;
     hasRequestIdleCallback := true;
     documentHidden := fun _ => Some false |}.

Definition hiddenHost : Host :=
  {| loadByType := fun _ _ => Resolves 10;
     hasAbortController := true;
     hasRequestIdleCallback := true;
     documentHidden := fun _ => Some true |}.

(** A host on which no load ever settles. *)
Definition stalledHost : Host :=
  {| loadByType := fun _ _ => Hangs;
     hasAbortController := true;
     hasRequestIdleCallback := true;
     documentHidden := fun _ => Some false |}.

Definition reportingOptions : LoadOptions :=
  {| batchSize := Some 1; timeout := None; onError := Some (fun _ _ => None) |}.

Definition idleOptions : Index.LoadResourcesOptions :=
  {| Index.strategy := Some Index.idle; Index.batchSize := None;
     Index.timeout := None; Index.onError := None |}.

(** The state after [loadResources(['a.jpg', 'b.jpg'], { strategy: 'idle' })]. *)
Definition twoUrlsQueued : State :=
  snd (Index.loadResources quietHost 0
         (Index.Many [Index.JsString "a.jpg"; Index.JsString "b.jpg"])
         idleOptions initialState).

(** Two groups, put in the queue directly. *)
Definition twoGroups : State :=
  withQueue
    [mkIdleTask ["a.jpg"; "b.jpg"]%string reportingOptions;
     mkIdleTask ["c.jpg"]%string reportingOptions]
    [] initialState.

(** The state after
    [loadResources('slow.jpg', { strategy: 'idle', onError })] on [stalledHost]. *)
Definition slowUrlQueued : State :=
  snd (Index.loadResources stalledHost 0
         (Index.Single (Index.JsString "slow.jpg"))
         {| Index.strategy := Some Index.idle; Index.batchSize := None;
            Index.timeout := None; Index.onError := Some (fun _ _ => None) |}
         initialState).

(** * Properties *)

(** ** Error reporter *)

Arguments handleError : simpl never.
Arguments reportAndRethrow : simpl never.

Lemma handleError_events (error : Error) (url : string) (userCallback : option Callback) :
  fst (handleError error url userCallback) =
  WarnLoadFailed url error ::
  match userCallback with
  | None => []
  | Some cb =>
      CallOnError url error ::
      match cb url error with
      | None => []
      | Some callbackError => [WarnCallback callbackError]
      end
  end.
Proof.
  unfold handleError, bind, tryCatch, callUser, emit, ret, throw.
  destruct userCallback as [cb|]; simpl; [|reflexivity].
  destruct (cb url error); reflexivity.
Qed.

Lemma handleError_returns (error : Error) (url : string) (userCallback : option Callback) :
  snd (handleError error url userCallback) = inl tt.
Proof.
  unfold handleError, bind, tryCatch, callUser, emit, ret, throw.
  destruct userCallback as [cb|]; simpl; [|reflexivity].
  destruct (cb url error); reflexivity.
Qed.

Lemma reportAndRethrow_events (error : Error) (url : string) (options : LoadOptions) :
  fst (reportAndRethrow error url options) =
  fst (handleError error url (onError options)).
Proof.
  unfold reportAndRethrow, bind. rewrite handleError_returns.
  cbv beta iota. unfold throw. cbn [fst]. apply app_nil_r.
Qed.

Lemma reportAndRethrow_throws (error : Error) (url : string) (options : LoadOptions) :
  snd (reportAndRethrow error url options) = inr error.
Proof.
  unfold reportAndRethrow, bind. now rewrite handleError_returns.
Qed.

(** C7: a failure handed to the reporter is logged first, whatever the
    options; the callback, when there is one, is then called with the url and
    the error; an exception of the callback is logged and goes no further:
    the reporter returns normally, the loader's catch block rethrows the load
    error itself, and the scheduler's catch handler completes. *)
Theorem handleError_logs_then_isolates_callback
    (error : Error) (url : string) (userCallback : option Callback) :
  fst (handleError error url userCallback) =
    WarnLoadFailed url error ::
    match userCallback with
    | None => []
    | Some cb =>
        CallOnError url error ::
        match cb url error with
        | None => []
        | Some callbackError => [WarnCallback callbackError]
        end
    end
  /\ snd (handleError error url userCallback) = inl tt
  /\ (forall options, onError options = userCallback ->
        snd (reportAndRethrow error url options) = inr error)
  /\ (forall a t, promise a = Settles t (inr error) ->
        promise (catchWith a (fun e => handleError e url userCallback)) =
        Settles t (inl tt)).
Proof.
  split; [apply handleError_events|].
  split; [apply handleError_returns|].
  split.
  - intros options _. apply reportAndRethrow_throws.
  - intros a t Ha. unfold catchWith. rewrite Ha. cbn [promise].
    now rewrite handleError_returns.
Qed.

(** ** Timeout guard *)

Lemma loadSingleAsset_timeout (h : Host) (url : string) (timeout : Z)
    (options : LoadOptions) (now : Time) :
  staysPending h url timeout now = true ->
  loadSingleAsset h url timeout options now =
  {| events :=
       (now, CallLoadByType url) ::
       map (pair (now + timerDelay timeout))
           (fst (handleError (TimeoutError url) url (onError options)));
     promise := Settles (now + timerDelay timeout) (inr (TimeoutError url)) |}.
Proof.
  unfold staysPending, loadSingleAsset, callLoadByType, createTimeoutController.
  intros Hp.
  assert (Hlate : forall d, (timerDelay timeout <? timerDelay d) = true ->
            (now + timerDelay d <=? now + timerDelay timeout) = false).
  { intros d Hd. apply Z.ltb_lt in Hd. apply Z.leb_gt. lia. }
  assert (Hfirst : forall d, (timerDelay timeout <? timerDelay d) = true ->
            (now + timerDelay timeout <=? now + timerDelay d) = true).
  { intros d Hd. apply Z.ltb_lt in Hd. apply Z.leb_le. lia. }
  destruct (loadByType h url now) as [e|d|d e|]; try discriminate;
    destruct (hasAbortController h); unfold race, startingWith, settle;
    cbn [abortsAt]; cbv zeta;
    try rewrite (Hlate _ Hp); try rewrite (Hfirst _ Hp); cbn [events promise];
    now rewrite reportAndRethrow_events, reportAndRethrow_throws.
Qed.

Lemma handleError_timeoutReports (t : Time) (url : string) (userCallback : option Callback) :
  timeoutReports (map (pair t) (fst (handleError (TimeoutError url) url userCallback))) = 1%nat.
Proof.
  rewrite handleError_events. unfold timeoutReports.
  destruct userCallback as [cb|]; simpl; [|reflexivity].
  destruct (cb url (TimeoutError url)); reflexivity.
Qed.

Lemma handleError_callbackCalls (t : Time) (error : Error) (url : string) (cb : Callback) :
  callbackCalls (map (pair t) (fst (handleError error url (Some cb)))) = 1%nat.
Proof.
  rewrite handleError_events. unfold callbackCalls. simpl.
  destruct (cb url error); reflexivity.
Qed.

Lemma timeoutReports_app (l1 l2 : list (Time * Event)) :
  timeoutReports (l1 ++ l2) = (timeoutReports l1 + timeoutReports l2)%nat.
Proof. unfold timeoutReports. now rewrite filter_app, length_app. Qed.

Lemma callbackCalls_app (l1 l2 : list (Time * Event)) :
  callbackCalls (l1 ++ l2) = (callbackCalls l1 + callbackCalls l2)%nat.
Proof. unfold callbackCalls. now rewrite filter_app, length_app. Qed.

(** Under the immediate strategy a load is the plain [loadSingleAsset]: a
    timeout is reported once. *)
Lemma batch_timeout_reported_once (h : Host) (url : string) (timeout : Z)
    (options : LoadOptions) (now : Time) :
  staysPending h url timeout now = true ->
  timeoutReports (events (loadSingleAsset h url timeout options now)) = 1%nat
  /\ (forall cb, onError options = Some cb ->
        callbackCalls (events (loadSingleAsset h url timeout options now)) = 1%nat).
Proof.
  intros Hp. rewrite (loadSingleAsset_timeout _ _ _ options _ Hp). simpl. split.
  - change (timeoutReports (?x :: ?l)) with (timeoutReports l).
    apply handleError_timeoutReports.
  - intros cb Hcb. rewrite Hcb.
    change (callbackCalls (?x :: ?l)) with (callbackCalls l).
    apply handleError_callbackCalls.
Qed.

(** C1, on the idle strategy: the launch of [processIdleQueue] chains a catch
    handler that reports again what [loadSingleAsset] has already reported, so
    a load that stays pending past its timeout is logged twice and the
    callback is called twice. *)
Theorem idle_timeout_reported_twice (h : Host) (url : string)
    (options : LoadOptions) (now : Time) :
  staysPending h url (timeoutOrDefault options) now = true ->
  timeoutReports (events (dispatch h url options now)) = 2%nat
  /\ (forall cb, onError options = Some cb ->
        callbackCalls (events (dispatch h url options now)) = 2%nat).
Proof.
  intros Hp. unfold dispatch, catchWith.
  rewrite (loadSingleAsset_timeout _ _ _ options _ Hp).
  cbn [events promise app]. split.
  - change (timeoutReports (?x :: ?l)) with (timeoutReports l).
    now rewrite timeoutReports_app, !handleError_timeoutReports.
  - intros cb Hcb. rewrite Hcb.
    change (callbackCalls (?x :: ?l)) with (callbackCalls l).
    now rewrite callbackCalls_app, !handleError_callbackCalls.
Qed.

(** ['slow.jpg'] launched from the idle queue at 5 ms on [stalledHost]: the
    timer fires at 15005 ms, and the failure is logged twice and handed to
    [onError] twice. *)
Lemma idle_timeout_reported_twice_witness :
  staysPending stalledHost "slow.jpg" (timeoutOrDefault reportingOptions) 5 = true
  /\ timeoutReports (events (dispatch stalledHost "slow.jpg" reportingOptions 5)) = 2%nat
  /\ callbackCalls (events (dispatch stalledHost "slow.jpg" reportingOptions 5)) = 2%nat.
Proof.
  destruct (idle_timeout_reported_twice stalledHost "slow.jpg" reportingOptions 5
              eq_refl) as (Hlogs & Hcalls).
  split; [reflexivity|]. split; [exact Hlogs|]. exact (Hcalls _ eq_refl).
Defined.

(** The same through the scheduler: the url is queued by [loadResources], the
    idle slot fires at 5 ms with 50 ms remaining, and the one load that the
    cycle starts carries two reports and two callback calls. *)
Example idle_cycle_reports_timeout_twice :
  exists st' a,
    fire stalledHost 5 (IdleCallbackFires {| timeRemaining := inl 50 |}) slowUrlQueued
    = Some st'
    /\ started st' = [("slow.jpg"%string, a)]
    /\ timeoutReports (events a) = 2%nat
    /\ callbackCalls (events a) = 2%nat.
Proof.
  eexists _, _. split; [vm_compute; reflexivity|].
  split; [reflexivity|]. split; reflexivity.
Qed.

(** ** Batch loader *)

(** The race of [loadSingleAsset] between the load and the timer of the
    guard, in the order that the host gives to their tasks. *)
Definition guardRace (h : Host) (url : string) (timeout : Z) (now : Time)
    (loadPromise : Promise) : Promise :=
  match createTimeoutController h timeout now with
  | Some c => race (Settles (abortsAt c) (inr (TimeoutError url))) loadPromise
  | None =>
      race loadPromise (Settles (now + timerDelay timeout) (inr (TimeoutError url)))
  end.

Lemma loadSingleAsset_unfold (h : Host) (url : string) (timeout : Z)
    (options : LoadOptions) (now : Time) :
  loadSingleAsset h url timeout options now =
  startingWith (now, CallLoadByType url)
    match callLoadByType h url now with
    | inr error => settle now (reportAndRethrow error url options)
    | inl loadPromise =>
        match guardRace h url timeout now loadPromise with
        | Settles t (inl _) => settle t (ret tt)
        | Settles t (inr error) => settle t (reportAndRethrow error url options)
        | NeverSettles => {| events := []; promise := NeverSettles |}
        end
    end.
Proof. reflexivity. Qed.

(** The timer of the guard always fires: the race is settled, no later than
    the timer is due, by the timer or by the load. *)
Lemma guardRace_settles (h : Host) (url : string) (timeout : Z) (now : Time)
    (p : Promise) :
  (forall t r, p = Settles t r -> now <= t) ->
  exists t r,
    guardRace h url timeout now p = Settles t r
    /\ now <= t <= now + timerDelay timeout.
Proof.
  intros Hp. unfold guardRace, createTimeoutController, race.
  assert (Hd : 0 <= timerDelay timeout) by (unfold timerDelay; lia).
  destruct (hasAbortController h); cbn [abortsAt]; destruct p as [t r|].
  - destruct (now + timerDelay timeout <=? t) eqn:E.
    + eexists _, _. split; [reflexivity | lia].
    + apply Z.leb_gt in E. specialize (Hp t r eq_refl).
      eexists _, _. split; [reflexivity | lia].
  - eexists _, _. split; [reflexivity | lia].
  - destruct (t <=? now + timerDelay timeout) eqn:E.
    + apply Z.leb_le in E. specialize (Hp t r eq_refl).
      eexists _, _. split; [reflexivity | lia].
    + eexists _, _. split; [reflexivity | lia].
  - eexists _, _. split; [reflexivity | lia].
Qed.

Lemma callLoadByType_later (h : Host) (url : string) (now : Time) (p : Promise) :
  callLoadByType h url now = inl p -> forall t r, p = Settles t r -> now <= t.
Proof.
  unfold callLoadByType, timerDelay.
  destruct (loadByType h url now) as [e|d|d e|]; intros H; inversion H; subst;
    intros t r Heq; inversion Heq; lia.
Qed.

(** Every guarded load settles. *)
Lemma loadSingleAsset_settles (h : Host) (url : string) (timeout : Z)
    (options : LoadOptions) (now : Time) :
  exists t r,
    promise (loadSingleAsset h url timeout options now) = Settles t r /\ now <= t.
Proof.
  rewrite loadSingleAsset_unfold. unfold startingWith. cbn [promise].
  destruct (callLoadByType h url now) as [p|e] eqn:Hcall.
  - destruct (guardRace_settles h url timeout now p
                (callLoadByType_later h url now p Hcall)) as (t & r & -> & Ht).
    destruct r as [[]|error]; cbn [settle promise]; eexists _, _;
      (split; [reflexivity | lia]).
  - cbn [settle promise]. eexists _, _. split; [reflexivity | lia].
Qed.

Lemma allSettled_inv (now : Time) (ps : list Promise) (t : Time) (r : unit + Error) :
  allSettled now ps = Settles t r ->
  r = inl tt /\ now <= t /\
  forall p, In p ps -> exists t' r', p = Settles t' r' /\ t' <= t.
Proof.
  revert t r. induction ps as [|p ps IH]; simpl; intros t r H.
  - inversion H; subst. repeat split; [lia | contradiction].
  - destruct p as [tp rp|]; [|discriminate].
    destruct (allSettled now ps) as [t' r'|]; [|discriminate].
    inversion H; subst. destruct (IH t' r' eq_refl) as (_ & Hnow & Hall).
    repeat split; [lia|]. intros q [<-|Hq].
    + exists tp, rp. split; [reflexivity | lia].
    + destruct (Hall q Hq) as (tq & rq & -> & Hle).
      exists tq, rq. split; [reflexivity | lia].
Qed.

Lemma allSettled_total (now : Time) (ps : list Promise) :
  (forall p, In p ps -> exists t r, p = Settles t r) ->
  exists t, allSettled now ps = Settles t (inl tt).
Proof.
  induction ps as [|p ps IH]; simpl; intros H; [eauto|].
  destruct (H p (or_introl eq_refl)) as (tp & rp & ->).
  destruct IH as (t' & ->); [intros q Hq; apply H; now right|].
  eauto.
Qed.

Lemma allSettled_loads (h : Host) (timeout : Z) (options : LoadOptions)
    (now : Time) (batch : list string) :
  exists t,
    allSettled now
      (map promise (map (fun url => loadSingleAsset h url timeout options now) batch))
    = Settles t (inl tt).
Proof.
  apply allSettled_total. intros p Hp.
  apply in_map_iff in Hp as (a & <- & Ha).
  apply in_map_iff in Ha as (url & <- & _).
  destruct (loadSingleAsset_settles h url timeout options now) as (t & r & H & _).
  eauto.
Qed.

Lemma batchLoop_unfold (h : Host) (urls : list string) (timeout : Z)
    (options : LoadOptions) (n : Z) (running : 0 < n) (i : nat) (now : Time) :
  batchLoop h urls timeout options n running i now =
  if lt_dec i (List.length urls) then
    let batch := slice i (i + Z.to_nat n)%nat urls in
    let promises := map (fun url => loadSingleAsset h url timeout options now) batch in
    let chunk := {| startedAt := now; batch := batch; promises := promises |} in
    match allSettled now (map promise promises) with
    | Settles t _ =>
        let rest := batchLoop h urls timeout options n running (i + Z.to_nat n)%nat t in
        {| chunks := chunk :: chunks rest; finished := finished rest |}
    | NeverSettles => {| chunks := [chunk]; finished := NeverSettles |}
    end
  else {| chunks := []; finished := Settles now (inl tt) |}.
Proof.
  simp batchLoop. destruct (lt_dec i (List.length urls)); reflexivity.
Qed.

(** Induction along the iterations of the loop: since every load of a chunk
    settles, the barrier is passed and the next iteration runs. *)
Lemma batchLoop_ind (h : Host) (urls : list string) (timeout : Z)
    (options : LoadOptions) (n : Z) (running : 0 < n)
    (P : nat -> Time -> BatchRun -> Prop) :
  (forall i now, ~ (i < List.length urls)%nat ->
     P i now {| chunks := []; finished := Settles now (inl tt) |}) ->
  (forall i now t rest,
     (i < List.length urls)%nat ->
     let batch := slice i (i + Z.to_nat n)%nat urls in
     let promises := map (fun url => loadSingleAsset h url timeout options now) batch in
     allSettled now (map promise promises) = Settles t (inl tt) ->
     rest = batchLoop h urls timeout options n running (i + Z.to_nat n)%nat t ->
     P (i + Z.to_nat n)%nat t rest ->
     P i now
       {| chunks :=
            {| startedAt := now; batch := batch; promises := promises |} :: chunks rest;
          finished := finished rest |}) ->
  forall i now, P i now (batchLoop h urls timeout options n running i now).
Proof.
  intros Hstop Hstep i.
  remember (List.length urls - i)%nat as m eqn:Hm.
  revert i Hm. induction m as [m IH] using lt_wf_ind. intros i Hm now.
  rewrite batchLoop_unfold. destruct (lt_dec i (List.length urls)) as [Hlt|Hge].
  - cbv zeta.
    destruct (allSettled_loads h timeout options now
                (slice i (i + Z.to_nat n)%nat urls)) as (t & Ht).
    rewrite Ht. apply (Hstep i now t _ Hlt Ht eq_refl).
    apply (IH (List.length urls - (i + Z.to_nat n))%nat); [lia | reflexivity].
  - now apply Hstop.
Qed.

Lemma chunkCount_zero (n : nat) : (0 < n)%nat -> chunkCount 0 n = 0%nat.
Proof. intros Hn. unfold chunkCount. apply Nat.div_small. lia. Qed.

Lemma chunkCount_step (len n : nat) :
  (0 < n)%nat -> (0 < len)%nat -> chunkCount len n = S (chunkCount (len - n) n).
Proof.
  intros Hn Hlen. unfold chunkCount.
  destruct (le_lt_dec n len) as [Hle|Hlt].
  - replace (len + n - 1)%nat with ((len - n + n - 1) + 1 * n)%nat by lia.
    rewrite Nat.div_add by lia. lia.
  - replace (len - n)%nat with 0%nat by lia.
    replace (len + n - 1)%nat with ((len - 1) + 1 * n)%nat by lia.
    rewrite Nat.div_add by lia.
    rewrite (Nat.div_small (len - 1) n) by lia.
    rewrite (Nat.div_small (0 + n - 1) n) by lia. reflexivity.
Qed.

Lemma slice_then_rest {A} (i n : nat) (l : list A) :
  slice i (i + n) l ++ skipn (i + n) l = skipn i l.
Proof.
  unfold slice. replace (i + n - i)%nat with n by lia.
  rewrite (Nat.add_comm i n), <- skipn_skipn. apply firstn_skipn.
Qed.

Section BatchLoop.

Variables (h : Host) (urls : list string) (timeout : Z) (options : LoadOptions).
Variables (n : Z) (running : 0 < n).

Let loop := batchLoop h urls timeout options n running.

Lemma batchLoop_concat (i : nat) (now : Time) :
  List.concat (map batch (chunks (loop i now))) = skipn i urls.
Proof.
  unfold loop. revert i now.
  apply (batchLoop_ind h urls timeout options n running
           (fun i _ run => List.concat (map batch (chunks run)) = skipn i urls)).
  - intros i now Hge. simpl. symmetry. apply skipn_all2. lia.
  - intros i now t rest Hlt b ps Hall Hrest IH. simpl. rewrite IH.
    apply slice_then_rest.
Qed.

Lemma batchLoop_batches (i : nat) (now : Time) :
  map batch (chunks (loop i now)) =
  map (fun k => slice (i + k * Z.to_nat n) (i + k * Z.to_nat n + Z.to_nat n) urls)
      (seq 0 (chunkCount (List.length urls - i) (Z.to_nat n))).
Proof.
  unfold loop. revert i now.
  apply (batchLoop_ind h urls timeout options n running
           (fun i _ run =>
              map batch (chunks run) =
              map (fun k => slice (i + k * Z.to_nat n)
                                  (i + k * Z.to_nat n + Z.to_nat n) urls)
                  (seq 0 (chunkCount (List.length urls - i) (Z.to_nat n))))).
  - intros i now Hge. replace (List.length urls - i)%nat with 0%nat by lia.
    rewrite chunkCount_zero by lia. reflexivity.
  - intros i now t rest Hlt b ps Hall Hrest IH.
    rewrite chunkCount_step by lia. cbn [chunks map seq batch].
    rewrite IH, <- seq_shift, map_map. f_equal.
    + subst b. f_equal; lia.
    + replace (List.length urls - (i + Z.to_nat n))%nat
        with (List.length urls - i - Z.to_nat n)%nat by lia.
      apply map_ext. intros k. f_equal; lia.
Qed.

Lemma batchLoop_sequential (i : nat) (now : Time) :
  (forall c, nth_error (chunks (loop i now)) 0 = Some c -> startedAt c = now)
  /\ (forall k c c',
        nth_error (chunks (loop i now)) k = Some c ->
        nth_error (chunks (loop i now)) (S k) = Some c' ->
        settledBefore c c')
  /\ Forall (launchedTogether h timeout options) (chunks (loop i now))
  /\ exists t, finished (loop i now) = Settles t (inl tt).
Proof.
  unfold loop. revert i now.
  apply (batchLoop_ind h urls timeout options n running
           (fun _ now run =>
              (forall c, nth_error (chunks run) 0 = Some c -> startedAt c = now)
              /\ (forall k c c',
                    nth_error (chunks run) k = Some c ->
                    nth_error (chunks run) (S k) = Some c' ->
                    settledBefore c c')
              /\ Forall (launchedTogether h timeout options) (chunks run)
              /\ exists t, finished run = Settles t (inl tt))).
  - intros i now Hge. cbn [chunks finished]. repeat split.
    + intros c Hc. discriminate.
    + intros [|k] c c' Hc; discriminate.
    + constructor.
    + eauto.
  - intros i now t rest Hlt b ps Hall Hrest (IHhead & IHseq & IHshape & IHfin).
    cbn [chunks finished]. repeat split.
    + intros c Hc. inversion Hc. reflexivity.
    + intros [|k] c c' Hc Hc'.
      * inversion Hc; subst c.
        unfold settledBefore. rewrite (IHhead c' Hc').
        intros a Ha. cbn [promises] in Ha.
        destruct (allSettled_inv _ _ _ _ Hall) as (_ & _ & Hmembers).
        apply Hmembers. apply in_map_iff. eauto.
      * exact (IHseq k c c' Hc Hc').
    + constructor; [reflexivity | assumption].
    + assumption.
Qed.

End BatchLoop.

(** Shape of a run of [loadAssetsBatch], shared by the statements below. *)
Lemma chunks_shape_of_run (h : Host) (urls : list string) (options : LoadOptions)
    (now : Time) :
  Forall (fun c =>
            promises c =
            map (fun url =>
                   loadSingleAsset h url
                     (match timeout options with Some t => t | None => 15000 end)
                     options (startedAt c))
                (batch c))
         (chunks (loadAssetsBatch h urls options now))
  /\ List.concat (map batch (chunks (loadAssetsBatch h urls options now))) = urls.
Proof.
  unfold loadAssetsBatch.
  destruct (batchLoop_sequential h urls
              (match timeout options with Some t => t | None => 15000 end)
              options _
              (getOptimalBatchSize_pos
                 (match batchSize options with Some b => b | None => 1 end))
              0 now)
    as (_ & _ & Hshape & _).
  split; [exact Hshape | apply batchLoop_concat].
Qed.

(** C4: the concurrency of the immediate strategy is [min(max(B, 1), 2)] for
    every integer [B]; the urls are cut, in order, into the consecutive slices
    of that size (chunk [k] is [urls.slice(k*n, k*n + n)], and the chunks put
    end to end give back the list); five urls with [batchSize = 5] run as the
    three chunks of sizes 2, 2 and 1. *)
Theorem batch_size_capped_and_chunked :
  (forall B : Z, getOptimalBatchSize B = Z.min (Z.max B 1) 2)
  /\ (forall h urls B T cb now,
        let options := {| batchSize := Some B; timeout := T; onError := cb |} in
        let n := Z.to_nat (getOptimalBatchSize B) in
        let run := loadAssetsBatch h urls options now in
        List.concat (map batch (chunks run)) = urls
        /\ map batch (chunks run) =
           map (fun k => slice (k * n) (k * n + n) urls)
               (seq 0 (chunkCount (List.length urls) n)))
  /\ (forall h u1 u2 u3 u4 u5 T cb now,
        let options := {| batchSize := Some 5; timeout := T; onError := cb |} in
        map batch (chunks (loadAssetsBatch h [u1; u2; u3; u4; u5] options now)) =
        [[u1; u2]; [u3; u4]; [u5]]).
Proof.
  split; [|split].
  - intros B. unfold getOptimalBatchSize, MAX_CONCURRENT, DEFAULT_SIZE.
    destruct (0 <? B) eqn:E; [apply Z.ltb_lt in E | apply Z.ltb_ge in E]; lia.
  - intros h urls B T cb now. cbv zeta. unfold loadAssetsBatch. cbn [batchSize].
    split.
    + rewrite batchLoop_concat. reflexivity.
    + rewrite batchLoop_batches. rewrite Nat.sub_0_r. reflexivity.
  - intros h u1 u2 u3 u4 u5 T cb now. cbv zeta. unfold loadAssetsBatch.
    cbn [batchSize]. rewrite batchLoop_batches. reflexivity.
Qed.

(** C5: in one call of [loadAssetsBatch], when a chunk starts every load of
    the chunk before it has settled, by success or by failure; each load of a
    chunk is the guarded load of its own url started with the chunk, so a
    failing member changes nothing for its siblings; every url of the list is
    loaded in its turn and the call completes, whatever the outcomes. *)
Theorem chunks_run_one_after_the_other
    (h : Host) (urls : list string) (options : LoadOptions) (now : Time) :
  let timeout := match timeout options with Some t => t | None => 15000 end in
  let run := loadAssetsBatch h urls options now in
  (forall k c c',
      nth_error (chunks run) k = Some c ->
      nth_error (chunks run) (S k) = Some c' ->
      forall a, In a (promises c) ->
        exists t r, promise a = Settles t r /\ t <= startedAt c')
  /\ Forall (fun c =>
               promises c =
               map (fun url => loadSingleAsset h url timeout options (startedAt c))
                   (batch c))
            (chunks run)
  /\ List.concat (map batch (chunks run)) = urls
  /\ exists t, finished run = Settles t (inl tt).
Proof.
  cbv zeta. unfold loadAssetsBatch.
  destruct (batchLoop_sequential h urls
              (match timeout options with Some t => t | None => 15000 end)
              options _
              (getOptimalBatchSize_pos
                 (match batchSize options with Some b => b | None => 1 end))
              0 now)
    as (_ & Hseq & Hshape & Hfin).
  repeat split.
  - exact Hseq.
  - exact Hshape.
  - apply batchLoop_concat.
  - exact Hfin.
Qed.

(** ** Idle scheduler: one processing cycle *)

Lemma idleLoop_unfold (h : Host) (now : Time) (c n : Z) (queue : list IdleTask)
    (loads : list (string * Async)) :
  idleLoop h now c n queue loads =
  if n <? c then
    match queue with
    | [] => ([], loads)
    | mkIdleTask [] options :: rest => idleLoop h now c n rest loads
    | mkIdleTask (url :: remaining) options :: rest =>
        let requeued :=
          if (0 <? List.length remaining)%nat
          then rest ++ [mkIdleTask remaining options]
          else rest in
        if Js.isEmpty url
        then idleLoop h now c n requeued loads
        else idleLoop h now c (n + 1) requeued
                      (loads ++ [(url, dispatch h url options now)])
    end
  else (queue, loads).
Proof.
  simp idleLoop. destruct (n <? c); simpl; [|reflexivity].
  destruct queue as [|[[|url remaining] options] rest]; reflexivity.
Qed.

(** One pass over the groups at the front of the queue, within the budget:
    each is visited once, in order; its first url is launched and what is
    left of it goes behind everything else. *)
Lemma idleLoop_pass (h : Host) (now : Time) (c : Z) (front : list IdleTask) :
  forall (n : Z) (back : list IdleTask) (loads : list (string * Async)),
    Forall (fun task => headReady task = true) front ->
    n + Z.of_nat (List.length front) <= c ->
    idleLoop h now c n (front ++ back) loads =
    idleLoop h now c (n + Z.of_nat (List.length front))
             (back ++ requeue front) (loads ++ launches h now front).
Proof.
  induction front as [|[us o] front IH]; intros n back loads Hready Hbudget.
  - cbn [List.length requeue launches flat_map map app Z.of_nat].
    now rewrite Z.add_0_r, !app_nil_r.
  - inversion Hready as [|? ? Hhead Hrest]; subst.
    unfold headReady in Hhead. cbn [urls] in Hhead.
    destruct us as [|url remaining]; [discriminate|].
    apply negb_true_iff in Hhead.
    cbn [List.length] in Hbudget.
    rewrite <- app_comm_cons, idleLoop_unfold.
    replace (n <? c) with true by (symmetry; apply Z.ltb_lt; lia).
    cbv zeta. rewrite Hhead.
    cbn [requeue launches flat_map map urls options tl hd List.length].
    fold (requeue front). fold (launches h now front).
    replace (n + Z.of_nat (S (List.length front)))
      with (n + 1 + Z.of_nat (List.length front)) by lia.
    destruct remaining as [|url' remaining'].
    + cbn [List.length Nat.ltb Nat.leb app].
      rewrite IH by (assumption || lia).
      now rewrite <- app_assoc.
    + cbn [List.length Nat.ltb Nat.leb].
      rewrite <- app_assoc, IH by (assumption || lia).
      now rewrite <- !app_assoc.
Qed.

(** The loop never launches more than what is left of the budget, and it
    keeps what was launched before. *)
Lemma idleLoop_bound (h : Host) (now : Time) (c : Z) (queue : list IdleTask) :
  forall (n : Z) (loads : list (string * Async)),
    exists new,
      snd (idleLoop h now c n queue loads) = loads ++ new /\
      Z.of_nat (List.length new) <= Z.max 0 (c - n).
Proof.
  remember (queueWeight queue) as w eqn:Hw. revert queue Hw.
  induction w as [w IH] using lt_wf_ind. intros queue Hw n loads.
  rewrite idleLoop_unfold. destruct (n <? c) eqn:Hn.
  2:{ exists []. rewrite app_nil_r. split; [reflexivity | simpl; lia]. }
  apply Z.ltb_lt in Hn.
  destruct queue as [|[[|url remaining] o] rest].
  - exists []. rewrite app_nil_r. split; [reflexivity | simpl; lia].
  - apply (IH (queueWeight rest)); [|reflexivity].
    subst w. unfold queueWeight. simpl. lia.
  - cbv zeta.
    set (requeued := if (0 <? List.length remaining)%nat
                     then rest ++ [mkIdleTask remaining o] else rest).
    assert (Hlt : (queueWeight requeued < w)%nat).
    { subst w requeued. destruct remaining; cbn [List.length Nat.ltb Nat.leb];
        rewrite ?queueWeight_app; unfold queueWeight, list_sum; cbn; lia. }
    destruct (Js.isEmpty url).
    + apply (IH _ Hlt requeued eq_refl).
    + destruct (IH _ Hlt requeued eq_refl (n + 1)
                  (loads ++ [(url, dispatch h url o now)])) as (new & Hnew & Hlen).
      exists ((url, dispatch h url o now) :: new). split.
      * now rewrite Hnew, <- app_assoc.
      * cbn [List.length]. lia.
Qed.

Lemma scheduleIdleWork_keeps (h : Host) (now : Time) (st : State) :
  idleQueue (scheduleIdleWork h now st) = idleQueue st
  /\ started (scheduleIdleWork h now st) = started st
  /\ batchRuns (scheduleIdleWork h now st) = batchRuns st.
Proof.
  unfold scheduleIdleWork, getRequestIdleCallback.
  destruct (isIdleProcessing st || (List.length (idleQueue st) =? 0)%nat);
    [|destruct (hasRequestIdleCallback h)]; repeat split.
Qed.

(** C2 as stated fails: with a single group of two urls in the queue and an
    idle window of 50 ms (two candidates), the cycle pops both urls of that
    group: after the first pop the group goes to the tail, which is also the
    head, and it is visited again. *)
Lemma one_group_popped_twice_in_a_cycle :
  List.length (idleQueue twoUrlsQueued) = 1%nat
  /\ calculateOptimalBatchSize 50 = 2
  /\ exists st',
       fire quietHost 5 (IdleCallbackFires {| timeRemaining := inl 50 |}) twoUrlsQueued
       = Some st'
       /\ map fst (started st') = ["a.jpg"; "b.jpg"]%string
       /\ idleQueue st' = [].
Proof.
  split; [reflexivity|]. split; [reflexivity|].
  eexists. split; [vm_compute; reflexivity|]. split; reflexivity.
Qed.

(** C2, amended: in a cycle with candidate count [c > 0] at most [c] urls are
    launched; when the [c] groups at the front of the queue each have a first
    url, the cycle visits exactly these, in queue order, pops the first url of
    each, once, and appends what is left of each group behind the groups it
    did not visit; a group left empty is dropped.  With fewer than [c] groups
    at the front the loop goes on from the queue so rearranged, where a group
    that was put back can come to the head again. *)
Theorem idle_cycle_round_robin
    (h : Host) (now : Time) (deadline : IdleDeadline) (tr : Z) (st : State) :
  shouldPauseIdleLoading h now = false ->
  timeRemaining deadline = inl tr ->
  0 < calculateOptimalBatchSize tr ->
  let c := calculateOptimalBatchSize tr in
  let st' := snd (processIdleQueue h now deadline st) in
  (exists new,
      started st' = started st ++ new /\ Z.of_nat (List.length new) <= c)
  /\ (forall front back,
        idleQueue st = front ++ back ->
        Z.of_nat (List.length front) = c ->
        Forall (fun task => headReady task = true) front ->
        started st' = started st ++ launches h now front
        /\ idleQueue st' = back ++ requeue front)
  /\ (forall front back,
        idleQueue st = front ++ back ->
        Z.of_nat (List.length front) <= c ->
        Forall (fun task => headReady task = true) front ->
        (idleQueue st', started st') =
        idleLoop h now c (Z.of_nat (List.length front))
                 (back ++ requeue front) (started st ++ launches h now front)).
Proof.
  intros Hvisible Hdeadline Hc. cbv zeta.
  unfold processIdleQueue. rewrite Hvisible, Hdeadline.
  replace (calculateOptimalBatchSize tr =? 0) with false
    by (symmetry; apply Z.eqb_neq; lia).
  cbn [orb].
  destruct (List.length (idleQueue st) =? 0)%nat eqn:Hlen.
  - (* nothing queued *)
    apply Nat.eqb_eq in Hlen. cbn [snd]. cbn [idleQueue setProcessing].
    rewrite Hlen. cbn [Nat.ltb Nat.leb started setProcessing]. split.
    + exists []. rewrite app_nil_r. split; [reflexivity | simpl; lia].
    + assert (Hnil : forall front back : list IdleTask,
                idleQueue st = front ++ back -> front = [] /\ back = []).
      { intros front back Hq. rewrite Hq, length_app in Hlen.
        destruct front, back; simpl in Hlen; try lia. now split. }
      split.
      * intros front back Hq Hfront _. destruct (Hnil _ _ Hq) as (-> & _).
        simpl in Hfront. lia.
      * intros front back Hq _ _. destruct (Hnil _ _ Hq) as (-> & ->).
        rewrite idleLoop_unfold. cbn [idleQueue setProcessing].
        cbn [app] in Hq. rewrite Hq.
        cbn [List.length Z.of_nat requeue launches flat_map map app].
        rewrite app_nil_r.
        now destruct (0 <? calculateOptimalBatchSize tr).
  - cbn [snd].
    set (drained := idleLoop h now (calculateOptimalBatchSize tr) 0
                             (idleQueue st) (started st)).
    assert (Hst : forall s,
              started (if (0 <? List.length (idleQueue s))%nat
                       then scheduleIdleWork h now s else s) = started s
              /\ idleQueue (if (0 <? List.length (idleQueue s))%nat
                            then scheduleIdleWork h now s else s) = idleQueue s).
    { intros s. destruct (0 <? List.length (idleQueue s))%nat; [|now split].
      destruct (scheduleIdleWork_keeps h now s) as (Hq & Hs & _). now split. }
    destruct (Hst (setProcessing now false (withQueue (fst drained) (snd drained) st)))
      as (-> & ->).
    cbn [started idleQueue setProcessing withQueue]. split.
    + destruct (idleLoop_bound h now (calculateOptimalBatchSize tr)
                  (idleQueue st) 0 (started st)) as (new & Hnew & Hbound).
      exists new. split; [exact Hnew | lia].
    + split.
      * intros front back Hq Hfront Hready. subst drained.
        rewrite Hq, idleLoop_pass by (assumption || lia).
        rewrite Z.add_0_l, Hfront, idleLoop_unfold, Z.ltb_irrefl. now split.
      * intros front back Hq Hfront Hready. subst drained.
        rewrite Hq, idleLoop_pass by (assumption || lia).
        rewrite Z.add_0_l. now destruct (idleLoop _ _ _ _ _ _).
Qed.

(** [twoGroups], a visible page and a window of 50 ms, that is two
    candidates: one url of each group is launched, and what is left of the
    first group stays queued. *)
Lemma idle_cycle_round_robin_witness :
  let st' := snd (processIdleQueue quietHost 5 {| timeRemaining := inl 50 |} twoGroups) in
  shouldPauseIdleLoading quietHost 5 = false
  /\ 0 < calculateOptimalBatchSize 50
  /\ map fst (started st') = ["a.jpg"; "c.jpg"]%string
  /\ map urls (idleQueue st') = [["b.jpg"%string]].
Proof.
  cbv zeta.
  destruct (idle_cycle_round_robin quietHost 5 {| timeRemaining := inl 50 |} 50
              twoGroups eq_refl eq_refl eq_refl) as (_ & Hpass & _).
  destruct (Hpass (idleQueue twoGroups) [] eq_refl eq_refl) as (Hs & Hq).
  - repeat constructor.
  - split; [reflexivity|]. split; [reflexivity|].
    rewrite Hs, Hq. split; reflexivity.
Defined.

(** ** Idle scheduler: the processing flag and the slot requests *)

Lemma slotFor_isSlot (h : Host) (now : Time) : isSlot (slotFor h now) = true.
Proof. unfold slotFor. now destruct (hasRequestIdleCallback h). Qed.

Lemma scheduleIdleWork_effect (h : Host) (now : Time) (st : State) :
  trace (scheduleIdleWork h now st) =
    trace st ++
    (if willRequest st
     then [(now, SetProcessing true); (now, Register (slotFor h now))]
     else [])
  /\ hostJobs (scheduleIdleWork h now st) =
     hostJobs st ++ (if willRequest st then [slotFor h now] else [])
  /\ isIdleProcessing (scheduleIdleWork h now st) =
     (isIdleProcessing st || willRequest st).
Proof.
  unfold scheduleIdleWork, getRequestIdleCallback, willRequest, slotFor.
  destruct (isIdleProcessing st) eqn:Hflag; cbn [orb negb].
  - now rewrite !app_nil_r.
  - destruct (List.length (idleQueue st) =? 0)%nat; cbn [negb].
    + now rewrite !app_nil_r, Hflag.
    + destruct (hasRequestIdleCallback h);
        cbn [trace hostJobs isIdleProcessing register setProcessing];
        now rewrite <- app_assoc.
Qed.

Lemma pendingSlots_app (st : State) (jobs : list HostJob) :
  List.length (filter isSlot (hostJobs st ++ jobs)) =
  (pendingSlots st + List.length (filter isSlot jobs))%nat.
Proof. unfold pendingSlots. now rewrite filter_app, length_app. Qed.

Lemma scheduleIdleWork_invariant (h : Host) (now : Time) (st : State) :
  slotInvariant st -> slotInvariant (scheduleIdleWork h now st).
Proof.
  unfold slotInvariant. intros Hinv.
  destruct (scheduleIdleWork_effect h now st) as (_ & Hjobs & Hflag).
  unfold pendingSlots at 1. rewrite Hjobs, Hflag, pendingSlots_app, Hinv.
  unfold willRequest.
  destruct (isIdleProcessing st); cbn [orb negb]; [reflexivity|].
  destruct (List.length (idleQueue st) =? 0)%nat; cbn [negb filter]; [reflexivity|].
  now rewrite slotFor_isSlot.
Qed.

(** After the flag has been cleared with no slot pending, the optional
    rescheduling at the end of a cycle restores the invariant. *)
Lemma reschedule_invariant (h : Host) (now : Time) (st : State) :
  pendingSlots st = 0%nat ->
  slotInvariant
    (if (0 <? List.length (idleQueue (setProcessing now false st)))%nat
     then scheduleIdleWork h now (setProcessing now false st)
     else setProcessing now false st).
Proof.
  intros Hnone.
  assert (Hclear : slotInvariant (setProcessing now false st)) by exact Hnone.
  destruct (0 <? _)%nat; [now apply scheduleIdleWork_invariant | exact Hclear].
Qed.

Lemma idleCallback_invariant (h : Host) (now : Time) (deadline : IdleDeadline)
    (st : State) :
  pendingSlots st = 0%nat -> slotInvariant (idleCallback h now deadline st).
Proof.
  intros Hnone. unfold idleCallback, processIdleQueue.
  destruct (shouldPauseIdleLoading h now).
  - unfold slotInvariant, pendingSlots.
    cbn [hostJobs isIdleProcessing register setProcessing].
    rewrite filter_app, length_app. exact (f_equal (fun k => (k + 0)%nat) Hnone).
  - destruct (timeRemaining deadline) as [tr|error].
    + destruct ((calculateOptimalBatchSize tr =? 0)
                || (List.length (idleQueue st) =? 0)%nat).
      * now apply reschedule_invariant.
      * now apply reschedule_invariant.
    + exact Hnone.
Qed.

Lemma HostJob_eqb_isSlot (a b : HostJob) :
  HostJob_eqb a b = true -> isSlot a = isSlot b.
Proof. destruct a, b; simpl; congruence. Qed.

Lemma takeJob_slots (job : HostJob) (jobs jobs' : list HostJob) :
  takeJob job jobs = Some jobs' ->
  List.length (filter isSlot jobs) =
  (List.length (filter isSlot jobs') + (if isSlot job then 1 else 0))%nat.
Proof.
  revert jobs'. induction jobs as [|j jobs IH]; simpl; intros jobs' H.
  - discriminate.
  - destruct (HostJob_eqb job j) eqn:E.
    + inversion H; subst. rewrite (HostJob_eqb_isSlot _ _ E).
      destruct (isSlot j); simpl; lia.
    + destruct (takeJob job jobs) as [rest|]; [|discriminate].
      inversion H; subst. simpl. specialize (IH rest eq_refl).
      destruct (isSlot j); simpl; lia.
Qed.

Lemma fire_invariant (h : Host) (now : Time) (ev : HostEvent) (st st' : State) :
  slotInvariant st -> fire h now ev st = Some st' -> slotInvariant st'.
Proof.
  intros Hinv Hfire.
  assert (Hone : (pendingSlots st <= 1)%nat)
    by (rewrite Hinv; destruct (isIdleProcessing st); lia).
  destruct ev as [deadline|due|due]; simpl in Hfire.
  - destruct (takeJob IdleCallbackJob (hostJobs st)) as [jobs|] eqn:Htake;
      [|discriminate].
    inversion Hfire; subst. apply idleCallback_invariant.
    apply takeJob_slots in Htake. unfold pendingSlots in *. simpl in *. lia.
  - destruct (takeJob (FallbackTimerJob due) (hostJobs st)) as [jobs|] eqn:Htake;
      [|discriminate].
    destruct (due <=? now); [|discriminate].
    inversion Hfire; subst. apply idleCallback_invariant.
    apply takeJob_slots in Htake. unfold pendingSlots in *. simpl in *. lia.
  - destruct (takeJob (RescheduleTimerJob due) (hostJobs st)) as [jobs|] eqn:Htake;
      [|discriminate].
    destruct (due <=? now); [|discriminate].
    inversion Hfire; subst. apply scheduleIdleWork_invariant.
    apply takeJob_slots in Htake. unfold slotInvariant, pendingSlots in *.
    simpl in *. rewrite <- Hinv. lia.
Qed.

Lemma loadResources_invariant (h : Host) (now : Time)
    (resources : Index.Resources) (options : Index.LoadResourcesOptions)
    (st : State) :
  slotInvariant st ->
  slotInvariant (snd (Index.loadResources h now resources options st)).
Proof.
  intros Hinv. unfold Index.loadResources.
  destruct (List.length (Index.prepareResourcesForLoading resources) =? 0)%nat;
    [exact Hinv|].
  destruct (match Index.strategy options with
            | Some s => s
            | None => Index.immediate
            end); cbn [snd].
  - unfold Index.catchImmediate. destruct (finished _) as [t [[]|e]|]; exact Hinv.
  - apply scheduleIdleWork_invariant. exact Hinv.
Qed.

Lemma reachable_invariant (h : Host) (t : Time) (st : State) :
  reachable h t st -> slotInvariant st.
Proof.
  induction 1 as [t|t t' resources options st _ IH _|t t' ev st st' _ IH _ Hfire].
  - reflexivity.
  - now apply loadResources_invariant.
  - exact (fire_invariant h t' ev st st' IH Hfire).
Qed.

Lemma flagClears_app (l1 l2 : list (Time * Action)) :
  flagClears (l1 ++ l2) = (flagClears l1 + flagClears l2)%nat.
Proof. unfold flagClears. now rewrite filter_app, length_app. Qed.

(** Whatever the cycle does, it writes [isIdleProcessing = false] once. *)
Lemma idleCallback_clears_once (h : Host) (now : Time) (deadline : IdleDeadline)
    (st : State) :
  exists acts,
    trace (idleCallback h now deadline st) = trace st ++ acts
    /\ flagClears acts = 1%nat.
Proof.
  assert (Hend : forall s,
            exists acts,
              trace (if (0 <? List.length (idleQueue (setProcessing now false s)))%nat
                     then scheduleIdleWork h now (setProcessing now false s)
                     else setProcessing now false s) = trace s ++ acts
              /\ flagClears acts = 1%nat).
  { intros s. destruct (0 <? _)%nat.
    - destruct (scheduleIdleWork_effect h now (setProcessing now false s)) as (Ht & _).
      rewrite Ht. cbn [trace setProcessing]. rewrite <- app_assoc.
      eexists. split; [reflexivity|].
      rewrite flagClears_app. destruct (willRequest _); reflexivity.
    - cbn [trace setProcessing]. eexists. split; reflexivity. }
  unfold idleCallback, processIdleQueue.
  destruct (shouldPauseIdleLoading h now).
  - cbn [trace register setProcessing]. rewrite <- app_assoc.
    eexists. split; reflexivity.
  - destruct (timeRemaining deadline) as [tr|error].
    + destruct ((calculateOptimalBatchSize tr =? 0)
                || (List.length (idleQueue st) =? 0)%nat).
      * apply Hend.
      * apply (Hend (withQueue _ _ st)).
    + cbn [trace warn setProcessing]. rewrite <- app_assoc.
      eexists. split; reflexivity.
Qed.

(** C8: in every state the scheduler can reach, at most one idle slot or
    fallback timer is pending, and one is pending exactly when the flag is
    set; [scheduleIdleWork] asks for nothing while the flag is set, and when
    it asks it sets the flag first; a processing cycle clears the flag once on
    each of its paths: hidden page, no candidate or empty queue, normal end,
    and exception. *)
Theorem at_most_one_slot_requested (h : Host) (t : Time) (st : State) :
  reachable h t st ->
  ((pendingSlots st <= 1)%nat
   /\ (pendingSlots st = 1%nat <-> isIdleProcessing st = true))
  /\ (forall now,
        let st' := scheduleIdleWork h now st in
        (isIdleProcessing st = true -> st' = st)
        /\ trace st' =
           trace st ++
           (if willRequest st
            then [(now, SetProcessing true); (now, Register (slotFor h now))]
            else [])
        /\ hostJobs st' =
           hostJobs st ++ (if willRequest st then [slotFor h now] else []))
  /\ (forall now deadline jobs,
        exists acts,
          trace (idleCallback h now deadline (withJobs jobs st)) = trace st ++ acts
          /\ flagClears acts = 1%nat).
Proof.
  intros Hreach. pose proof (reachable_invariant h t st Hreach) as Hinv.
  unfold slotInvariant in Hinv. split; [|split].
  - rewrite Hinv. destruct (isIdleProcessing st); split; try lia; split;
      congruence.
  - intros now. cbv zeta.
    destruct (scheduleIdleWork_effect h now st) as (Htrace & Hjobs & _).
    split; [|now split].
    intros Hflag. unfold scheduleIdleWork. now rewrite Hflag.
  - intros now deadline jobs.
    exact (idleCallback_clears_once h now deadline (withJobs jobs st)).
Qed.

Lemma twoUrlsQueued_reachable : reachable quietHost 0 twoUrlsQueued.
Proof.
  unfold twoUrlsQueued.
  apply (reachable_call quietHost 0 0); [apply reachable_init | lia].
Defined.

(** After [loadResources(['a.jpg', 'b.jpg'], { strategy: 'idle' })]: one slot
    pending, the flag set. *)
Lemma at_most_one_slot_requested_witness :
  pendingSlots twoUrlsQueued = 1%nat
  /\ isIdleProcessing twoUrlsQueued = true
  /\ scheduleIdleWork quietHost 1 twoUrlsQueued = twoUrlsQueued.
Proof.
  destruct (at_most_one_slot_requested quietHost 0 twoUrlsQueued
              twoUrlsQueued_reachable) as ((_ & Hflag) & Hschedule & _).
  assert (Hset : isIdleProcessing twoUrlsQueued = true) by reflexivity.
  split; [now apply Hflag|]. split; [exact Hset|].
  now apply (Hschedule 1).
Defined.

Lemma fire_reschedule (h : Host) (now : Time) (due : Time) (st st' : State) :
  fire h now (RescheduleTimerFires due) st = Some st' ->
  due <= now
  /\ exists jobs,
       takeJob (RescheduleTimerJob due) (hostJobs st) = Some jobs
       /\ st' = scheduleIdleWork h now (withJobs jobs st).
Proof.
  simpl. destruct (takeJob (RescheduleTimerJob due) (hostJobs st)) as [jobs|];
    [|discriminate].
  destruct (due <=? now) eqn:Hdue; [|discriminate].
  intros H. inversion H; subst. apply Z.leb_le in Hdue. eauto.
Qed.

(** C9: a cycle that fires while the page is hidden launches nothing, leaves
    the queue as it is, clears the flag and asks the host for one thing only,
    the timer of 1000 ms that calls [scheduleIdleWork]; the host cannot run
    that timer before the 1000 ms have passed, and when it runs, a slot is
    requested if the queue is not empty (and none is pending) and nothing is
    requested if the queue is empty. *)
Theorem hidden_page_defers_cycle
    (h : Host) (now : Time) (deadline : IdleDeadline) (st : State) :
  documentHidden h now = Some true ->
  let st' := idleCallback h now deadline st in
  started st' = started st
  /\ batchRuns st' = batchRuns st
  /\ idleQueue st' = idleQueue st
  /\ isIdleProcessing st' = false
  /\ hostJobs st' = hostJobs st ++ [RescheduleTimerJob (now + 1000)]
  /\ (forall now' st2 st3,
        fire h now' (RescheduleTimerFires (now + 1000)) st2 = Some st3 ->
        now + 1000 <= now'
        /\ (idleQueue st2 = [] ->
              trace st3 = trace st2 /\ pendingSlots st3 = pendingSlots st2)
        /\ (idleQueue st2 <> [] -> isIdleProcessing st2 = false ->
              trace st3 =
              trace st2 ++
              [(now', SetProcessing true); (now', Register (slotFor h now'))])).
Proof.
  intros Hhidden. cbv zeta. unfold idleCallback, processIdleQueue,
    shouldPauseIdleLoading. rewrite Hhidden.
  cbn [started batchRuns idleQueue isIdleProcessing hostJobs register setProcessing].
  do 5 (split; [reflexivity|]).
  intros now' st2 st3 Hfire.
  destruct (fire_reschedule _ _ _ _ _ Hfire) as (Hdue & jobs & Htake & ->).
  destruct (scheduleIdleWork_effect h now' (withJobs jobs st2))
    as (Htrace & Hjobs & _).
  unfold willRequest in Htrace, Hjobs.
  cbn [idleQueue isIdleProcessing trace hostJobs withJobs] in Htrace, Hjobs.
  split; [exact Hdue|]. split.
  - intros Hempty. rewrite Hempty in Htrace, Hjobs.
    cbn [List.length Nat.eqb] in Htrace, Hjobs.
    rewrite orb_true_r in Htrace, Hjobs. cbn [negb] in Htrace, Hjobs.
    rewrite app_nil_r in Htrace, Hjobs. split; [exact Htrace|].
    unfold pendingSlots. rewrite Hjobs.
    apply takeJob_slots in Htake. simpl in Htake. lia.
  - intros Hqueue Hflag. rewrite Htrace, Hflag.
    destruct (idleQueue st2); [contradiction|]. reflexivity.
Qed.

(** The slot requested for the two queued urls fires at 5 ms on a hidden
    page: nothing is launched, the timer is due at 1005 ms. *)
Lemma hidden_page_defers_cycle_witness :
  let st' := idleCallback hiddenHost 5 {| timeRemaining := inl 50 |}
                          (withJobs [] twoUrlsQueued) in
  documentHidden hiddenHost 5 = Some true
  /\ started st' = []
  /\ isIdleProcessing st' = false
  /\ hostJobs st' = [RescheduleTimerJob 1005].
Proof.
  cbv zeta.
  destruct (hidden_page_defers_cycle hiddenHost 5 {| timeRemaining := inl 50 |}
              (withJobs [] twoUrlsQueued) eq_refl)
    as (Hstarted & _ & _ & Hflag & Hjobs & _).
  split; [reflexivity|]. split; [exact Hstarted|]. split; [exact Hflag|].
  exact Hjobs.
Defined.

(** ** Validation and the public entry point *)

Lemma resolveResourceUrl_trimmed (s : string) :
  Index.resolveResourceUrl (Index.JsString s) =
  if acceptable (Js.trim s) then Some (Js.trim s) else None.
Proof.
  unfold Index.resolveResourceUrl, acceptable.
  destruct s as [|c s]; [reflexivity|]. cbn [Js.isEmpty].
  destruct (Js.isEmpty (Js.trim (String c s))); [reflexivity|].
  destruct (Index.hasDangerousScheme (Js.trim (String c s))); [reflexivity|].
  destruct (Js.includes "://" (Js.trim (String c s)));
    destruct (Index.hasHttpPrefix (Js.trim (String c s)));
    destruct (Index.hasOnlyUrlChars (Js.trim (String c s))); reflexivity.
Qed.

Lemma dropNulls_resolve (rs : list Index.ResourceInput) :
  Index.dropNulls (map Index.resolveResourceUrl rs) =
  map trimmedOf (filter isValid rs).
Proof.
  induction rs as [|r rs IH]; [reflexivity|].
  cbn [map filter]. unfold isValid at 1.
  destruct r as [s| | |]; try exact IH.
  rewrite resolveResourceUrl_trimmed.
  destruct (acceptable (Js.trim s)); cbn [map trimmedOf Index.dropNulls];
    [now rewrite IH | exact IH].
Qed.

Lemma prepare_valid (resources : Index.Resources) :
  Index.prepareResourcesForLoading resources =
  map trimmedOf (filter isValid (entries resources)).
Proof.
  unfold Index.prepareResourcesForLoading, entries.
  destruct resources; apply dropNulls_resolve.
Qed.

(** The urls that [loadResources] hands on are never the empty string, so a
    group it enqueues always has a first url to launch. *)
Lemma prepared_urls_not_empty (resources : Index.Resources) :
  Forall (fun url => Js.isEmpty url = false)
         (Index.prepareResourcesForLoading resources).
Proof.
  rewrite prepare_valid.
  induction (entries resources) as [|r rs IH]; [constructor|].
  cbn [filter]. destruct (isValid r) eqn:Hr; [|exact IH].
  cbn [map]. constructor; [|exact IH].
  unfold isValid in Hr. destruct r as [s| | |]; try discriminate.
  rewrite resolveResourceUrl_trimmed in Hr. cbn [trimmedOf].
  unfold acceptable in Hr. destruct (Js.isEmpty (Js.trim s)); [discriminate|].
  reflexivity.
Qed.

Lemma loadSingleAsset_events (h : Host) (url : string) (timeout : Z)
    (options : LoadOptions) (now : Time) :
  exists tail,
    events (loadSingleAsset h url timeout options now) =
      (now, CallLoadByType url) :: tail
    /\ (tail = [] \/
        exists t e, tail = map (pair t) (fst (handleError e url (onError options)))).
Proof.
  rewrite loadSingleAsset_unfold. unfold startingWith. cbn [events].
  eexists. split; [reflexivity|].
  destruct (callLoadByType h url now) as [p|e].
  - destruct (guardRace h url timeout now p) as [t [[]|e]|];
      cbn [events settle ret fst map].
    + now left.
    + right. exists t, e. now rewrite reportAndRethrow_events.
    + now left.
  - right. exists now, e. cbn [events settle]. now rewrite reportAndRethrow_events.
Qed.

Lemma loadSingleAsset_calls (h : Host) (url : string) (timeout : Z)
    (options : LoadOptions) (now : Time) :
  fetchCalls (events (loadSingleAsset h url timeout options now)) = [url]
  /\ forall u, In u (reportedUrls (events (loadSingleAsset h url timeout options now))) ->
       u = url.
Proof.
  destruct (loadSingleAsset_events h url timeout options now)
    as (tail & -> & [-> | (t & e & ->)]).
  - split; [reflexivity|]. intros u [].
  - rewrite handleError_events. split.
    + destruct (onError options) as [cb|]; [destruct (cb url e)|]; reflexivity.
    + intros u Hu.
      destruct (onError options) as [cb|]; [destruct (cb url e)|];
        simpl in Hu; intuition congruence.
Qed.

Lemma fetchCalls_app (l1 l2 : list (Time * Event)) :
  fetchCalls (l1 ++ l2) = fetchCalls l1 ++ fetchCalls l2.
Proof. apply flat_map_app. Qed.

Lemma batch_calls (h : Host) (timeout : Z) (options : LoadOptions) (now : Time)
    (b : list string) :
  fetchCalls (flat_map events
                (map (fun url => loadSingleAsset h url timeout options now) b)) = b
  /\ forall u,
       In u (reportedUrls
               (flat_map events
                  (map (fun url => loadSingleAsset h url timeout options now) b))) ->
       In u b.
Proof.
  induction b as [|url b (IHcalls & IHreports)]; [split; [reflexivity | intros u []]|].
  cbn [map flat_map].
  destruct (loadSingleAsset_calls h url timeout options now) as (Hcalls & Hreports).
  split.
  - now rewrite fetchCalls_app, Hcalls, IHcalls.
  - intros u Hu. unfold reportedUrls in Hu. rewrite flat_map_app in Hu.
    apply in_app_or in Hu as [Hu|Hu].
    + left. symmetry. now apply Hreports.
    + right. now apply IHreports.
Qed.

(** The immediate strategy calls [loadByType] once for each url of the list,
    in order, and reports about no other url. *)
Lemma loadAssetsBatch_calls (h : Host) (urls : list string) (options : LoadOptions)
    (now : Time) :
  fetchCalls (eventsOf (loadAssetsBatch h urls options now)) = urls
  /\ forall u,
       In u (reportedUrls (eventsOf (loadAssetsBatch h urls options now))) ->
       In u urls.
Proof.
  destruct (chunks_shape_of_run h urls options now) as (Hshape & Hconcat).
  unfold eventsOf.
  set (cs := chunks (loadAssetsBatch h urls options now)) in *. clearbody cs.
  subst urls.
  induction Hshape as [|c cs Hc _ (IHcalls & IHreports)];
    [split; [reflexivity | intros u []]|].
  cbn [flat_map map List.concat]. rewrite Hc.
  destruct (batch_calls h (match timeout options with Some t => t | None => 15000 end)
              options (startedAt c) (batch c)) as (Hcalls & Hreports).
  split.
  - now rewrite fetchCalls_app, Hcalls, IHcalls.
  - intros u Hu. unfold reportedUrls in Hu. rewrite flat_map_app in Hu.
    apply in_or_app. apply in_app_or in Hu as [Hu|Hu];
      [left; now apply Hreports | right; now apply IHreports].
Qed.

Lemma loadAssetsBatch_finishes (h : Host) (urls : list string) (options : LoadOptions)
    (now : Time) :
  exists t, finished (loadAssetsBatch h urls options now) = Settles t (inl tt).
Proof.
  unfold loadAssetsBatch.
  destruct (batchLoop_sequential h urls
              (match timeout options with Some t => t | None => 15000 end)
              options _
              (getOptimalBatchSize_pos
                 (match batchSize options with Some b => b | None => 1 end))
              0 now)
    as (_ & _ & _ & Hfin).
  exact Hfin.
Qed.

Lemma catchImmediate_fulfilled (run : BatchRun) (st : State) (t : Time) :
  finished run = Settles t (inl tt) -> Index.catchImmediate run st = st.
Proof. intros H. unfold Index.catchImmediate. now rewrite H. Qed.

(** C3: whatever the input, the options, the state and the behaviour of the
    host and of the callback, [loadResources] completes normally with no
    value; the promise of a batch it starts is fulfilled even when loads
    fail, so its catch handler never has anything to report. *)
Theorem loadResources_never_throws
    (h : Host) (now : Time) (resources : Index.Resources)
    (options : Index.LoadResourcesOptions) (st : State) :
  let result := Index.loadResources h now resources options st in
  fst result = inl tt
  /\ (forall run, In run (batchRuns (snd result)) ->
        In run (batchRuns st) \/ exists t, finished run = Settles t (inl tt))
  /\ (forall t e, In (t, WarnImmediateFailed e) (trace (snd result)) ->
        In (t, WarnImmediateFailed e) (trace st)).
Proof.
  cbv zeta. unfold Index.loadResources.
  destruct (List.length (Index.prepareResourcesForLoading resources) =? 0)%nat.
  { cbn [fst snd]. split; [reflexivity|]. split; [now left | trivial]. }
  destruct (match Index.strategy options with
            | Some s => s
            | None => Index.immediate
            end).
  - (* immediate *)
    cbn [fst snd]. split; [reflexivity|].
    set (run := loadAssetsBatch h _ _ now).
    destruct (loadAssetsBatch_finishes h
                (Index.prepareResourcesForLoading resources)
                {| batchSize :=
                     Some match Index.batchSize options with
                          | Some b => b
                          | None => 1
                          end;
                   timeout := Index.timeout options;
                   onError := Index.onError options |} now) as (t & Hfin).
    fold run in Hfin. rewrite (catchImmediate_fulfilled run _ t Hfin).
    cbn [batchRuns trace withBatchRun]. split; [|trivial].
    intros r Hr. apply in_app_or in Hr as [Hr|[<-|[]]]; [now left | right; eauto].
  - (* idle *)
    cbn [fst snd]. split; [reflexivity|].
    set (queued := addIdleTask _ _ st).
    destruct (scheduleIdleWork_keeps h now queued) as (_ & _ & ->).
    destruct (scheduleIdleWork_effect h now queued) as (-> & _).
    cbn [batchRuns trace addIdleTask withQueue queued]. split; [now left|].
    intros t e Hin. apply in_app_or in Hin as [Hin|Hin]; [exact Hin|].
    destruct (willRequest queued); simpl in Hin; intuition discriminate.
Qed.

(** ** The queue only holds groups with urls to launch *)

Lemma groupReady_headReady (task : IdleTask) :
  groupReady task -> headReady task = true.
Proof.
  unfold groupReady, headReady. intros (Hsome & Hall).
  destruct (urls task) as [|url rest]; [congruence|].
  inversion Hall as [|? ? Hurl _]; subst. now rewrite Hurl.
Qed.

Lemma idleLoop_keeps_ready (h : Host) (now : Time) (c : Z) (queue : list IdleTask) :
  forall (n : Z) (loads : list (string * Async)),
    Forall groupReady queue ->
    Forall groupReady (fst (idleLoop h now c n queue loads)).
Proof.
  remember (queueWeight queue) as w eqn:Hw. revert queue Hw.
  induction w as [w IH] using lt_wf_ind. intros queue Hw n loads Hready.
  rewrite idleLoop_unfold. destruct (n <? c); [|exact Hready].
  destruct queue as [|[[|url remaining] o] rest]; [constructor| |].
  - inversion Hready as [|? ? _ Hrest]; subst.
    apply (IH (queueWeight rest)); [|reflexivity|exact Hrest].
    unfold queueWeight. simpl. lia.
  - cbv zeta. inversion Hready as [|? ? (_ & Hurls) Hrest]; subst.
    cbn [urls] in Hurls. inversion Hurls as [|? ? _ Hremaining]; subst.
    set (requeued := if (0 <? List.length remaining)%nat
                     then rest ++ [mkIdleTask remaining o] else rest).
    assert (Hlt : (queueWeight requeued < queueWeight (mkIdleTask (url :: remaining) o :: rest))%nat).
    { subst requeued. destruct remaining; cbn [List.length Nat.ltb Nat.leb];
        rewrite ?queueWeight_app; unfold queueWeight, list_sum; cbn; lia. }
    assert (Hrequeued : Forall groupReady requeued).
    { subst requeued. destruct remaining as [|url' remaining'];
        cbn [List.length Nat.ltb Nat.leb]; [exact Hrest|].
      apply Forall_app. split; [exact Hrest|].
      constructor; [|constructor]. split; [discriminate | exact Hremaining]. }
    destruct (Js.isEmpty url); now apply (IH _ Hlt requeued eq_refl).
Qed.

Lemma scheduleIdleWork_queue (h : Host) (now : Time) (st : State) :
  idleQueue (scheduleIdleWork h now st) = idleQueue st.
Proof. now destruct (scheduleIdleWork_keeps h now st) as (-> & _). Qed.

Lemma idleCallback_keeps_ready (h : Host) (now : Time) (deadline : IdleDeadline)
    (st : State) :
  Forall groupReady (idleQueue st) ->
  Forall groupReady (idleQueue (idleCallback h now deadline st)).
Proof.
  intros Hready. unfold idleCallback, processIdleQueue.
  destruct (shouldPauseIdleLoading h now); [exact Hready|].
  destruct (timeRemaining deadline) as [tr|error]; [|exact Hready].
  destruct ((calculateOptimalBatchSize tr =? 0)
            || (List.length (idleQueue st) =? 0)%nat).
  - destruct (0 <? _)%nat; [rewrite scheduleIdleWork_queue|]; exact Hready.
  - destruct (0 <? _)%nat; [rewrite scheduleIdleWork_queue|];
      cbn [idleQueue setProcessing withQueue]; now apply idleLoop_keeps_ready.
Qed.

(** In every reachable state each queued group has a first url to launch:
    the premise of the round-robin statement holds for any part of the
    queue. *)
Lemma reachable_queue_ready (h : Host) (t : Time) (st : State) :
  reachable h t st ->
  Forall groupReady (idleQueue st)
  /\ Forall (fun task => headReady task = true) (idleQueue st).
Proof.
  intros Hreach.
  assert (Hready : Forall groupReady (idleQueue st)).
  { induction Hreach as [t|t t' resources options st _ IH _|t t' ev st st' _ IH _ Hfire].
    - constructor.
    - unfold Index.loadResources.
      destruct (List.length (Index.prepareResourcesForLoading resources) =? 0)%nat
        eqn:Hlen; [exact IH|].
      destruct (match Index.strategy options with
                | Some s => s
                | None => Index.immediate
                end); cbn [snd].
      + unfold Index.catchImmediate. destruct (finished _) as [? [[]|?]|]; exact IH.
      + rewrite scheduleIdleWork_queue. cbn [idleQueue addIdleTask withQueue].
        apply Forall_app. split; [exact IH|]. constructor; [|constructor].
        split; cbn [urls].
        * intros Hnil. rewrite Hnil in Hlen. discriminate.
        * apply prepared_urls_not_empty.
    - destruct ev as [deadline|due|due]; simpl in Hfire.
      + destruct (takeJob IdleCallbackJob (hostJobs st)); [|discriminate].
        inversion Hfire; subst. now apply idleCallback_keeps_ready.
      + destruct (takeJob (FallbackTimerJob due) (hostJobs st)); [|discriminate].
        destruct (due <=? t'); [|discriminate].
        inversion Hfire; subst. now apply idleCallback_keeps_ready.
      + destruct (takeJob (RescheduleTimerJob due) (hostJobs st)); [|discriminate].
        destruct (due <=? t'); [|discriminate].
        inversion Hfire; subst. now rewrite scheduleIdleWork_queue. }
  split; [exact Hready|].
  eapply Forall_impl; [|exact Hready]. apply groupReady_headReady.
Qed.

(** ** The fallback slot

    Without [requestIdleCallback] the slot is a timer of 50 ms whose deadline
    reports 5 ms, less than the 12 ms kept in reserve: the candidate count is
    0, so such a cycle starts no load and leaves the queue as it is. *)
Remark fallback_cycle_starts_nothing (h : Host) (now : Time) (st : State) :
  calculateOptimalBatchSize 5 = 0
  /\ started (idleCallback h now fallbackDeadline st) = started st
  /\ idleQueue (idleCallback h now fallbackDeadline st) = idleQueue st.
Proof.
  split; [reflexivity|].
  unfold idleCallback, processIdleQueue, fallbackDeadline. cbn [timeRemaining].
  destruct (shouldPauseIdleLoading h now); [now split|].
  change (calculateOptimalBatchSize 5 =? 0) with true. cbn [orb].
  destruct (0 <? _)%nat; [|now split].
  destruct (scheduleIdleWork_keeps h now (setProcessing now false st))
    as (-> & -> & _).
  now split.
Qed.

(** * Further properties of the core *)

(** ** Time slices *)

Lemma calculateOptimalBatchSize_range (timeRemaining : Z) :
  0 <= calculateOptimalBatchSize timeRemaining <= MAX_BATCH_SIZE.
Proof.
  unfold calculateOptimalBatchSize, MIN_TIME_REMAINING, ESTIMATED_PROCESS_TIME,
    MAX_BATCH_SIZE.
  destruct (timeRemaining - 12 <=? 0) eqn:E;
    [apply Z.leb_le in E; lia | apply Z.leb_gt in E].
  pose proof (Z.div_mod (timeRemaining - 12) 3 ltac:(lia)) as Hdiv.
  pose proof (Z.mod_pos_bound (timeRemaining - 12) 3 ltac:(lia)) as Hmod.
  lia.
Qed.

(** X1: the candidate count of an idle window is 0 below 15 ms, 1 from 15 to
    17 ms and 2 from 18 ms on; it is never negative and never more than
    [MAX_BATCH_SIZE]. *)
Theorem calculateOptimalBatchSize_thresholds (timeRemaining : Z) :
  (calculateOptimalBatchSize timeRemaining = 0 <-> timeRemaining < 15)
  /\ (calculateOptimalBatchSize timeRemaining = 1 <-> 15 <= timeRemaining < 18)
  /\ (calculateOptimalBatchSize timeRemaining = 2 <-> 18 <= timeRemaining)
  /\ 0 <= calculateOptimalBatchSize timeRemaining <= MAX_BATCH_SIZE.
Proof.
  unfold calculateOptimalBatchSize, MIN_TIME_REMAINING, ESTIMATED_PROCESS_TIME,
    MAX_BATCH_SIZE.
  destruct (timeRemaining - 12 <=? 0) eqn:E;
    [apply Z.leb_le in E | apply Z.leb_gt in E].
  - repeat split; intros; lia.
  - pose proof (Z.div_mod (timeRemaining - 12) 3 ltac:(lia)) as Hdiv.
    pose proof (Z.mod_pos_bound (timeRemaining - 12) 3 ltac:(lia)) as Hmod.
    repeat split; intros; lia.
Qed.

(** ** Guarded loads *)

(** The log lines about a failed load, and the calls of [onError], each as
    the pair of its arguments. *)
Definition failureLogs (evs : list (Time * Event)) : list (string * Error) :=
  flat_map (fun te => match snd te with
                      | WarnLoadFailed url error => [(url, error)]
                      | _ => []
                      end) evs.

Definition callbackArgs (evs : list (Time * Event)) : list (string * Error) :=
  flat_map (fun te => match snd te with
                      | CallOnError url error => [(url, error)]
                      | _ => []
                      end) evs.

(** What a load owes its caller: nothing when its promise is fulfilled or
    pending, the pair of the url and the error when it is rejected. *)
Definition rejection (url : string) (a : Async) : list (string * Error) :=
  match promise a with
  | Settles _ (inr error) => [(url, error)]
  | _ => []
  end.

Lemma handleError_logs (t : Time) (error : Error) (url : string)
    (userCallback : option Callback) :
  failureLogs (map (pair t) (fst (handleError error url userCallback))) = [(url, error)]
  /\ callbackArgs (map (pair t) (fst (handleError error url userCallback))) =
     match userCallback with Some _ => [(url, error)] | None => [] end.
Proof.
  rewrite handleError_events.
  destruct userCallback as [cb|]; [destruct (cb url error)|]; split; reflexivity.
Qed.

(** A guarded load settles within its timeout, and it reports exactly what it
    rejects with: one log line, and one call of [onError] when there is a
    callback, both with its url and the error of the rejection; nothing when
    it succeeds. *)
Lemma loadSingleAsset_accounts (h : Host) (url : string) (timeout : Z)
    (options : LoadOptions) (now : Time) :
  let a := loadSingleAsset h url timeout options now in
  (exists t r, promise a = Settles t r /\ now <= t <= now + timerDelay timeout)
  /\ failureLogs (events a) = rejection url a
  /\ callbackArgs (events a) =
     match onError options with Some _ => rejection url a | None => [] end.
Proof.
  cbv zeta. rewrite loadSingleAsset_unfold. unfold startingWith, rejection.
  cbn [promise events].
  assert (Hd : 0 <= timerDelay timeout) by (unfold timerDelay; lia).
  assert (Hfail : forall t error,
            now <= t <= now + timerDelay timeout ->
            let a := settle t (reportAndRethrow error url options) in
            (exists t' r, promise a = Settles t' r
                          /\ now <= t' <= now + timerDelay timeout)
            /\ failureLogs ((now, CallLoadByType url) :: events a) =
               match promise a with Settles _ (inr e) => [(url, e)] | _ => [] end
            /\ callbackArgs ((now, CallLoadByType url) :: events a) =
               match onError options with
               | Some _ => match promise a with
                           | Settles _ (inr e) => [(url, e)] | _ => [] end
               | None => []
               end).
  { intros t error Ht. cbv zeta. unfold settle. cbn [promise events].
    rewrite reportAndRethrow_events, reportAndRethrow_throws.
    destruct (handleError_logs t error url (onError options)) as (Hlogs & Hcalls).
    split; [eauto|]. split.
    - exact Hlogs.
    - change (callbackArgs (?x :: ?l)) with (callbackArgs l). rewrite Hcalls.
      now destruct (onError options). }
  destruct (callLoadByType h url now) as [p|e] eqn:Hcall; [|apply Hfail; lia].
  destruct (guardRace_settles h url timeout now p
              (callLoadByType_later h url now p Hcall)) as (t & r & -> & Ht).
  destruct r as [[]|error]; [|now apply Hfail].
  cbn [settle promise events ret fst snd map].
  split; [eauto|]. split; [reflexivity|]. now destruct (onError options).
Qed.

Lemma failureLogs_app (l1 l2 : list (Time * Event)) :
  failureLogs (l1 ++ l2) = failureLogs l1 ++ failureLogs l2.
Proof. apply flat_map_app. Qed.

Lemma callbackArgs_app (l1 l2 : list (Time * Event)) :
  callbackArgs (l1 ++ l2) = callbackArgs l1 ++ callbackArgs l2.
Proof. apply flat_map_app. Qed.

(** The rejections of a run, grouped chunk by chunk and load by load. *)
Definition rejections (run : BatchRun) : list (string * Error) :=
  flat_map (fun c =>
              flat_map (fun ua => rejection (fst ua) (snd ua))
                       (combine (batch c) (promises c)))
           (chunks run).

Lemma batch_accounts (h : Host) (timeout : Z) (options : LoadOptions) (now : Time)
    (b : list string) :
  let loads := map (fun url => loadSingleAsset h url timeout options now) b in
  failureLogs (flat_map events loads) =
    flat_map (fun ua => rejection (fst ua) (snd ua)) (combine b loads)
  /\ callbackArgs (flat_map events loads) =
     match onError options with
     | Some _ => flat_map (fun ua => rejection (fst ua) (snd ua)) (combine b loads)
     | None => []
     end.
Proof.
  cbv zeta. induction b as [|url b (IHlogs & IHcalls)].
  - split; [reflexivity | now destruct (onError options)].
  - cbn [map flat_map combine fst snd].
    destruct (loadSingleAsset_accounts h url timeout options now) as (_ & Hlogs & Hcalls).
    rewrite failureLogs_app, callbackArgs_app, Hlogs, Hcalls, IHlogs, IHcalls.
    split; [reflexivity | now destruct (onError options)].
Qed.

Lemma run_accounts (h : Host) (urls : list string) (options : LoadOptions)
    (now : Time) :
  let run := loadAssetsBatch h urls options now in
  failureLogs (eventsOf run) = rejections run
  /\ callbackArgs (eventsOf run) =
     match onError options with Some _ => rejections run | None => [] end.
Proof.
  cbv zeta. destruct (chunks_shape_of_run h urls options now) as (Hshape & _).
  unfold eventsOf, rejections.
  induction Hshape as [|c cs Hc _ (IHlogs & IHcalls)].
  - split; [reflexivity | now destruct (onError options)].
  - cbn [flat_map]. rewrite failureLogs_app, callbackArgs_app, IHlogs, IHcalls, Hc.
    destruct (batch_accounts h
                (match timeout options with Some t => t | None => 15000 end)
                options (startedAt c) (batch c)) as (-> & ->).
    split; [reflexivity | now destruct (onError options)].
Qed.

(** A report is made at the instant at which the load is rejected, and it is
    about that load. *)
Lemma loadSingleAsset_reports_at (h : Host) (url : string) (timeout : Z)
    (options : LoadOptions) (now : Time) (t : Time) (ev : Event) :
  In (t, ev) (events (loadSingleAsset h url timeout options now)) ->
  match ev with
  | CallLoadByType u => u = url /\ t = now
  | WarnLoadFailed u e | CallOnError u e =>
      u = url /\ promise (loadSingleAsset h url timeout options now) = Settles t (inr e)
  | WarnCallback _ =>
      exists e, promise (loadSingleAsset h url timeout options now) = Settles t (inr e)
  end.
Proof.
  rewrite loadSingleAsset_unfold. unfold startingWith. cbn [events promise].
  assert (Hfail : forall t' error,
            In (t, ev) (events (settle t' (reportAndRethrow error url options))) ->
            match ev with
            | CallLoadByType u => u = url /\ t = now
            | WarnLoadFailed u e | CallOnError u e =>
                u = url
                /\ promise (settle t' (reportAndRethrow error url options)) =
                   Settles t (inr e)
            | WarnCallback _ =>
                exists e,
                  promise (settle t' (reportAndRethrow error url options)) =
                  Settles t (inr e)
            end).
  { intros t' error. unfold settle. cbn [events promise].
    rewrite reportAndRethrow_events, reportAndRethrow_throws, handleError_events.
    intros Hin. apply in_map_iff in Hin as (ev' & Heq & Hin). inversion Heq; subst.
    destruct (onError options) as [cb|]; [destruct (cb url error)|];
      cbn [In app] in Hin;
      repeat (destruct Hin as [<-|Hin]; [now eauto|]); contradiction. }
  intros [Heq|Hin]; [inversion Heq; subst; now split|].
  destruct (callLoadByType h url now) as [p|e]; [|now apply (Hfail now e)].
  destruct (guardRace h url timeout now p) as [t' [[]|e]|];
    [contradiction | now apply (Hfail t' e) | contradiction].
Qed.

(** X2: the immediate strategy reports each failed load once and no other.
    The log lines of a run are, up to their order, the rejections of its
    loads, each with the url and the error the load was rejected with; with a
    callback the calls of [onError] are the same; a load that succeeds leaves
    no report.  Each report is made at the instant at which its load is
    rejected: within a chunk the reports come as the loads fail, which need
    not be the order in which they were launched. *)
Theorem batch_reports_each_failure_once
    (h : Host) (urls : list string) (options : LoadOptions) (now : Time) :
  let run := loadAssetsBatch h urls options now in
  Permutation (failureLogs (eventsOf run)) (rejections run)
  /\ Permutation (callbackArgs (eventsOf run))
       match onError options with Some _ => rejections run | None => [] end
  /\ (forall t url error,
        In (t, WarnLoadFailed url error) (eventsOf run)
        \/ In (t, CallOnError url error) (eventsOf run) ->
        exists c a,
          In c (chunks run) /\ In (url, a) (combine (batch c) (promises c))
          /\ promise a = Settles t (inr error)).
Proof.
  cbv zeta. destruct (run_accounts h urls options now) as (Hlogs & Hcalls).
  split; [now rewrite Hlogs|]. split; [now rewrite Hcalls|].
  intros t url error Hin.
  assert (Hev : exists ev, In (t, ev) (eventsOf (loadAssetsBatch h urls options now))
                           /\ (ev = WarnLoadFailed url error
                               \/ ev = CallOnError url error))
    by (destruct Hin; eauto).
  clear Hin. destruct Hev as (ev & Hin & Hev).
  destruct (chunks_shape_of_run h urls options now) as (Hshape & _).
  unfold eventsOf in Hin. apply in_flat_map in Hin as (c & Hc & Hin).
  rewrite Forall_forall in Hshape. pose proof (Hshape c Hc) as Hload.
  unfold launchedTogether in Hload.
  apply in_flat_map in Hin as (a & Ha & Hin).
  rewrite Hload in Ha. apply in_map_iff in Ha as (u & <- & Hu).
  apply loadSingleAsset_reports_at in Hin.
  assert (Hfrom : url = u
                  /\ promise (loadSingleAsset h u
                                (match timeout options with Some t => t | None => 15000 end)
                                options (startedAt c)) = Settles t (inr error))
    by (destruct Hev as [-> | ->]; exact Hin).
  destruct Hfrom as (<- & Hpromise).
  exists c, (loadSingleAsset h url
               (match timeout options with Some t => t | None => 15000 end)
               options (startedAt c)).
  split; [exact Hc|]. split; [|exact Hpromise].
  rewrite Hload. clear - Hu. induction (batch c) as [|u b IH]; [contradiction|].
  cbn [map combine]. destruct Hu as [-> | Hu]; [now left | right; now apply IH].
Qed.

Lemma allSettled_within (now bound : Time) (ps : list Promise) (t : Time)
    (r : unit + Error) :
  now <= bound ->
  (forall p, In p ps -> exists t' r', p = Settles t' r' /\ t' <= bound) ->
  allSettled now ps = Settles t r -> t <= bound.
Proof.
  intros Hnow. revert t r. induction ps as [|p ps IH]; simpl; intros t r Hall H.
  - inversion H; subst. exact Hnow.
  - destruct (Hall p (or_introl eq_refl)) as (tp & rp & -> & Hp).
    destruct (allSettled now ps) as [t' r'|]; [|discriminate].
    inversion H; subst.
    specialize (IH t' r' (fun q Hq => Hall q (or_intror Hq)) eq_refl). lia.
Qed.

Lemma batchLoop_duration (h : Host) (urls : list string) (timeout : Z)
    (options : LoadOptions) (n : Z) (running : 0 < n) (i : nat) (now : Time) :
  exists t,
    finished (batchLoop h urls timeout options n running i now) = Settles t (inl tt)
    /\ now <= t <=
       now + Z.of_nat (chunkCount (List.length urls - i) (Z.to_nat n))
             * timerDelay timeout.
Proof.
  revert i now.
  apply (batchLoop_ind h urls timeout options n running
           (fun i now run =>
              exists t,
                finished run = Settles t (inl tt)
                /\ now <= t <=
                   now + Z.of_nat (chunkCount (List.length urls - i) (Z.to_nat n))
                         * timerDelay timeout)).
  - intros i now Hge. exists now. split; [reflexivity|].
    assert (0 <= timerDelay timeout) by (unfold timerDelay; lia). nia.
  - intros i now t rest Hlt b ps Hall _ (t' & Hfin & Ht').
    cbn [finished]. exists t'. split; [exact Hfin|].
    destruct (allSettled_inv _ _ _ _ Hall) as (_ & Hnow & _).
    assert (Hbound : t <= now + timerDelay timeout).
    { apply (allSettled_within now _ (map promise ps) t (inl tt));
        [unfold timerDelay; lia | | exact Hall].
      intros p Hp. apply in_map_iff in Hp as (a & <- & Ha).
      apply in_map_iff in Ha as (url & <- & _).
      destruct (loadSingleAsset_accounts h url timeout options now)
        as ((t1 & r1 & H1 & Hle) & _).
      exists t1, r1. split; [exact H1 | lia]. }
    rewrite (chunkCount_step (List.length urls - i) (Z.to_nat n)) by lia.
    replace (List.length urls - (i + Z.to_nat n))%nat
      with (List.length urls - i - Z.to_nat n)%nat in Ht' by lia.
    rewrite Nat2Z.inj_succ. nia.
Qed.

(** X3: a batch is over in time: the promise of [loadAssetsBatch] is
    fulfilled no later than one timeout per chunk after the call, that is
    [ceil(urls.length / n)] timeouts for concurrency [n], however the loads
    behave. *)
Theorem batch_finishes_within_timeouts
    (h : Host) (urls : list string) (options : LoadOptions) (now : Time) :
  let timeout := match timeout options with Some t => t | None => 15000 end in
  let n := getOptimalBatchSize
             (match batchSize options with Some b => b | None => 1 end) in
  exists t,
    finished (loadAssetsBatch h urls options now) = Settles t (inl tt)
    /\ now <= t <=
       now + Z.of_nat (chunkCount (List.length urls) (Z.to_nat n))
             * timerDelay timeout.
Proof.
  cbv zeta. unfold loadAssetsBatch.
  destruct (batchLoop_duration h urls
              (match timeout options with Some t => t | None => 15000 end)
              options _
              (getOptimalBatchSize_pos
                 (match batchSize options with Some b => b | None => 1 end))
              0 now) as (t & Hfin & Ht).
  rewrite Nat.sub_0_r in Ht. eauto.
Qed.

(** A load that resolves before the timer of the guard is due is fulfilled;
    so is one that resolves at the very instant the timer is due when there
    is no [AbortController]: the timer was then set after the call. *)
Lemma loadSingleAsset_in_time (h : Host) (url : string) (timeout : Z)
    (options : LoadOptions) (now : Time) (d : Z) :
  loadByType h url now = Resolves d ->
  timerDelay d < timerDelay timeout
  \/ (timerDelay d = timerDelay timeout /\ hasAbortController h = false) ->
  loadSingleAsset h url timeout options now =
  {| events := [(now, CallLoadByType url)];
     promise := Settles (now + timerDelay d) (inl tt) |}.
Proof.
  intros Hload Hd. rewrite loadSingleAsset_unfold.
  unfold callLoadByType, guardRace, createTimeoutController, race.
  rewrite Hload.
  destruct (hasAbortController h); cbn [abortsAt].
  - destruct Hd as [Hd | (_ & Hc)]; [|discriminate].
    replace (now + timerDelay timeout <=? now + timerDelay d) with false
      by (symmetry; apply Z.leb_gt; lia).
    reflexivity.
  - replace (now + timerDelay d <=? now + timerDelay timeout) with true
      by (symmetry; apply Z.leb_le; lia).
    reflexivity.
Qed.

(** With an [AbortController] the timer of the guard was set before the
    call: a load that resolves at the instant the timer is due has lost. *)
Lemma loadSingleAsset_tie (h : Host) (url : string) (timeout : Z)
    (options : LoadOptions) (now : Time) (d : Z) :
  loadByType h url now = Resolves d ->
  timerDelay d = timerDelay timeout -> hasAbortController h = true ->
  loadSingleAsset h url timeout options now =
  {| events :=
       (now, CallLoadByType url) ::
       map (pair (now + timerDelay timeout))
           (fst (handleError (TimeoutError url) url (onError options)));
     promise := Settles (now + timerDelay timeout) (inr (TimeoutError url)) |}.
Proof.
  intros Hload Hd Hc. rewrite loadSingleAsset_unfold.
  unfold callLoadByType, guardRace, createTimeoutController, race.
  rewrite Hload, Hc. cbn [abortsAt].
  replace (now + timerDelay timeout <=? now + timerDelay d) with true
    by (symmetry; apply Z.leb_le; lia).
  unfold startingWith, settle. cbn [events promise].
  now rewrite reportAndRethrow_events, reportAndRethrow_throws.
Qed.

(** The launch of [processIdleQueue] around a load that times out. *)
Lemma dispatch_timed_out (h : Host) (url : string) (options : LoadOptions)
    (now : Time) :
  loadSingleAsset h url (timeoutOrDefault options) options now =
  {| events :=
       (now, CallLoadByType url) ::
       map (pair (now + timerDelay (timeoutOrDefault options)))
           (fst (handleError (TimeoutError url) url (onError options)));
     promise :=
       Settles (now + timerDelay (timeoutOrDefault options)) (inr (TimeoutError url)) |} ->
  promise (dispatch h url options now) =
    Settles (now + timerDelay (timeoutOrDefault options)) (inl tt)
  /\ failureLogs (events (dispatch h url options now)) =
     [(url, TimeoutError url); (url, TimeoutError url)].
Proof.
  intros Hinner. unfold dispatch, catchWith. rewrite Hinner. cbn [promise events].
  rewrite handleError_returns. split; [reflexivity|].
  rewrite failureLogs_app.
  change (failureLogs (?x :: ?l)) with (failureLogs l).
  destruct (handleError_logs (now + timerDelay (timeoutOrDefault options))
              (TimeoutError url) url (onError options)) as (Hlogs & _).
  rewrite Hlogs. exact (f_equal (fun l => l ++ [(url, TimeoutError url)]) Hlogs).
Qed.

(** X4: [timeout: 0] does not mean the same under the two strategies.
    [loadAssetsBatch] takes the 0 as it is, so a load that needs any time at
    all is rejected with a timeout at the instant it is launched.
    [processIdleQueue] reads [options.timeout || 15000], so the same load,
    launched from the idle queue, succeeds without a report when it needs
    less than 15000 ms, and is reported as timed out, twice, when it needs
    more.  At 15000 ms exactly the two timers are due together: with an
    [AbortController] the timer of the guard was set first and the load is
    timed out, without one the load succeeds. *)
Theorem zero_timeout_differs
    (h : Host) (urls : list string) (options : LoadOptions) (now : Time)
    (url : string) (d : Z) :
  timeout options = Some 0 ->
  0 < d ->
  (forall t, loadByType h url t = Resolves d) ->
  (forall c, In c (chunks (loadAssetsBatch h urls options now)) ->
     In url (batch c) ->
     exists a, In a (promises c)
               /\ promise a = Settles (startedAt c) (inr (TimeoutError url)))
  /\ (forall t,
        let a := dispatch h url options t in
        if (d <? 15000) || ((d =? 15000) && negb (hasAbortController h))
        then promise a = Settles (t + d) (inl tt) /\ failureLogs (events a) = []
        else promise a = Settles (t + 15000) (inl tt)
             /\ failureLogs (events a) =
                [(url, TimeoutError url); (url, TimeoutError url)]).
Proof.
  intros Hzero Hd Hload. split.
  - intros c Hc Hurl.
    destruct (chunks_shape_of_run h urls options now) as (Hshape & _).
    rewrite Forall_forall in Hshape. specialize (Hshape c Hc).
    rewrite Hzero in Hshape.
    exists (loadSingleAsset h url 0 options (startedAt c)). split.
    + rewrite Hshape. apply in_map_iff. eauto.
    + rewrite loadSingleAsset_timeout.
      * cbn [promise]. f_equal. unfold timerDelay. lia.
      * unfold staysPending. rewrite Hload. apply Z.ltb_lt. unfold timerDelay. lia.
  - intros t. cbv zeta.
    assert (Hdefault : timeoutOrDefault options = 15000)
      by (unfold timeoutOrDefault; now rewrite Hzero).
    assert (Hin_time :
              timerDelay d < timerDelay 15000
              \/ (timerDelay d = timerDelay 15000 /\ hasAbortController h = false) ->
              promise (dispatch h url options t) = Settles (t + d) (inl tt)
              /\ failureLogs (events (dispatch h url options t)) = []).
    { intros Hcase. unfold dispatch, catchWith. rewrite Hdefault.
      rewrite (loadSingleAsset_in_time h url 15000 options t d (Hload t) Hcase).
      cbn [promise events]. split; [|reflexivity].
      f_equal. unfold timerDelay. lia. }
    assert (Htimed_out :
              loadSingleAsset h url (timeoutOrDefault options) options t =
              {| events :=
                   (t, CallLoadByType url) ::
                   map (pair (t + timerDelay (timeoutOrDefault options)))
                       (fst (handleError (TimeoutError url) url (onError options)));
                 promise :=
                   Settles (t + timerDelay (timeoutOrDefault options))
                           (inr (TimeoutError url)) |} ->
              promise (dispatch h url options t) = Settles (t + 15000) (inl tt)
              /\ failureLogs (events (dispatch h url options t)) =
                 [(url, TimeoutError url); (url, TimeoutError url)]).
    { intros Hinner. destruct (dispatch_timed_out h url options t Hinner) as (-> & ->).
      rewrite Hdefault. split; reflexivity. }
    destruct (Z.ltb_spec d 15000) as [Hlt|Hge]; cbn [orb].
    { apply Hin_time. left. unfold timerDelay. lia. }
    destruct (Z.eqb_spec d 15000) as [Heq|Hne]; cbn [andb].
    + destruct (hasAbortController h) eqn:Hc; cbn [negb].
      * apply Htimed_out. rewrite Hdefault.
        apply (loadSingleAsset_tie h url 15000 options t d (Hload t));
          [now subst d | exact Hc].
      * apply Hin_time. right. now subst d.
    + apply Htimed_out. apply loadSingleAsset_timeout.
      unfold staysPending. rewrite Hload, Hdefault. apply Z.ltb_lt.
      unfold timerDelay. lia.
Qed.

(** On [quietHost] every load needs 10 ms. *)
Lemma zero_timeout_differs_witness :
  let options := {| batchSize := Some 1; timeout := Some 0; onError := None |} in
  map promise
      (flat_map promises (chunks (loadAssetsBatch quietHost ["a.jpg"%string] options 0)))
  = [Settles 0 (inr (TimeoutError "a.jpg"))]
  /\ promise (dispatch quietHost "a.jpg" options 0) = Settles 10 (inl tt)
  /\ failureLogs (events (dispatch quietHost "a.jpg" options 0)) = [].
Proof.
  cbv zeta.
  destruct (zero_timeout_differs quietHost ["a.jpg"%string]
              {| batchSize := Some 1; timeout := Some 0; onError := None |}
              0 "a.jpg" 10 eq_refl ltac:(lia) (fun _ => eq_refl)) as (_ & Hidle).
  split; [reflexivity | exact (Hidle 0)].
Defined.

(** The boundary: a load of exactly 15000 ms, launched from the idle queue
    with [timeout: 0] on a host with an [AbortController], is timed out. *)
Example zero_timeout_boundary :
  let slowHost :=
    {| loadByType := fun _ _ => Resolves 15000; hasAbortController := true;
       hasRequestIdleCallback := true; documentHidden := fun _ => Some false |} in
  let options := {| batchSize := Some 1; timeout := Some 0; onError := None |} in
  promise (loadSingleAsset slowHost "a.jpg" 15000 options 0)
  = Settles 15000 (inr (TimeoutError "a.jpg"))
  /\ failureLogs (events (dispatch slowHost "a.jpg" options 0))
     = [("a.jpg"%string, TimeoutError "a.jpg"); ("a.jpg"%string, TimeoutError "a.jpg")].
Proof. split; reflexivity. Qed.

(** ** Idle queue *)

(** The urls waiting in the queue, group after group, and the urls of the
    loads started from it. *)
Definition queuedUrls (queue : list IdleTask) : list string :=
  List.concat (map urls queue).

Definition launchedUrls (loads : list (string * Async)) : list string :=
  map fst loads.

Lemma queuedUrls_app (q1 q2 : list IdleTask) :
  queuedUrls (q1 ++ q2) = queuedUrls q1 ++ queuedUrls q2.
Proof. unfold queuedUrls. now rewrite map_app, concat_app. Qed.

(** On a queue of groups with urls to launch, the loop moves urls from the
    queue to the launched loads, losing and repeating none, and it stops only
    when the budget is used up or the queue is empty. *)
Lemma idleLoop_moves (h : Host) (now : Time) (c : Z) (queue : list IdleTask) :
  forall (n : Z) (loads : list (string * Async)),
    Forall groupReady queue ->
    let r := idleLoop h now c n queue loads in
    Permutation (queuedUrls queue ++ launchedUrls loads)
                (queuedUrls (fst r) ++ launchedUrls (snd r))
    /\ Z.of_nat (List.length (snd r)) =
       Z.of_nat (List.length loads)
       + Z.min (Z.max 0 (c - n)) (Z.of_nat (List.length (queuedUrls queue))).
Proof.
  remember (queueWeight queue) as w eqn:Hw. revert queue Hw.
  induction w as [w IH] using lt_wf_ind. intros queue Hw n loads Hready.
  cbv zeta. rewrite idleLoop_unfold. destruct (n <? c) eqn:Hn.
  2:{ apply Z.ltb_ge in Hn. cbn [fst snd]. split; [reflexivity | lia]. }
  apply Z.ltb_lt in Hn.
  destruct queue as [|[[|url remaining] o] rest].
  - cbn [fst snd]. split; [reflexivity | simpl; lia].
  - inversion Hready as [|? ? (Hsome & _) _]; subst. now elim Hsome.
  - cbv zeta. inversion Hready as [|? ? (_ & Hurls) Hrest]; subst.
    cbn [urls] in Hurls. inversion Hurls as [|? ? Hurl Hremaining]; subst.
    rewrite Hurl.
    set (requeued := if (0 <? List.length remaining)%nat
                     then rest ++ [mkIdleTask remaining o] else rest).
    assert (Hlt : (queueWeight requeued
                   < queueWeight (mkIdleTask (url :: remaining) o :: rest))%nat).
    { subst requeued. destruct remaining; cbn [List.length Nat.ltb Nat.leb];
        rewrite ?queueWeight_app; unfold queueWeight, list_sum; cbn; lia. }
    assert (Hrequeued : Forall groupReady requeued).
    { subst requeued. destruct remaining as [|url' remaining'];
        cbn [List.length Nat.ltb Nat.leb]; [exact Hrest|].
      apply Forall_app. split; [exact Hrest|].
      constructor; [|constructor]. split; [discriminate | exact Hremaining]. }
    assert (Hurls' : queuedUrls requeued = queuedUrls rest ++ remaining).
    { subst requeued. destruct remaining as [|url' remaining'];
        cbn [List.length Nat.ltb Nat.leb].
      - now rewrite app_nil_r.
      - rewrite queuedUrls_app. unfold queuedUrls at 2. cbn [map List.concat urls].
        now rewrite app_nil_r. }
    destruct (IH _ Hlt requeued eq_refl (n + 1)
                (loads ++ [(url, dispatch h url o now)]) Hrequeued)
      as (Hperm & Hcount).
    split.
    + etransitivity; [|exact Hperm]. rewrite Hurls'.
      unfold queuedUrls at 1, launchedUrls. cbn [map List.concat urls].
      fold (queuedUrls rest). rewrite map_app. cbn [map fst].
      rewrite <- !app_assoc. cbn [app].
      transitivity (url :: queuedUrls rest ++ remaining ++ map fst loads).
      * apply perm_skip. rewrite !app_assoc.
        apply Permutation_app_tail, Permutation_app_comm.
      * replace (queuedUrls rest ++ remaining ++ map fst loads ++ [url])
          with ((queuedUrls rest ++ remaining ++ map fst loads) ++ [url])
          by (now rewrite <- !app_assoc).
        apply Permutation_cons_append.
    + rewrite Hcount, length_app, Hurls', length_app. cbn [List.length].
      unfold queuedUrls at 2. cbn [map List.concat urls].
      fold (queuedUrls rest). rewrite length_app. cbn [List.length]. lia.
Qed.

(** X5: a processing cycle neither loses nor repeats a url: on a queue whose
    groups have urls to launch (as every reachable queue has), the urls
    waiting and the urls launched after the cycle are, together, those of
    before, whichever path the cycle takes. *)
Theorem idle_cycle_conserves_urls
    (h : Host) (now : Time) (deadline : IdleDeadline) (st : State) :
  Forall groupReady (idleQueue st) ->
  let st' := idleCallback h now deadline st in
  Permutation (queuedUrls (idleQueue st) ++ launchedUrls (started st))
              (queuedUrls (idleQueue st') ++ launchedUrls (started st')).
Proof.
  intros Hready. cbv zeta. unfold idleCallback, processIdleQueue.
  destruct (shouldPauseIdleLoading h now); [reflexivity|].
  destruct (timeRemaining deadline) as [tr|error]; [|reflexivity].
  assert (Hend : forall s,
            idleQueue (if (0 <? List.length (idleQueue (setProcessing now false s)))%nat
                       then scheduleIdleWork h now (setProcessing now false s)
                       else setProcessing now false s) = idleQueue s
            /\ started (if (0 <? List.length (idleQueue (setProcessing now false s)))%nat
                        then scheduleIdleWork h now (setProcessing now false s)
                        else setProcessing now false s) = started s).
  { intros s. destruct (0 <? _)%nat; [|now split].
    destruct (scheduleIdleWork_keeps h now (setProcessing now false s))
      as (-> & -> & _). now split. }
  destruct ((calculateOptimalBatchSize tr =? 0)
            || (List.length (idleQueue st) =? 0)%nat).
  - destruct (Hend st) as (-> & ->). reflexivity.
  - destruct (Hend (withQueue
                      (fst (idleLoop h now (calculateOptimalBatchSize tr) 0
                                     (idleQueue st) (started st)))
                      (snd (idleLoop h now (calculateOptimalBatchSize tr) 0
                                     (idleQueue st) (started st))) st))
      as (-> & ->).
    cbn [idleQueue started withQueue].
    apply (idleLoop_moves h now _ (idleQueue st) 0 (started st) Hready).
Qed.

(** [twoGroups] and a window of 50 ms: "a.jpg" and "c.jpg" are launched,
    "b.jpg" waits. *)
Lemma idle_cycle_conserves_urls_witness :
  let st' := idleCallback quietHost 5 {| timeRemaining := inl 50 |} twoGroups in
  Permutation ["a.jpg"; "b.jpg"; "c.jpg"]%string
              (queuedUrls (idleQueue st') ++ launchedUrls (started st')).
Proof.
  cbv zeta.
  apply (idle_cycle_conserves_urls quietHost 5 {| timeRemaining := inl 50 |} twoGroups).
  repeat constructor; discriminate.
Defined.

(** X6: on a visible page, a cycle whose window gives [c] candidates
    launches exactly [min(c, number of urls waiting)] loads: it never stops
    short of its budget while urls are waiting. *)
Theorem idle_cycle_uses_its_budget
    (h : Host) (now : Time) (deadline : IdleDeadline) (tr : Z) (st : State) :
  shouldPauseIdleLoading h now = false ->
  timeRemaining deadline = inl tr ->
  Forall groupReady (idleQueue st) ->
  let st' := idleCallback h now deadline st in
  Z.of_nat (List.length (started st')) =
  Z.of_nat (List.length (started st))
  + Z.min (calculateOptimalBatchSize tr)
          (Z.of_nat (List.length (queuedUrls (idleQueue st)))).
Proof.
  intros Hvisible Hdeadline Hready. cbv zeta.
  unfold idleCallback, processIdleQueue. rewrite Hvisible, Hdeadline.
  destruct (calculateOptimalBatchSize_range tr) as (Hc & _).
  assert (Hend : forall s,
            started (if (0 <? List.length (idleQueue (setProcessing now false s)))%nat
                     then scheduleIdleWork h now (setProcessing now false s)
                     else setProcessing now false s) = started s).
  { intros s. destruct (0 <? _)%nat; [|reflexivity].
    now destruct (scheduleIdleWork_keeps h now (setProcessing now false s))
      as (_ & -> & _). }
  destruct (calculateOptimalBatchSize tr =? 0) eqn:Hzero; cbn [orb].
  - apply Z.eqb_eq in Hzero. rewrite Hend, Hzero. lia.
  - destruct (List.length (idleQueue st) =? 0)%nat eqn:Hempty.
    + rewrite Hend. apply Nat.eqb_eq in Hempty.
      destruct (idleQueue st); [|discriminate]. simpl. lia.
    + rewrite Hend. cbn [started withQueue].
      destruct (idleLoop_moves h now (calculateOptimalBatchSize tr)
                  (idleQueue st) 0 (started st) Hready) as (_ & ->).
      lia.
Qed.

Lemma idle_cycle_uses_its_budget_witness :
  let st' := idleCallback quietHost 5 {| timeRemaining := inl 16 |} twoGroups in
  calculateOptimalBatchSize 16 = 1
  /\ List.length (queuedUrls (idleQueue twoGroups)) = 3%nat
  /\ Z.of_nat (List.length (started st')) = 1.
Proof.
  cbv zeta. split; [reflexivity|]. split; [reflexivity|].
  rewrite (idle_cycle_uses_its_budget quietHost 5 {| timeRemaining := inl 16 |} 16
             twoGroups eq_refl eq_refl).
  - reflexivity.
  - repeat constructor; discriminate.
Defined.

(** X7: a load launched from the idle queue never leaves a rejected promise
    behind: whatever the fetcher and the callback do, the promise of the
    launch is fulfilled, within the timeout; and whenever the guarded load
    inside it fails, for a timeout or for any other reason, the failure is
    logged twice, and [onError] is called twice when there is a callback. *)
Theorem idle_launch_always_fulfilled
    (h : Host) (url : string) (options : LoadOptions) (now : Time) :
  let inner := loadSingleAsset h url (timeoutOrDefault options) options now in
  (exists t,
      promise (dispatch h url options now) = Settles t (inl tt)
      /\ now <= t <= now + timerDelay (timeoutOrDefault options))
  /\ failureLogs (events (dispatch h url options now)) =
     rejection url inner ++ rejection url inner
  /\ callbackArgs (events (dispatch h url options now)) =
     match onError options with
     | Some _ => rejection url inner ++ rejection url inner
     | None => []
     end.
Proof.
  cbv zeta.
  destruct (loadSingleAsset_accounts h url (timeoutOrDefault options) options now)
    as ((t & r & Hp & Ht) & Hlogs & Hcalls).
  unfold rejection in *. rewrite Hp in Hlogs, Hcalls.
  unfold dispatch, catchWith. rewrite Hp.
  destruct r as [[]|error]; cbn [promise events].
  - split; [eauto|]. rewrite Hlogs, Hcalls. split; [reflexivity|].
    now destruct (onError options).
  - rewrite handleError_returns. split; [eauto|].
    rewrite failureLogs_app, callbackArgs_app, Hlogs, Hcalls.
    destruct (handleError_logs t error url (onError options)) as (-> & ->).
    split; [reflexivity | now destruct (onError options)].
Qed.

(** ** The queue does not stall *)

Definition isBackoff (job : HostJob) : bool :=
  match job with
  | RescheduleTimerJob _ => true
  | _ => false
  end.

(** The deadline handed to the cycle answers [timeRemaining()]. *)
Definition deadlineAnswers (ev : HostEvent) : Prop :=
  match ev with
  | IdleCallbackFires deadline => exists tr, timeRemaining deadline = inl tr
  | _ => True
  end.

(** The reachable states when no deadline throws. *)
Inductive reachableCalmly (h : Host) : Time -> State -> Prop :=
| calmly_init (t : Time) : reachableCalmly h t initialState
| calmly_call (t t' : Time) (resources : Index.Resources)
    (options : Index.LoadResourcesOptions) (st : State) :
    reachableCalmly h t st -> t <= t' ->
    reachableCalmly h t' (snd (Index.loadResources h t' resources options st))
| calmly_fire (t t' : Time) (ev : HostEvent) (st st' : State) :
    reachableCalmly h t st -> t <= t' -> deadlineAnswers ev ->
    fire h t' ev st = Some st' ->
    reachableCalmly h t' st'.

(** Work is waiting only if something is set to resume it. *)
Definition resumable (st : State) : Prop :=
  idleQueue st <> [] ->
  isIdleProcessing st = true \/ existsb isBackoff (hostJobs st) = true.

Lemma scheduled_resumable (h : Host) (now : Time) (st : State) :
  (isIdleProcessing st = false -> resumable (scheduleIdleWork h now st)).
Proof.
  intros Hflag Hqueue. left.
  destruct (scheduleIdleWork_effect h now st) as (_ & _ & ->).
  rewrite scheduleIdleWork_queue in Hqueue.
  unfold willRequest. rewrite Hflag. cbn [orb].
  destruct (idleQueue st); [contradiction | reflexivity].
Qed.

Lemma scheduleIdleWork_resumable (h : Host) (now : Time) (st : State) :
  resumable (scheduleIdleWork h now st).
Proof.
  destruct (isIdleProcessing st) eqn:Hflag.
  - intros _. left. unfold scheduleIdleWork. now rewrite Hflag.
  - now apply scheduled_resumable.
Qed.

Lemma cycle_end_resumable (h : Host) (now : Time) (st : State) :
  resumable
    (if (0 <? List.length (idleQueue (setProcessing now false st)))%nat
     then scheduleIdleWork h now (setProcessing now false st)
     else setProcessing now false st).
Proof.
  destruct (0 <? List.length (idleQueue (setProcessing now false st)))%nat eqn:E.
  - apply scheduleIdleWork_resumable.
  - intros Hqueue. apply Nat.ltb_ge in E.
    destruct (idleQueue (setProcessing now false st)); [contradiction|].
    simpl in E. lia.
Qed.

Lemma idleCallback_resumable (h : Host) (now : Time) (deadline : IdleDeadline)
    (tr : Z) (st : State) :
  timeRemaining deadline = inl tr -> resumable (idleCallback h now deadline st).
Proof.
  intros Hdeadline. unfold idleCallback, processIdleQueue. rewrite Hdeadline.
  destruct (shouldPauseIdleLoading h now).
  - intros _. right. cbn [hostJobs register setProcessing].
    rewrite existsb_app. cbn. apply orb_true_r.
  - destruct ((calculateOptimalBatchSize tr =? 0)
              || (List.length (idleQueue st) =? 0)%nat);
      apply cycle_end_resumable.
Qed.

Lemma reachableCalmly_reachable (h : Host) (t : Time) (st : State) :
  reachableCalmly h t st -> reachable h t st.
Proof.
  induction 1 as [t|t t' resources options st _ IH Ht
                   |t t' ev st st' _ IH Ht _ Hfire].
  - apply reachable_init.
  - now apply (reachable_call h t t').
  - now apply (reachable_fire h t t' ev st st').
Qed.

(** X8: the queue cannot stall.  As long as no deadline throws, whenever
    urls are waiting in the queue either an idle slot (or its fallback timer)
    is pending or a back-off timer is: something will call the scheduler
    again. *)
Theorem queue_never_stalls (h : Host) (t : Time) (st : State) :
  reachableCalmly h t st ->
  idleQueue st <> [] ->
  pendingSlots st = 1%nat \/ existsb isBackoff (hostJobs st) = true.
Proof.
  intros Hreach Hqueue.
  pose proof (reachable_invariant h t st (reachableCalmly_reachable h t st Hreach))
    as Hinv.
  assert (Hres : resumable st).
  { clear Hqueue Hinv.
    induction Hreach as [t|t t' resources options st _ IH _
                         |t t' ev st st' _ IH _ Hanswers Hfire].
    - intros Hq. now elim Hq.
    - unfold Index.loadResources.
      destruct (List.length (Index.prepareResourcesForLoading resources) =? 0)%nat;
        [exact IH|].
      destruct (match Index.strategy options with
                | Some s => s
                | None => Index.immediate
                end); cbn [snd].
      + unfold Index.catchImmediate. destruct (finished _) as [? [[]|?]|]; exact IH.
      + apply scheduleIdleWork_resumable.
    - destruct ev as [deadline|due|due]; simpl in Hfire.
      + destruct (takeJob IdleCallbackJob (hostJobs st)); [|discriminate].
        inversion Hfire; subst. destruct Hanswers as (tr & Htr).
        now apply (idleCallback_resumable _ _ _ tr).
      + destruct (takeJob (FallbackTimerJob due) (hostJobs st)); [|discriminate].
        destruct (due <=? t'); [|discriminate].
        inversion Hfire; subst. now apply (idleCallback_resumable _ _ _ 5).
      + destruct (takeJob (RescheduleTimerJob due) (hostJobs st)); [|discriminate].
        destruct (due <=? t'); [|discriminate].
        inversion Hfire; subst. apply scheduleIdleWork_resumable. }
  destruct (Hres Hqueue) as [Hflag|Hbackoff]; [left | now right].
  unfold slotInvariant in Hinv. now rewrite Hflag in Hinv.
Qed.

Lemma twoUrlsQueued_calmly : reachableCalmly quietHost 0 twoUrlsQueued.
Proof.
  unfold twoUrlsQueued.
  apply (calmly_call quietHost 0 0); [apply calmly_init | lia].
Defined.

Lemma queue_never_stalls_witness :
  idleQueue twoUrlsQueued <> [] /\ pendingSlots twoUrlsQueued = 1%nat.
Proof.
  assert (Hqueue : idleQueue twoUrlsQueued <> []) by discriminate.
  split; [exact Hqueue|].
  destruct (queue_never_stalls quietHost 0 twoUrlsQueued twoUrlsQueued_calmly Hqueue)
    as [Hslot|Hbackoff]; [exact Hslot | discriminate].
Defined.

(** * Further properties of the validation *)

Lemma trimEnd_idempotent (s : string) : Js.trimEnd (Js.trimEnd s) = Js.trimEnd s.
Proof.
  induction s as [|c s IH]; [reflexivity|]. cbn [Js.trimEnd].
  destruct (Js.isEmpty (Js.trimEnd s) && Js.isWhiteSpace c) eqn:E; [reflexivity|].
  cbn [Js.trimEnd]. now rewrite IH, E.
Qed.

(** The string is empty or begins with a character that is not white space. *)
Definition startsClean (s : string) : Prop :=
  match s with
  | EmptyString => True
  | String c _ => Js.isWhiteSpace c = false
  end.

Lemma trimStart_startsClean (s : string) : startsClean (Js.trimStart s).
Proof.
  induction s as [|c s IH]; [exact I|]. cbn [Js.trimStart].
  destruct (Js.isWhiteSpace c) eqn:E; [exact IH | exact E].
Qed.

Lemma trimStart_clean (s : string) : startsClean s -> Js.trimStart s = s.
Proof. destruct s as [|c s]; [reflexivity|]. simpl. now intros ->. Qed.

Lemma trimEnd_startsClean (s : string) : startsClean s -> startsClean (Js.trimEnd s).
Proof.
  destruct s as [|c s]; [intros; exact I|]. cbn [startsClean Js.trimEnd].
  intros H. rewrite H, andb_false_r. exact H.
Qed.

Lemma trim_idempotent (s : string) : Js.trim (Js.trim s) = Js.trim s.
Proof.
  unfold Js.trim.
  rewrite (trimStart_clean (Js.trimEnd (Js.trimStart s))).
  - apply trimEnd_idempotent.
  - apply trimEnd_startsClean, trimStart_startsClean.
Qed.

(** X9: validation is stable: a url that [resolveResourceUrl] returns is
    returned unchanged when it is given back to it, so filtering an already
    filtered list changes nothing. *)
Theorem validation_is_idempotent :
  (forall r url,
      Index.resolveResourceUrl r = Some url ->
      Index.resolveResourceUrl (Index.JsString url) = Some url)
  /\ (forall resources,
        Index.prepareResourcesForLoading
          (Index.Many (map Index.JsString (Index.prepareResourcesForLoading resources)))
        = Index.prepareResourcesForLoading resources).
Proof.
  assert (Hfix : forall r url,
            Index.resolveResourceUrl r = Some url ->
            Index.resolveResourceUrl (Index.JsString url) = Some url).
  { intros r url Hr. destruct r as [s| | |]; try discriminate.
    rewrite resolveResourceUrl_trimmed in Hr.
    destruct (acceptable (Js.trim s)) eqn:Hok; [|discriminate].
    inversion Hr; subst. rewrite resolveResourceUrl_trimmed, trim_idempotent.
    now rewrite Hok. }
  split; [exact Hfix|].
  intros resources. unfold Index.prepareResourcesForLoading at 1.
  assert (Hall : Forall (fun url => Index.resolveResourceUrl (Index.JsString url) = Some url)
                        (Index.prepareResourcesForLoading resources)).
  { rewrite prepare_valid. apply Forall_forall. intros url Hurl.
    apply in_map_iff in Hurl as (r & <- & Hr). apply filter_In in Hr as (_ & Hr).
    unfold isValid in Hr. destruct (Index.resolveResourceUrl r) as [u|] eqn:E;
      [|discriminate].
    assert (Hu : u = trimmedOf r).
    { destruct r as [s| | |]; try discriminate.
      rewrite resolveResourceUrl_trimmed in E.
      destruct (acceptable (Js.trim s)); [now inversion E | discriminate]. }
    subst u. exact (Hfix r _ E). }
  induction Hall as [|url urls Hurl _ IH]; [reflexivity|].
  cbn [map Index.dropNulls]. now rewrite Hurl, IH.
Qed.

(** * The entries of a call and the loads made for them *)

(** ** The calls of the fetcher *)

(** The urls handed to [loadByType] so far by the batches of the immediate
    strategy, and by the loads launched from the idle queue. *)
Definition batchCalls (st : State) : list string :=
  fetchCalls (flat_map eventsOf (batchRuns st)).

Definition idleCalls (st : State) : list string :=
  fetchCalls (flat_map (fun ua => events (snd ua)) (started st)).

(** The urls named so far in a log line about a failed load or in a call of
    [onError], by the batches and by the loads launched from the queue. *)
Definition reported (st : State) : list string :=
  reportedUrls (flat_map eventsOf (batchRuns st))
  ++ reportedUrls (flat_map (fun ua => events (snd ua)) (started st)).

(** An entry of [started] as [processIdleQueue] makes it at [now]. *)
Definition launchedAt (h : Host) (now : Time) (ua : string * Async) : Prop :=
  exists o, snd ua = dispatch h (fst ua) o now.

(** A string that is its own trimmed form and passes the checks of
    [resolveResourceUrl]. *)
Definition trimmedAndAccepted (url : string) : Prop :=
  Js.trim url = url /\ acceptable url = true.

Lemma handleError_calls (t : Time) (error : Error) (url : string)
    (userCallback : option Callback) :
  fetchCalls (map (pair t) (fst (handleError error url userCallback))) = [].
Proof.
  rewrite handleError_events.
  destruct userCallback as [cb|]; [destruct (cb url error)|]; reflexivity.
Qed.

(** A launch from the idle queue calls [loadByType] once, with its url. *)
Lemma dispatch_calls (h : Host) (url : string) (options : LoadOptions) (now : Time) :
  fetchCalls (events (dispatch h url options now)) = [url].
Proof.
  unfold dispatch, catchWith.
  destruct (loadSingleAsset_calls h url (timeoutOrDefault options) options now)
    as (Hcalls & _).
  destruct (promise (loadSingleAsset h url (timeoutOrDefault options) options now))
    as [t [[]|error]|]; cbn [events]; try exact Hcalls.
  now rewrite fetchCalls_app, Hcalls, handleError_calls.
Qed.

Lemma launched_calls (h : Host) (now : Time) (loads : list (string * Async)) :
  Forall (launchedAt h now) loads ->
  fetchCalls (flat_map (fun ua => events (snd ua)) loads) = map fst loads.
Proof.
  induction 1 as [|[url a] loads (o & Ha) _ IH]; [reflexivity|].
  cbn [flat_map map fst snd] in *. subst a.
  now rewrite fetchCalls_app, dispatch_calls, IH.
Qed.

Lemma reportedUrls_app (l1 l2 : list (Time * Event)) :
  reportedUrls (l1 ++ l2) = reportedUrls l1 ++ reportedUrls l2.
Proof. apply flat_map_app. Qed.

(** A launch from the idle queue reports about no url but its own. *)
Lemma dispatch_reports (h : Host) (url : string) (options : LoadOptions) (now : Time)
    (u : string) :
  In u (reportedUrls (events (dispatch h url options now))) -> u = url.
Proof.
  unfold dispatch, catchWith.
  destruct (loadSingleAsset_calls h url (timeoutOrDefault options) options now)
    as (_ & Hreports).
  destruct (promise (loadSingleAsset h url (timeoutOrDefault options) options now))
    as [t [[]|error]|]; cbn [events]; try apply Hreports.
  rewrite reportedUrls_app. intros Hin.
  apply in_app_or in Hin as [Hin|Hin]; [now apply Hreports|].
  rewrite handleError_events in Hin.
  destruct (onError options) as [cb|]; [destruct (cb url error)|];
    simpl in Hin; intuition congruence.
Qed.

Lemma launched_reports (h : Host) (now : Time) (loads : list (string * Async))
    (u : string) :
  Forall (launchedAt h now) loads ->
  In u (reportedUrls (flat_map (fun ua => events (snd ua)) loads)) ->
  In u (map fst loads).
Proof.
  induction 1 as [|[url a] loads (o & Ha) _ IH]; [intros []|].
  cbn [flat_map map fst snd] in *. subst a. rewrite reportedUrls_app.
  intros Hin. apply in_app_or in Hin as [Hin|Hin].
  - left. symmetry. now apply (dispatch_reports h url o now).
  - right. now apply IH.
Qed.

(** The loop only adds to the loads, and what it adds are launches of urls. *)
Lemma idleLoop_appends (h : Host) (now : Time) (c : Z) (queue : list IdleTask) :
  forall (n : Z) (loads : list (string * Async)),
    exists launched,
      snd (idleLoop h now c n queue loads) = loads ++ launched
      /\ Forall (launchedAt h now) launched.
Proof.
  remember (queueWeight queue) as w eqn:Hw. revert queue Hw.
  induction w as [w IH] using lt_wf_ind. intros queue Hw n loads.
  rewrite idleLoop_unfold.
  destruct (n <? c); [|exists []; now rewrite app_nil_r].
  destruct queue as [|[[|url remaining] o] rest].
  - exists []. now rewrite app_nil_r.
  - apply (IH (queueWeight rest)); [|reflexivity].
    subst w. unfold queueWeight. simpl. lia.
  - cbv zeta.
    set (requeued := if (0 <? List.length remaining)%nat
                     then rest ++ [mkIdleTask remaining o] else rest).
    assert (Hlt : (queueWeight requeued < w)%nat).
    { subst w requeued. destruct remaining; cbn [List.length Nat.ltb Nat.leb];
        rewrite ?queueWeight_app; unfold queueWeight, list_sum; cbn; lia. }
    destruct (Js.isEmpty url); [now apply (IH _ Hlt requeued eq_refl)|].
    destruct (IH _ Hlt requeued eq_refl (n + 1)
                (loads ++ [(url, dispatch h url o now)]))
      as (launched & -> & Hlaunched).
    exists ((url, dispatch h url o now) :: launched).
    split; [now rewrite <- app_assoc|].
    constructor; [now exists o | exact Hlaunched].
Qed.

(** One cycle, whatever the page, the deadline and the window: it leaves the
    batches alone, and the loads it adds are launches, at this instant, of
    urls that it has taken out of the queue. *)
Lemma idleCallback_moves (h : Host) (now : Time) (deadline : IdleDeadline)
    (st : State) :
  Forall groupReady (idleQueue st) ->
  let st' := idleCallback h now deadline st in
  batchRuns st' = batchRuns st
  /\ exists launched,
       started st' = started st ++ launched
       /\ Forall (launchedAt h now) launched
       /\ Permutation (queuedUrls (idleQueue st))
                      (map fst launched ++ queuedUrls (idleQueue st')).
Proof.
  intros Hready. cbv zeta. unfold idleCallback, processIdleQueue.
  assert (Hsame : forall s : State,
            batchRuns s = batchRuns st -> started s = started st ->
            idleQueue s = idleQueue st ->
            batchRuns s = batchRuns st
            /\ exists launched,
                 started s = started st ++ launched
                 /\ Forall (launchedAt h now) launched
                 /\ Permutation (queuedUrls (idleQueue st))
                                (map fst launched ++ queuedUrls (idleQueue s))).
  { intros s Hb Hs Hq. split; [exact Hb|]. exists [].
    rewrite app_nil_r, Hq. split; [exact Hs|]. split; [constructor | reflexivity]. }
  destruct (shouldPauseIdleLoading h now); [now apply Hsame|].
  destruct (timeRemaining deadline) as [tr|error]; [|now apply Hsame].
  assert (Hend : forall s,
            let s' := if (0 <? List.length (idleQueue (setProcessing now false s)))%nat
                      then scheduleIdleWork h now (setProcessing now false s)
                      else setProcessing now false s in
            idleQueue s' = idleQueue s /\ started s' = started s
            /\ batchRuns s' = batchRuns s).
  { intros s. cbv zeta. destruct (0 <? _)%nat; [|now repeat split].
    destruct (scheduleIdleWork_keeps h now (setProcessing now false s))
      as (-> & -> & ->). now repeat split. }
  destruct ((calculateOptimalBatchSize tr =? 0)
            || (List.length (idleQueue st) =? 0)%nat).
  - destruct (Hend st) as (Hq & Hs & Hb). now apply Hsame.
  - set (r := idleLoop h now (calculateOptimalBatchSize tr) 0 (idleQueue st)
                       (started st)).
    destruct (Hend (withQueue (fst r) (snd r) st)) as (-> & -> & ->).
    cbn [idleQueue started batchRuns withQueue]. split; [reflexivity|].
    destruct (idleLoop_appends h now (calculateOptimalBatchSize tr) (idleQueue st)
                0 (started st)) as (launched & Hsnd & Hlaunched).
    fold r in Hsnd. exists launched. split; [exact Hsnd|]. split; [exact Hlaunched|].
    destruct (idleLoop_moves h now (calculateOptimalBatchSize tr) (idleQueue st)
                0 (started st) Hready) as (Hperm & _).
    fold r in Hperm. rewrite Hsnd in Hperm. unfold launchedUrls in Hperm.
    rewrite map_app in Hperm.
    apply (Permutation_app_inv_r (map fst (started st))).
    etransitivity; [exact Hperm|].
    rewrite <- (app_assoc (map fst launched)).
    rewrite (app_assoc (queuedUrls (fst r))).
    apply Permutation_app_comm.
Qed.

Lemma takeJob_subset (job : HostJob) (jobs jobs' : list HostJob) :
  takeJob job jobs = Some jobs' ->
  In job jobs /\ forall j, In j jobs' -> In j jobs.
Proof.
  revert jobs'. induction jobs as [|j0 jobs IH]; simpl; intros jobs' H.
  - discriminate.
  - destruct (HostJob_eqb job j0) eqn:E.
    + inversion H; subst. split; [|now right].
      left. destruct job, j0; try discriminate; simpl in E;
        [reflexivity | apply Z.eqb_eq in E; now subst..].
    + destruct (takeJob job jobs) as [rest|]; [|discriminate].
      inversion H; subst. destruct (IH rest eq_refl) as (Hin & Hsub).
      split; [now right|]. intros j [<-|Hj]; [now left | right; now apply Hsub].
Qed.

(** One host task: the same, for whichever callback the host runs. *)
Lemma fire_moves (h : Host) (now : Time) (ev : HostEvent) (st st' : State) :
  Forall groupReady (idleQueue st) ->
  fire h now ev st = Some st' ->
  batchRuns st' = batchRuns st
  /\ exists launched,
       started st' = started st ++ launched
       /\ Forall (launchedAt h now) launched
       /\ Permutation (queuedUrls (idleQueue st))
                      (map fst launched ++ queuedUrls (idleQueue st')).
Proof.
  intros Hready Hfire. destruct ev as [deadline|due|due]; simpl in Hfire.
  - destruct (takeJob IdleCallbackJob (hostJobs st)) as [jobs|]; [|discriminate].
    inversion Hfire; subst.
    apply (idleCallback_moves h now deadline (withJobs jobs st) Hready).
  - destruct (takeJob (FallbackTimerJob due) (hostJobs st)) as [jobs|]; [|discriminate].
    destruct (due <=? now); [|discriminate].
    inversion Hfire; subst.
    apply (idleCallback_moves h now fallbackDeadline (withJobs jobs st) Hready).
  - destruct (takeJob (RescheduleTimerJob due) (hostJobs st)) as [jobs|]; [|discriminate].
    destruct (due <=? now); [|discriminate].
    inversion Hfire; subst.
    destruct (scheduleIdleWork_keeps h now (withJobs jobs st)) as (-> & -> & ->).
    cbn [idleQueue started batchRuns withJobs]. split; [reflexivity|].
    exists []. rewrite app_nil_r. split; [reflexivity|]. split; [constructor | reflexivity].
Qed.

Lemma idleCalls_app (st st' : State) (launched : list (string * Async))
    (h : Host) (now : Time) :
  started st' = started st ++ launched ->
  Forall (launchedAt h now) launched ->
  idleCalls st' = idleCalls st ++ map fst launched.
Proof.
  intros Hs Hlaunched. unfold idleCalls.
  now rewrite Hs, flat_map_app, fetchCalls_app, (launched_calls h now launched Hlaunched).
Qed.

(** ** What a call of [loadResources] does with its entries *)

(** The immediate strategy (the default) hands the accepted entries to
    [loadByType] in order, each once, reports about no other url, and leaves
    the idle scheduler alone. *)
Lemma loadResources_immediate (h : Host) (now : Time) (resources : Index.Resources)
    (options : Index.LoadResourcesOptions) (st : State) :
  Index.strategy options <> Some Index.idle ->
  let st' := snd (Index.loadResources h now resources options st) in
  batchCalls st' = batchCalls st ++ Index.prepareResourcesForLoading resources
  /\ (forall u, In u (reportedUrls (flat_map eventsOf (batchRuns st'))) ->
        In u (reportedUrls (flat_map eventsOf (batchRuns st)))
        \/ In u (Index.prepareResourcesForLoading resources))
  /\ idleQueue st' = idleQueue st /\ started st' = started st
  /\ hostJobs st' = hostJobs st /\ isIdleProcessing st' = isIdleProcessing st.
Proof.
  intros Hstrategy. cbv zeta. unfold Index.loadResources.
  destruct (List.length (Index.prepareResourcesForLoading resources) =? 0)%nat
    eqn:Hlen.
  - apply Nat.eqb_eq in Hlen.
    destruct (Index.prepareResourcesForLoading resources); [|discriminate].
    cbn [snd]. rewrite app_nil_r. repeat split. intros u Hu. now left.
  - replace (match Index.strategy options with
             | Some s => s
             | None => Index.immediate
             end) with Index.immediate
      by (destruct (Index.strategy options) as [[]|]; congruence).
    cbn [snd]. set (run := loadAssetsBatch h _ _ now).
    destruct (loadAssetsBatch_finishes h
                (Index.prepareResourcesForLoading resources)
                {| batchSize :=
                     Some match Index.batchSize options with
                          | Some b => b
                          | None => 1
                          end;
                   timeout := Index.timeout options;
                   onError := Index.onError options |} now) as (t & Hfin).
    fold run in Hfin. rewrite (catchImmediate_fulfilled run _ t Hfin).
    unfold batchCalls.
    cbn [idleQueue started batchRuns hostJobs isIdleProcessing withBatchRun].
    destruct (loadAssetsBatch_calls h
                (Index.prepareResourcesForLoading resources)
                {| batchSize :=
                     Some match Index.batchSize options with
                          | Some b => b
                          | None => 1
                          end;
                   timeout := Index.timeout options;
                   onError := Index.onError options |} now) as (Hcalls & Hreports).
    fold run in Hcalls, Hreports.
    assert (Hruns : flat_map eventsOf (batchRuns st ++ [run]) =
                    flat_map eventsOf (batchRuns st) ++ eventsOf run)
      by (rewrite flat_map_app; cbn [flat_map]; now rewrite app_nil_r).
    rewrite Hruns, fetchCalls_app, Hcalls.
    repeat split. intros u Hu. unfold reportedUrls in Hu.
    rewrite flat_map_app in Hu.
    apply in_app_or in Hu as [Hu|Hu]; [now left | right; now apply Hreports].
Qed.

(** The idle strategy appends the accepted entries to the queue, as one
    group, and itself starts no load. *)
Lemma loadResources_idle (h : Host) (now : Time) (resources : Index.Resources)
    (options : Index.LoadResourcesOptions) (st : State) :
  Index.strategy options = Some Index.idle ->
  let st' := snd (Index.loadResources h now resources options st) in
  queuedUrls (idleQueue st') =
    queuedUrls (idleQueue st) ++ Index.prepareResourcesForLoading resources
  /\ batchRuns st' = batchRuns st /\ started st' = started st.
Proof.
  intros Hstrategy. cbv zeta. unfold Index.loadResources. rewrite Hstrategy.
  destruct (List.length (Index.prepareResourcesForLoading resources) =? 0)%nat
    eqn:Hlen.
  - apply Nat.eqb_eq in Hlen.
    destruct (Index.prepareResourcesForLoading resources); [|discriminate].
    cbn [snd]. now rewrite app_nil_r.
  - cbn [snd]. set (queued := addIdleTask _ _ st).
    destruct (scheduleIdleWork_keeps h now queued) as (-> & -> & ->).
    subst queued. cbn [idleQueue started batchRuns addIdleTask withQueue].
    rewrite queuedUrls_app. unfold queuedUrls at 2. cbn [map List.concat urls].
    now rewrite app_nil_r.
Qed.

Lemma loadResources_cases (h : Host) (now : Time) (resources : Index.Resources)
    (options : Index.LoadResourcesOptions) (st : State) :
  let st' := snd (Index.loadResources h now resources options st) in
  batchRuns st' = batchRuns st /\ started st' = started st
  /\ queuedUrls (idleQueue st') =
     queuedUrls (idleQueue st) ++ Index.prepareResourcesForLoading resources
  \/ batchCalls st' = batchCalls st ++ Index.prepareResourcesForLoading resources
     /\ started st' = started st /\ idleQueue st' = idleQueue st.
Proof.
  cbv zeta.
  destruct (Index.strategy options) as [[]|] eqn:Hstrategy.
  - right.
    destruct (loadResources_immediate h now resources options st) as (H1 & _ & H2 & H3 & _);
      [congruence | now repeat split].
  - left.
    destruct (loadResources_idle h now resources options st Hstrategy) as (H1 & H2 & H3).
    now repeat split.
  - right.
    destruct (loadResources_immediate h now resources options st) as (H1 & _ & H2 & H3 & _);
      [congruence | now repeat split].
Qed.

Lemma prepared_urls_accepted (resources : Index.Resources) :
  Forall trimmedAndAccepted (Index.prepareResourcesForLoading resources).
Proof.
  rewrite prepare_valid.
  induction (entries resources) as [|r rs IH]; [constructor|].
  cbn [filter]. destruct (isValid r) eqn:Hr; [|exact IH].
  cbn [map]. constructor; [|exact IH].
  unfold isValid in Hr. destruct r as [s| | |]; try discriminate.
  rewrite resolveResourceUrl_trimmed in Hr. cbn [trimmedOf].
  destruct (acceptable (Js.trim s)) eqn:Hs; [|discriminate].
  split; [apply trim_idempotent | exact Hs].
Qed.

(** Whatever the page has done so far, every url that has been handed to
    [loadByType], every url that waits in the queue and every url that a log
    line or a call of [onError] names is a string that passed the checks and
    is its own trimmed form. *)
Lemma reachable_urls_accepted (h : Host) (t : Time) (st : State) :
  reachable h t st ->
  Forall trimmedAndAccepted
         (batchCalls st ++ idleCalls st ++ queuedUrls (idleQueue st) ++ reported st).
Proof.
  intros Hreach.
  induction Hreach as [t|t t' resources options st Hreach IH _
                       |t t' ev st st' Hreach IH _ Hfire].
  - constructor.
  - apply Forall_app in IH as (IHb & IH). apply Forall_app in IH as (IHi & IH).
    apply Forall_app in IH as (IHq & IHr).
    pose proof (prepared_urls_accepted resources) as Hnew.
    unfold reported in IHr. apply Forall_app in IHr as (IHrb & IHrs).
    destruct (Index.strategy options) as [[]|] eqn:Hstrategy.
    2:{ destruct (loadResources_idle h t' resources options st Hstrategy)
          as (Hq & Hb & Hs).
        unfold batchCalls, idleCalls, reported in *. rewrite Hq, Hb, Hs.
        repeat (apply Forall_app; split); assumption. }
    all: destruct (loadResources_immediate h t' resources options st)
           as (Hb & Hreports & Hq & Hs & _); [congruence|];
         unfold idleCalls, reported in *; rewrite Hb, Hq, Hs;
         repeat (apply Forall_app; split); try assumption;
         rewrite Forall_forall in *; intros u Hu;
         destruct (Hreports u Hu) as [Hold|Hvalid]; [now apply IHrb | now apply Hnew].
  - apply Forall_app in IH as (IHb & IH). apply Forall_app in IH as (IHi & IH).
    apply Forall_app in IH as (IHq & IHr).
    destruct (reachable_queue_ready h t st Hreach) as (Hready & _).
    destruct (fire_moves h t' ev st st' Hready Hfire)
      as (Hb & launched & Hs & Hlaunched & Hperm).
    rewrite (idleCalls_app st st' launched h t' Hs Hlaunched).
    unfold batchCalls, reported in *. rewrite Hb, Hs.
    assert (Hmoved : Forall trimmedAndAccepted
                            (map fst launched ++ queuedUrls (idleQueue st'))).
    { rewrite Forall_forall in *. intros u Hu. apply IHq.
      apply (Permutation_in u (Permutation_sym Hperm) Hu). }
    apply Forall_app in Hmoved as (Hl & Hq').
    apply Forall_app in IHr as (IHrb & IHrs).
    rewrite (flat_map_app _ (started st)), reportedUrls_app.
    repeat (apply Forall_app; split); try assumption.
    apply Forall_forall. intros u Hu. rewrite Forall_forall in Hl. apply Hl.
    now apply (launched_reports h t' launched u Hlaunched).
Qed.

(** C10: entries are trimmed before they are checked, and what is loaded is
    the trimmed string.  An entry that is not a string is dropped, and so is
    a string whose trimmed form is empty; the checks are made on the trimmed
    string and the url kept is the trimmed string.  A call of [loadResources]
    with the immediate strategy hands to [loadByType] exactly the trimmed
    forms of the entries that passed, in order, and reports about no other
    url; with the idle strategy it appends exactly these to the queue and
    starts nothing; a dropped entry gives rise to no call and no report.
    Each task of the host then hands to [loadByType] urls that it takes out
    of the queue, as they are.  So in every state that the page can reach,
    each url handed to [loadByType], by either strategy, each url in the
    queue and each url named in a log line or passed to [onError] is its own
    trimmed form and has passed the checks. *)
Theorem entries_trimmed_before_validation :
  (forall r, (forall s, r <> Index.JsString s) -> Index.resolveResourceUrl r = None)
  /\ (forall s, Js.isEmpty (Js.trim s) = true ->
        Index.resolveResourceUrl (Index.JsString s) = None)
  /\ (forall s,
        Index.resolveResourceUrl (Index.JsString s) =
        if acceptable (Js.trim s) then Some (Js.trim s) else None)
  /\ (forall h now resources options st,
        Index.strategy options <> Some Index.idle ->
        let st' := snd (Index.loadResources h now resources options st) in
        let kept := map trimmedOf (filter isValid (entries resources)) in
        batchCalls st' = batchCalls st ++ kept
        /\ (forall u, In u (reported st') -> In u (reported st) \/ In u kept)
        /\ started st' = started st
        /\ idleQueue st' = idleQueue st)
  /\ (forall h now resources options st,
        Index.strategy options = Some Index.idle ->
        let st' := snd (Index.loadResources h now resources options st) in
        let kept := map trimmedOf (filter isValid (entries resources)) in
        queuedUrls (idleQueue st') = queuedUrls (idleQueue st) ++ kept
        /\ batchRuns st' = batchRuns st
        /\ started st' = started st)
  /\ (forall h t st now ev st',
        reachable h t st -> fire h now ev st = Some st' ->
        batchRuns st' = batchRuns st
        /\ exists urls,
             idleCalls st' = idleCalls st ++ urls
             /\ Permutation (queuedUrls (idleQueue st))
                            (urls ++ queuedUrls (idleQueue st')))
  /\ (forall h t st,
        reachable h t st ->
        Forall trimmedAndAccepted
               (batchCalls st ++ idleCalls st ++ queuedUrls (idleQueue st)
                ++ reported st))
  /\ (let st' :=
        snd (Index.loadResources quietHost 0
               (Index.Many [Index.JsString "  /assets/image.jpg  "; Index.JsNull;
                            Index.JsString "   "; Index.JsUndefined;
                            Index.JsString " javascript:alert(1)"; Index.JsOther;
                            Index.JsString "b.jpg "])
               {| Index.strategy := None; Index.batchSize := None;
                  Index.timeout := None; Index.onError := None |}
               initialState) in
      batchCalls st' = ["/assets/image.jpg"; "b.jpg"]%string).
Proof.
  split; [|split; [|split; [|split; [|split; [|split; [|split]]]]]].
  - intros r Hr. destruct r as [s| | |]; try reflexivity.
    now elim (Hr s).
  - intros s Hs. rewrite resolveResourceUrl_trimmed. unfold acceptable.
    now rewrite Hs.
  - apply resolveResourceUrl_trimmed.
  - intros h now resources options st Hstrategy. cbv zeta.
    destruct (loadResources_immediate h now resources options st Hstrategy)
      as (Hcalls & Hreports & Hq & Hs & _).
    rewrite <- prepare_valid. split; [exact Hcalls|].
    split; [|now split].
    unfold reported. rewrite Hs. intros u Hu.
    apply in_app_or in Hu as [Hu|Hu].
    + destruct (Hreports u Hu) as [Hold|Hkept]; [left | now right].
      apply in_or_app. now left.
    + left. apply in_or_app. now right.
  - intros h now resources options st Hstrategy. cbv zeta.
    rewrite <- prepare_valid.
    apply (loadResources_idle h now resources options st Hstrategy).
  - intros h t st now ev st' Hreach Hfire.
    destruct (reachable_queue_ready h t st Hreach) as (Hready & _).
    destruct (fire_moves h now ev st st' Hready Hfire)
      as (Hb & launched & Hs & Hlaunched & Hperm).
    split; [exact Hb|].
    exists (map fst launched). split; [|exact Hperm].
    apply (idleCalls_app st st' launched h now Hs Hlaunched).
  - apply reachable_urls_accepted.
  - reflexivity.
Qed.

(** ** The idle strategy without [requestIdleCallback]

    [scheduleIdleWork] then sets a timer of 50 ms and hands
    [processIdleQueue] a deadline whose [timeRemaining()] is 5.  The cycle
    keeps 12 ms in reserve, so its candidate count is 0: it launches nothing
    and sets the timer again. *)

(** A host without [requestIdleCallback]; a load would take 10 ms. *)
Definition fallbackHost : Host :=
  {| loadByType := fun _ _ => Resolves 10;
     hasAbortController := true;
     hasRequestIdleCallback := false;
     documentHidden := fun _ => Some false |}.

(** [loadResources(['a.jpg', 'b.jpg'], { strategy: 'idle' })] at 0 ms on
    [fallbackHost], and the fallback timer firing at 50 ms and at 100 ms. *)
Definition afterTwoFallbackCycles : option State :=
  match fire fallbackHost 50 (FallbackTimerFires 50)
             (snd (Index.loadResources fallbackHost 0
                     (Index.Many [Index.JsString "a.jpg"; Index.JsString "b.jpg"])
                     idleOptions initialState)) with
  | Some st => fire fallbackHost 100 (FallbackTimerFires 100) st
  | None => None
  end.

Lemma idleCallback_jobs (h : Host) (now : Time) (deadline : IdleDeadline)
    (st : State) (job : HostJob) :
  In job (hostJobs (idleCallback h now deadline st)) ->
  In job (hostJobs st) \/ job = slotFor h now \/ job = RescheduleTimerJob (now + 1000).
Proof.
  unfold idleCallback, processIdleQueue.
  assert (Hend : forall s,
            hostJobs s = hostJobs st ->
            In job (hostJobs
                      (if (0 <? List.length (idleQueue (setProcessing now false s)))%nat
                       then scheduleIdleWork h now (setProcessing now false s)
                       else setProcessing now false s)) ->
            In job (hostJobs st) \/ job = slotFor h now
            \/ job = RescheduleTimerJob (now + 1000)).
  { intros s Hs. destruct (0 <? _)%nat.
    - destruct (scheduleIdleWork_effect h now (setProcessing now false s))
        as (_ & -> & _).
      cbn [hostJobs setProcessing]. rewrite Hs. intros Hin.
      apply in_app_or in Hin as [Hin|Hin]; [now left|].
      destruct (willRequest _); [|contradiction].
      destruct Hin as [<-|[]]. right. now left.
    - cbn [hostJobs setProcessing]. rewrite Hs. now left. }
  destruct (shouldPauseIdleLoading h now).
  - cbn [hostJobs register setProcessing]. intros Hin.
    apply in_app_or in Hin as [Hin|[<-|[]]]; [now left | right; now right].
  - destruct (timeRemaining deadline) as [tr|error]; [|now left].
    destruct ((calculateOptimalBatchSize tr =? 0)
              || (List.length (idleQueue st) =? 0)%nat); now apply Hend.
Qed.

Lemma loadResources_jobs (h : Host) (now : Time) (resources : Index.Resources)
    (options : Index.LoadResourcesOptions) (st : State) (job : HostJob) :
  In job (hostJobs (snd (Index.loadResources h now resources options st))) ->
  In job (hostJobs st) \/ job = slotFor h now.
Proof.
  unfold Index.loadResources.
  destruct (List.length (Index.prepareResourcesForLoading resources) =? 0)%nat;
    [now left|].
  destruct (match Index.strategy options with
            | Some s => s
            | None => Index.immediate
            end); cbn [snd].
  - unfold Index.catchImmediate. destruct (finished _) as [? [[]|?]|]; now left.
  - set (queued := addIdleTask _ _ st).
    destruct (scheduleIdleWork_effect h now queued) as (_ & -> & _).
    intros Hin. apply in_app_or in Hin as [Hin|Hin]; [now left|].
    destruct (willRequest queued); [|contradiction].
    destruct Hin as [<-|[]]. now right.
Qed.

Lemma loadResources_started (h : Host) (now : Time) (resources : Index.Resources)
    (options : Index.LoadResourcesOptions) (st : State) :
  started (snd (Index.loadResources h now resources options st)) = started st.
Proof.
  destruct (loadResources_cases h now resources options st)
    as [(_ & H & _) | (_ & H & _)]; exact H.
Qed.

(** Without [requestIdleCallback] no state that the page can reach has a
    load launched from the queue, and the host is never given an idle
    callback to run. *)
Lemma fallback_launches_nothing (h : Host) (t : Time) (st : State) :
  hasRequestIdleCallback h = false ->
  reachable h t st ->
  started st = [] /\ ~ In IdleCallbackJob (hostJobs st).
Proof.
  intros Hnone Hreach.
  assert (Hslot : forall now, slotFor h now <> IdleCallbackJob)
    by (intros now; unfold slotFor; now rewrite Hnone).
  induction Hreach as [t|t t' resources options st _ (IHs & IHj) _
                       |t t' ev st st' _ (IHs & IHj) _ Hfire].
  - split; [reflexivity | intros []].
  - split; [now rewrite loadResources_started|].
    intros Hin. apply loadResources_jobs in Hin as [Hin|Hin]; [now apply IHj|].
    now apply (Hslot t').
  - destruct ev as [deadline|due|due]; simpl in Hfire.
    + destruct (takeJob IdleCallbackJob (hostJobs st)) as [jobs|] eqn:Htake;
        [|discriminate].
      apply takeJob_subset in Htake as (Hin & _). now elim IHj.
    + destruct (takeJob (FallbackTimerJob due) (hostJobs st)) as [jobs|] eqn:Htake;
        [|discriminate].
      destruct (due <=? t'); [|discriminate].
      inversion Hfire; subst. apply takeJob_subset in Htake as (_ & Hsub).
      destruct (fallback_cycle_starts_nothing h t' (withJobs jobs st))
        as (_ & -> & _).
      split; [exact IHs|]. intros Hin.
      apply idleCallback_jobs in Hin as [Hin|[Hin|Hin]];
        [apply IHj; now apply Hsub | now apply (Hslot t') | discriminate].
    + destruct (takeJob (RescheduleTimerJob due) (hostJobs st)) as [jobs|] eqn:Htake;
        [|discriminate].
      destruct (due <=? t'); [|discriminate].
      inversion Hfire; subst. apply takeJob_subset in Htake as (_ & Hsub).
      destruct (scheduleIdleWork_keeps h t' (withJobs jobs st)) as (_ & -> & _).
      split; [exact IHs|].
      destruct (scheduleIdleWork_effect h t' (withJobs jobs st)) as (_ & -> & _).
      intros Hin. apply in_app_or in Hin as [Hin|Hin]; [apply IHj; now apply Hsub|].
      destruct (willRequest _); [|contradiction].
      destruct Hin as [Hin|[]]. now apply (Hslot t').
Qed.

(** Without [requestIdleCallback] no deadline is the host's, so none can
    throw. *)
Lemma fallback_calm (h : Host) (t : Time) (st : State) :
  hasRequestIdleCallback h = false ->
  reachable h t st -> reachableCalmly h t st.
Proof.
  intros Hnone Hreach.
  induction Hreach as [t|t t' resources options st _ IH Ht
                       |t t' ev st st' Hreach IH Ht Hfire].
  - apply calmly_init.
  - now apply (calmly_call h t t').
  - apply (calmly_fire h t t' ev st st' IH Ht); [|exact Hfire].
    destruct ev as [deadline|due|due]; cbn [deadlineAnswers]; [|exact I..].
    exfalso. simpl in Hfire.
    destruct (takeJob IdleCallbackJob (hostJobs st)) as [jobs|] eqn:Htake;
      [|discriminate].
    apply takeJob_subset in Htake as (Hin & _).
    now destruct (fallback_launches_nothing h t st Hnone Hreach) as (_ & Hjobs).
Qed.

Lemma calm_resumable (h : Host) (t : Time) (st : State) :
  reachableCalmly h t st -> resumable st.
Proof.
  induction 1 as [t|t t' resources options st _ IH _
                  |t t' ev st st' _ IH _ Hanswers Hfire].
  - intros Hq. now elim Hq.
  - unfold Index.loadResources.
    destruct (List.length (Index.prepareResourcesForLoading resources) =? 0)%nat;
      [exact IH|].
    destruct (match Index.strategy options with
              | Some s => s
              | None => Index.immediate
              end); cbn [snd].
    + unfold Index.catchImmediate. destruct (finished _) as [? [[]|?]|]; exact IH.
    + apply scheduleIdleWork_resumable.
  - destruct ev as [deadline|due|due]; simpl in Hfire.
    + destruct (takeJob IdleCallbackJob (hostJobs st)); [|discriminate].
      inversion Hfire; subst. destruct Hanswers as (tr & Htr).
      now apply (idleCallback_resumable _ _ _ tr).
    + destruct (takeJob (FallbackTimerJob due) (hostJobs st)); [|discriminate].
      destruct (due <=? t'); [|discriminate].
      inversion Hfire; subst. now apply (idleCallback_resumable _ _ _ 5).
    + destruct (takeJob (RescheduleTimerJob due) (hostJobs st)); [|discriminate].
      destruct (due <=? t'); [|discriminate].
      inversion Hfire; subst. apply scheduleIdleWork_resumable.
Qed.

(** Without [requestIdleCallback] a task of the host leaves the queue as it
    is. *)
Lemma fallback_keeps_queue (h : Host) (t now : Time) (ev : HostEvent)
    (st st' : State) :
  hasRequestIdleCallback h = false ->
  reachable h t st ->
  fire h now ev st = Some st' ->
  idleQueue st' = idleQueue st.
Proof.
  intros Hnone Hreach Hfire.
  destruct (fallback_launches_nothing h t st Hnone Hreach) as (_ & Hjobs).
  destruct ev as [deadline|due|due]; simpl in Hfire.
  - destruct (takeJob IdleCallbackJob (hostJobs st)) as [jobs|] eqn:Htake;
      [|discriminate].
    apply takeJob_subset in Htake as (Hin & _). now elim Hjobs.
  - destruct (takeJob (FallbackTimerJob due) (hostJobs st)) as [jobs|];
      [|discriminate].
    destruct (due <=? now); [|discriminate].
    inversion Hfire; subst.
    now destruct (fallback_cycle_starts_nothing h now (withJobs jobs st))
      as (_ & _ & ->).
  - destruct (takeJob (RescheduleTimerJob due) (hostJobs st)) as [jobs|];
      [|discriminate].
    destruct (due <=? now); [|discriminate].
    inversion Hfire; subst. now rewrite scheduleIdleWork_queue.
Qed.

(** ** The criterion of validity, in the words of the specification

    A descriptor is valid exactly when it does not use a dangerous scheme
    ([javascript:], [data:], [file:], [ftp:], [blob:]) and is an absolute
    http/https url, a protocol-relative url, or a relative or root-relative
    path, over the restricted character set.  The scheme of a url is the
    text before its first [":"], when that is a letter followed by letters,
    digits, ["+"], ["-"] or ["."]; schemes do not depend on letter case; a
    url that has a scheme is not a path. *)
Module Spec.

Definition isAlpha (c : ascii) : bool :=
  let n := nat_of_ascii c in
  ((65 <=? n)%nat && (n <=? 90)%nat) || ((97 <=? n)%nat && (n <=? 122)%nat).

Definition isSchemeChar (c : ascii) : bool :=
  let n := nat_of_ascii c in
  isAlpha c || ((48 <=? n)%nat && (n <=? 57)%nat)
  || existsb (Ascii.eqb c) (list_ascii_of_string "+-.").

(** The rest of a scheme, in lower case, and what follows its [":"]. *)
Fixpoint schemeTail (s : string) : option (string * string) :=
  match s with
  | EmptyString => None
  | String c s' =>
      if Ascii.eqb c ":" then Some (EmptyString, s')
      else if isSchemeChar c then
        match schemeTail s' with
        | Some (scheme, rest) => Some (String (Js.toLower c) scheme, rest)
        | None => None
        end
      else None
  end.

Definition schemeOf (s : string) : option (string * string) :=
  match s with
  | EmptyString => None
  | String c s' =>
      if isAlpha c then
        match schemeTail s' with
        | Some (scheme, rest) => Some (String (Js.toLower c) scheme, rest)
        | None => None
        end
      else None
  end.

Definition usesDangerousScheme (s : string) : bool :=
  match schemeOf s with
  | Some (scheme, _) =>
      existsb (String.eqb scheme) ["javascript"; "data"; "file"; "ftp"; "blob"]%string
  | None => false
  end.

Definition isAbsoluteHttpUrl (s : string) : bool :=
  match schemeOf s with
  | Some (scheme, rest) =>
      (String.eqb scheme "http" || String.eqb scheme "https")
      && Js.startsWith "//" rest
  | None => false
  end.

Definition isProtocolRelativeUrl (s : string) : bool := Js.startsWith "//" s.

Definition isPath (s : string) : bool :=
  match schemeOf s with
  | Some _ => false
  | None => negb (Js.startsWith "//" s)
  end.

Definition overRestrictedCharacterSet (s : string) : bool :=
  negb (Js.isEmpty s) && Js.forallChars Index.isUrlChar s.

Definition validDescriptor (s : string) : bool :=
  negb (usesDangerousScheme s)
  && (isAbsoluteHttpUrl s || isProtocolRelativeUrl s || isPath s)
  && overRestrictedCharacterSet s.

End Spec.

(** On the shapes that the documentation of [loadResources] names, and on
    the dangerous schemes, the code and the criterion agree. *)
Example criterion_met_on_documented_shapes :
  let inputs :=
    ["https://example.com/image.jpg"; "javascript:alert(1)";
     "http://example.com/image.jpg"; "DATA:text/html,x";
     "//cdn.example.com/image.jpg"; "file:///etc/passwd";
     "/assets/image.jpg"; "ftp://example.com/file"; "assets/image.jpg";
     "blob:http://example.com"; "../assets/image.jpg"; "invalid<>chars"]%string in
  map (fun s => isValid (Index.JsString s)) inputs = map Spec.validDescriptor inputs
  /\ Index.prepareResourcesForLoading (Index.Many (map Index.JsString inputs))
     = ["https://example.com/image.jpg"; "http://example.com/image.jpg";
        "//cdn.example.com/image.jpg"; "/assets/image.jpg"; "assets/image.jpg";
        "../assets/image.jpg"]%string.
Proof. split; reflexivity. Qed.

Lemma afterTwoFallbackCycles_reachable :
  exists st, afterTwoFallbackCycles = Some st /\ reachable fallbackHost 100 st.
Proof.
  unfold afterTwoFallbackCycles.
  set (st0 := snd (Index.loadResources fallbackHost 0
                     (Index.Many [Index.JsString "a.jpg"; Index.JsString "b.jpg"])
                     idleOptions initialState)).
  assert (H0 : reachable fallbackHost 0 st0)
    by (apply (reachable_call fallbackHost 0 0); [apply reachable_init | lia]).
  destruct (fire fallbackHost 50 (FallbackTimerFires 50) st0) as [st1|] eqn:H1;
    [|discriminate H1].
  assert (Hr1 : reachable fallbackHost 50 st1)
    by (apply (reachable_fire fallbackHost 0 50 (FallbackTimerFires 50) st0 st1 H0);
        [lia | exact H1]).
  destruct (fire fallbackHost 100 (FallbackTimerFires 100) st1) as [st2|] eqn:H2;
    [|vm_compute in H1; inversion H1; subst st1; discriminate H2].
  exists st2. split; [reflexivity|].
  apply (reachable_fire fallbackHost 50 100 (FallbackTimerFires 100) st1 st2 Hr1);
    [lia | exact H2].
Qed.

(** C6: the code does not do what the specification says, in two ways.

    The loads.  On a host without [requestIdleCallback] the entries given
    with the idle strategy are validated and queued, and then never loaded:
    in every state that the page can reach no load has been launched from
    the queue; a call appends the accepted entries to the queue and starts
    nothing; no task of the host ever takes a url out of the queue; and all
    the while the scheduler keeps waking up, the fallback timer or the
    back-off timer pending as long as urls wait.  So k valid entries give 0
    loads, not k.

    The criterion.  The checks of [resolveResourceUrl] are not the criterion
    of the specification: a url with any scheme but the five listed and no ["://"]
    is accepted ([mailto:], [vbscript:]), though it is neither an http/https
    url nor a path; and an http url whose scheme is in upper case, or a path
    whose query holds ["://"], is dropped, though the criterion accepts
    them. *)
Theorem valid_entries_never_loaded_without_idle_callback :
  (forall h, hasRequestIdleCallback h = false ->
     forall t st, reachable h t st ->
       idleCalls st = []
       /\ (forall now resources options,
             Index.strategy options = Some Index.idle ->
             let st' := snd (Index.loadResources h now resources options st) in
             queuedUrls (idleQueue st') =
               queuedUrls (idleQueue st) ++ Index.prepareResourcesForLoading resources
             /\ batchCalls st' = batchCalls st /\ idleCalls st' = [])
       /\ (forall now ev st',
             fire h now ev st = Some st' ->
             idleQueue st' = idleQueue st
             /\ batchCalls st' = batchCalls st /\ idleCalls st' = [])
       /\ (idleQueue st <> [] ->
           pendingSlots st = 1%nat \/ existsb isBackoff (hostJobs st) = true))
  /\ (isValid (Index.JsString "mailto:a@b.c") = true
      /\ Spec.validDescriptor "mailto:a@b.c" = false)
  /\ (isValid (Index.JsString "vbscript:msgbox(1)") = true
      /\ Spec.validDescriptor "vbscript:msgbox(1)" = false)
  /\ (isValid (Index.JsString "HTTP://EXAMPLE.COM/a.jpg") = false
      /\ Spec.validDescriptor "HTTP://EXAMPLE.COM/a.jpg" = true)
  /\ (isValid (Index.JsString "/next?from=http://example.com") = false
      /\ Spec.validDescriptor "/next?from=http://example.com" = true).
Proof.
  split; [|repeat split; reflexivity].
  intros h Hnone t st Hreach.
  assert (Hnothing : forall t' s, reachable h t' s -> idleCalls s = []).
  { intros t' s Hs. unfold idleCalls.
    now destruct (fallback_launches_nothing h t' s Hnone Hs) as (-> & _). }
  split; [now apply (Hnothing t)|]. split; [|split].
  - intros now resources options Hstrategy. cbv zeta.
    destruct (loadResources_idle h now resources options st Hstrategy)
      as (Hq & Hb & Hs).
    split; [exact Hq|]. split; [unfold batchCalls; now rewrite Hb|].
    unfold idleCalls. rewrite Hs. apply (Hnothing t st Hreach).
  - intros now ev st' Hfire.
    split; [exact (fallback_keeps_queue h t now ev st st' Hnone Hreach Hfire)|].
    destruct (reachable_queue_ready h t st Hreach) as (Hready & _).
    destruct (fire_moves h now ev st st' Hready Hfire)
      as (Hb & launched & Hs & Hlaunched & Hperm).
    split; [unfold batchCalls; now rewrite Hb|].
    pose proof (fallback_keeps_queue h t now ev st st' Hnone Hreach Hfire) as Hq.
    rewrite Hq in Hperm.
    assert (Hnil : map fst launched = []).
    { apply Permutation_length in Hperm. rewrite length_app in Hperm.
      destruct (map fst launched); [reflexivity | simpl in Hperm; lia]. }
    rewrite (idleCalls_app st st' launched h now Hs Hlaunched), Hnil, app_nil_r.
    apply (Hnothing t st Hreach).
  - intros Hqueue.
    destruct (calm_resumable h t st (fallback_calm h t st Hnone Hreach) Hqueue)
      as [Hflag|Hbackoff]; [left | now right].
    pose proof (reachable_invariant h t st Hreach) as Hinv.
    unfold slotInvariant in Hinv. now rewrite Hflag in Hinv.
Qed.

(** ['a.jpg'] and ['b.jpg'], both valid, given with the idle strategy on
    [fallbackHost]: after the call and two runs of the fallback timer both
    are still in the queue and [loadByType] has not been called. *)
Lemma valid_entries_never_loaded_without_idle_callback_witness :
  exists st,
    afterTwoFallbackCycles = Some st
    /\ idleCalls st = []
    /\ queuedUrls (idleQueue st) = ["a.jpg"; "b.jpg"]%string
    /\ hostJobs st = [FallbackTimerJob 150].
Proof.
  destruct afterTwoFallbackCycles_reachable as (st & Hst & Hreach).
  exists st. split; [exact Hst|]. split.
  - exact (proj1 (proj1 valid_entries_never_loaded_without_idle_callback
                    fallbackHost eq_refl 100 st Hreach)).
  - vm_compute in Hst. inversion Hst. split; reflexivity.
Defined.

(** ** The idle strategy with [requestIdleCallback]

    On a host with [requestIdleCallback], while the page is visible and the
    idle windows are of 15 ms or more, every cycle launches at least one
    load and asks for the next slot: the queue drains, and each url that was
    queued is handed to [loadByType] once. *)

(** The scheduler between two tasks on such a host: the groups of the queue
    have urls to launch, the flag is set while urls wait, and while it is set
    the host holds an idle callback. *)
Definition schedulerReady (st : State) : Prop :=
  Forall groupReady (idleQueue st)
  /\ (isIdleProcessing st = true -> In IdleCallbackJob (hostJobs st))
  /\ (idleQueue st <> [] -> isIdleProcessing st = true).

(** The host runs the idle callback once for each window, given by its
    instant and the time it leaves, as long as a callback is pending. *)
Fixpoint idleCycles (h : Host) (windows : list (Time * Z)) (st : State) : State :=
  match windows with
  | [] => st
  | (now, tr) :: rest =>
      match fire h now (IdleCallbackFires {| timeRemaining := inl tr |}) st with
      | Some st' => idleCycles h rest st'
      | None => st
      end
  end.

Lemma calculateOptimalBatchSize_positive (timeRemaining : Z) :
  15 <= timeRemaining -> 1 <= calculateOptimalBatchSize timeRemaining.
Proof.
  intros Htr.
  unfold calculateOptimalBatchSize, MIN_TIME_REMAINING, ESTIMATED_PROCESS_TIME,
    MAX_BATCH_SIZE.
  destruct (timeRemaining - 12 <=? 0) eqn:E;
    [apply Z.leb_le in E; lia | apply Z.leb_gt in E].
  pose proof (Z.div_mod (timeRemaining - 12) 3 ltac:(lia)) as Hdiv.
  pose proof (Z.mod_pos_bound (timeRemaining - 12) 3 ltac:(lia)) as Hmod.
  lia.
Qed.

Lemma queuedUrls_ready (queue : list IdleTask) :
  Forall groupReady queue -> queue <> [] -> queuedUrls queue <> [].
Proof.
  intros Hready Hqueue. destruct queue as [|[us o] rest]; [contradiction|].
  inversion Hready as [|? ? (Hsome & _) _]; subst. cbn [urls] in Hsome.
  unfold queuedUrls. cbn [map List.concat urls].
  destruct us; [contradiction | discriminate].
Qed.

Lemma takeJob_pending (job : HostJob) (jobs : list HostJob) :
  In job jobs -> exists jobs', takeJob job jobs = Some jobs'.
Proof.
  induction jobs as [|j jobs IH]; [intros []|]. intros Hin. cbn [takeJob].
  destruct (HostJob_eqb job j) eqn:E; [eauto|].
  destruct Hin as [->|Hin].
  - destruct job; simpl in E; try discriminate; rewrite Z.eqb_refl in E; discriminate.
  - destruct (IH Hin) as (jobs' & ->). cbn [option_map]. eauto.
Qed.

(** A cycle in a window of 15 ms or more, on a visible page: it leaves the
    scheduler ready, and fewer urls in the queue when there were any. *)
Lemma idleCallback_in_window (h : Host) (now : Time) (tr : Z) (st : State) :
  hasRequestIdleCallback h = true ->
  shouldPauseIdleLoading h now = false ->
  15 <= tr ->
  Forall groupReady (idleQueue st) ->
  let st' := idleCallback h now {| timeRemaining := inl tr |} st in
  schedulerReady st'
  /\ (idleQueue st <> [] ->
      (List.length (queuedUrls (idleQueue st'))
       < List.length (queuedUrls (idleQueue st)))%nat).
Proof.
  intros Hric Hvisible Htr Hready. cbv zeta.
  pose proof (calculateOptimalBatchSize_positive tr Htr) as Hc.
  unfold idleCallback, processIdleQueue. rewrite Hvisible. cbn [timeRemaining].
  replace (calculateOptimalBatchSize tr =? 0) with false
    by (symmetry; apply Z.eqb_neq; lia).
  cbn [orb].
  assert (Hend : forall s,
            Forall groupReady (idleQueue s) ->
            let s' := if (0 <? List.length (idleQueue (setProcessing now false s)))%nat
                      then scheduleIdleWork h now (setProcessing now false s)
                      else setProcessing now false s in
            schedulerReady s' /\ idleQueue s' = idleQueue s).
  { intros s Hs. cbv zeta. cbn [idleQueue setProcessing].
    destruct (idleQueue s) as [|task rest] eqn:Hq; cbn [List.length Nat.ltb Nat.leb].
    - unfold schedulerReady. cbn [idleQueue isIdleProcessing hostJobs setProcessing].
      rewrite Hq. repeat split; [constructor | discriminate | intros H; now elim H].
    - unfold scheduleIdleWork, getRequestIdleCallback.
      cbn [isIdleProcessing idleQueue setProcessing]. rewrite Hq, Hric.
      cbn [orb List.length Nat.eqb]. unfold schedulerReady.
      cbn [idleQueue isIdleProcessing hostJobs register setProcessing].
      rewrite Hq. repeat split; [exact Hs|].
      intros _. apply in_or_app. right. now left. }
  destruct (List.length (idleQueue st) =? 0)%nat eqn:Hempty.
  - destruct (Hend st Hready) as (Hsr & Hq). split; [exact Hsr|].
    intros Hne. apply Nat.eqb_eq in Hempty.
    destruct (idleQueue st); [now elim Hne | discriminate].
  - set (r := idleLoop h now (calculateOptimalBatchSize tr) 0 (idleQueue st)
                       (started st)).
    destruct (Hend (withQueue (fst r) (snd r) st)) as (Hsr & Hq).
    { cbn [idleQueue withQueue]. now apply idleLoop_keeps_ready. }
    split; [exact Hsr|]. intros Hne. rewrite Hq. cbn [idleQueue withQueue].
    destruct (idleLoop_moves h now (calculateOptimalBatchSize tr) (idleQueue st)
                0 (started st) Hready) as (Hperm & Hcount).
    fold r in Hperm, Hcount. apply Permutation_length in Hperm.
    rewrite !length_app in Hperm. unfold launchedUrls in Hperm.
    rewrite !length_map in Hperm.
    pose proof (queuedUrls_ready (idleQueue st) Hready Hne) as Hsome.
    destruct (queuedUrls (idleQueue st)) as [|u us]; [now elim Hsome|].
    cbn [List.length] in *. lia.
Qed.

(** Enough windows drain the queue: every url that was waiting is handed to
    [loadByType], once. *)
Lemma idle_queue_drains (h : Host) (windows : list (Time * Z)) :
  hasRequestIdleCallback h = true ->
  (forall now tr, In (now, tr) windows ->
     shouldPauseIdleLoading h now = false /\ 15 <= tr) ->
  forall st,
    schedulerReady st ->
    (List.length (queuedUrls (idleQueue st)) <= List.length windows)%nat ->
    let st' := idleCycles h windows st in
    idleQueue st' = []
    /\ batchCalls st' = batchCalls st
    /\ exists urls,
         idleCalls st' = idleCalls st ++ urls
         /\ Permutation urls (queuedUrls (idleQueue st)).
Proof.
  intros Hric. induction windows as [|[now tr] rest IH];
    intros Hwindows st (Hready & Hjob & Hflag) Hlen; cbv zeta.
  - assert (Hq : idleQueue st = []).
    { destruct (idleQueue st) as [|task q] eqn:Hq; [reflexivity|].
      exfalso. apply (queuedUrls_ready (task :: q) Hready); [discriminate|].
      destruct (queuedUrls (task :: q)); [reflexivity | simpl in Hlen; lia]. }
    cbn [idleCycles]. rewrite Hq. repeat split. exists [].
    now rewrite app_nil_r.
  - cbn [idleCycles].
    destruct (Hwindows now tr (or_introl eq_refl)) as (Hvisible & Htr).
    destruct (fire h now (IdleCallbackFires {| timeRemaining := inl tr |}) st)
      as [st1|] eqn:Hfire.
    + destruct (fire_moves h now _ st st1 Hready Hfire)
        as (Hb & launched & Hs & Hlaunched & Hperm).
      simpl in Hfire.
      destruct (takeJob IdleCallbackJob (hostJobs st)) as [jobs|]; [|discriminate].
      injection Hfire as Hst1.
      destruct (idleCallback_in_window h now tr (withJobs jobs st)
                  Hric Hvisible Htr Hready) as (Hready1 & Hless).
      rewrite Hst1 in Hready1, Hless. cbn [idleQueue withJobs] in Hless.
      assert (Hlen1 : (List.length (queuedUrls (idleQueue st1))
                       <= List.length rest)%nat).
      { destruct (idleQueue st) as [|task q] eqn:Hq.
        - apply Permutation_length in Hperm. rewrite length_app in Hperm.
          cbn in Hperm. lia.
        - specialize (Hless ltac:(discriminate)). cbn [List.length] in Hlen. lia. }
      destruct (IH (fun n r Hin => Hwindows n r (or_intror Hin)) st1 Hready1 Hlen1)
        as (Hq' & Hb' & urls & Hcalls & Hurls).
      split; [exact Hq'|]. split; [now rewrite Hb'; unfold batchCalls; rewrite Hb|].
      exists (map fst launched ++ urls). split.
      * rewrite Hcalls, (idleCalls_app st st1 launched h now Hs Hlaunched).
        now rewrite app_assoc.
      * etransitivity; [|symmetry; exact Hperm].
        now apply Permutation_app_head.
    + assert (Hq : idleQueue st = []).
      { destruct (idleQueue st) as [|task q] eqn:Hq; [reflexivity|].
        exfalso. simpl in Hfire.
        destruct (takeJob_pending IdleCallbackJob (hostJobs st)) as (jobs & Htake);
          [apply Hjob, Hflag; discriminate|].
        rewrite Htake in Hfire. discriminate. }
      rewrite Hq. repeat split. exists []. now rewrite app_nil_r.
Qed.

(** A call of [loadResources] on such a host leaves the scheduler ready. *)
Lemma loadResources_ready (h : Host) (now : Time) (resources : Index.Resources)
    (options : Index.LoadResourcesOptions) (st : State) :
  hasRequestIdleCallback h = true ->
  schedulerReady st ->
  schedulerReady (snd (Index.loadResources h now resources options st)).
Proof.
  intros Hric (Hready & Hjob & Hflag). unfold Index.loadResources.
  destruct (List.length (Index.prepareResourcesForLoading resources) =? 0)%nat
    eqn:Hlen; [now repeat split|].
  destruct (match Index.strategy options with
            | Some s => s
            | None => Index.immediate
            end); cbn [snd].
  - unfold Index.catchImmediate.
    destruct (finished _) as [? [[]|?]|]; now repeat split.
  - assert (Hgroups :
              Forall groupReady
                (idleQueue st ++
                 [mkIdleTask (Index.prepareResourcesForLoading resources)
                    {| batchSize :=
                         Some match Index.batchSize options with
                              | Some b => b
                              | None => 1
                              end;
                       timeout := Index.timeout options;
                       onError := Index.onError options |}])).
    { apply Forall_app. split; [exact Hready|]. constructor; [|constructor].
      split; cbn [urls].
      - intros Hnil. rewrite Hnil in Hlen. discriminate.
      - apply prepared_urls_not_empty. }
    unfold scheduleIdleWork, getRequestIdleCallback, schedulerReady.
    cbn [isIdleProcessing idleQueue addIdleTask withQueue].
    destruct (isIdleProcessing st) eqn:Hf; cbn [orb].
    + cbn [isIdleProcessing idleQueue hostJobs addIdleTask withQueue].
      rewrite Hf. repeat split; [exact Hgroups | exact Hjob].
    + rewrite length_app, Nat.add_comm. cbn [List.length Nat.add Nat.eqb].
      rewrite Hric.
      cbn [isIdleProcessing idleQueue hostJobs register setProcessing withQueue].
      repeat split; [exact Hgroups|].
      intros _. apply in_or_app. right. now left.
Qed.

(** X14: with [requestIdleCallback], on a page that stays visible, the idle
    strategy does load what it accepts.  After a call with the idle strategy
    and as many idle windows of 15 ms or more as there are urls waiting, the
    queue is empty and the accepted entries of the call, k of them, have
    each been handed to [loadByType] once, together with the urls that were
    waiting before them; no batch has been started. *)
Theorem idle_strategy_loads_valid_entries (h : Host) (now : Time)
    (resources : Index.Resources) (options : Index.LoadResourcesOptions)
    (windows : list (Time * Z)) (st : State) :
  hasRequestIdleCallback h = true ->
  (forall t tr, In (t, tr) windows ->
     shouldPauseIdleLoading h t = false /\ 15 <= tr) ->
  schedulerReady st ->
  Index.strategy options = Some Index.idle ->
  (List.length (queuedUrls (idleQueue st))
   + List.length (Index.prepareResourcesForLoading resources)
   <= List.length windows)%nat ->
  let st' :=
    idleCycles h windows (snd (Index.loadResources h now resources options st)) in
  idleQueue st' = []
  /\ batchCalls st' = batchCalls st
  /\ exists urls,
       idleCalls st' = idleCalls st ++ urls
       /\ Permutation urls
            (queuedUrls (idleQueue st) ++ Index.prepareResourcesForLoading resources).
Proof.
  intros Hric Hwindows Hst Hstrategy Hlen. cbv zeta.
  destruct (loadResources_idle h now resources options st Hstrategy)
    as (Hq & Hb & Hs).
  destruct (idle_queue_drains h windows Hric Hwindows
              (snd (Index.loadResources h now resources options st))
              (loadResources_ready h now resources options st Hric Hst))
    as (Hempty & Hb' & urls & Hcalls & Hurls).
  { now rewrite Hq, length_app. }
  split; [exact Hempty|]. split; [rewrite Hb'; unfold batchCalls; now rewrite Hb|].
  exists urls. split; [|now rewrite <- Hq].
  rewrite Hcalls. unfold idleCalls. now rewrite Hs.
Qed.

(** ['a.jpg'] and ['b.jpg'] with the idle strategy on [quietHost], from the
    initial state, and two windows of 15 ms. *)
Lemma idle_strategy_loads_valid_entries_witness :
  let st' :=
    idleCycles quietHost [(5, 15); (30, 15)]
      (snd (Index.loadResources quietHost 0
              (Index.Many [Index.JsString "a.jpg"; Index.JsString "b.jpg"])
              idleOptions initialState)) in
  idleQueue st' = []
  /\ exists urls,
       idleCalls st' = idleCalls initialState ++ urls
       /\ Permutation urls ["a.jpg"; "b.jpg"]%string.
Proof.
  cbv zeta.
  destruct (idle_strategy_loads_valid_entries quietHost 0
              (Index.Many [Index.JsString "a.jpg"; Index.JsString "b.jpg"])
              idleOptions [(5, 15); (30, 15)] initialState eq_refl)
    as (Hempty & _ & urls & Hcalls & Hurls).
  - intros t tr [Hin|[Hin|[]]]; inversion Hin; subst; (split; [reflexivity | lia]).
  - repeat split; [constructor | discriminate | intros H; now elim H].
  - reflexivity.
  - apply Nat.leb_le. reflexivity.
  - split; [exact Hempty|]. exists urls. split; [exact Hcalls | exact Hurls].
Defined.

(** ['a.jpg'] and ['b.jpg'] with the idle strategy on [quietHost]: one window
    of 50 ms, or two of 15 ms, and both are loaded. *)
Example idle_strategy_loads_both :
  idleCalls (idleCycles quietHost [(5, 50)] twoUrlsQueued) = ["a.jpg"; "b.jpg"]%string
  /\ idleCalls (idleCycles quietHost [(5, 15); (30, 15)] twoUrlsQueued)
     = ["a.jpg"; "b.jpg"]%string
  /\ idleCalls (idleCycles quietHost [(5, 15)] twoUrlsQueued) = ["a.jpg"]%string.
Proof. repeat split; reflexivity. Qed.

(** * Properties of the fetcher *)

Import Loaders.

(** ** File extensions *)

(** The character occurs in the string. *)
Fixpoint hasChar (c : ascii) (s : string) : bool :=
  match s with
  | EmptyString => false
  | String c' s' => Ascii.eqb c' c || hasChar c s'
  end.

Lemma split_not_nil (sep : ascii) (s : string) : split sep s <> [].
Proof.
  induction s as [|c s IH]; simpl; [discriminate|].
  destruct (Ascii.eqb c sep); [discriminate|].
  destruct (split sep s); [contradiction | discriminate].
Qed.

Lemma split_app (sep : ascii) (a b : string) :
  split sep (a ++ String sep b) = split sep a ++ split sep b.
Proof.
  induction a as [|c a IH]; simpl.
  - now rewrite Ascii.eqb_refl.
  - destruct (Ascii.eqb c sep); [now rewrite IH|].
    rewrite IH. pose proof (split_not_nil sep a) as Hne.
    destruct (split sep a) as [|part parts]; [contradiction | reflexivity].
Qed.

Lemma split_none (sep : ascii) (s : string) :
  hasChar sep s = false -> split sep s = [s].
Proof.
  induction s as [|c s IH]; simpl; [reflexivity|].
  destruct (Ascii.eqb c sep); [discriminate|]. simpl.
  intros H. now rewrite (IH H).
Qed.

Lemma hasChar_app (c : ascii) (a b : string) :
  hasChar c (a ++ b) = hasChar c a || hasChar c b.
Proof.
  induction a as [|c' a IH]; simpl; [reflexivity|].
  now rewrite IH, orb_assoc.
Qed.

Lemma toLowerCase_empty (s : string) :
  (if Js.isEmpty s then EmptyString else toLowerCase s) = toLowerCase s.
Proof. now destruct s. Qed.

Lemma getFileExtension_plain (base ext : string) :
  hasChar "?" base = false -> hasChar "?" ext = false -> hasChar "." ext = false ->
  getFileExtension (base ++ String "." ext) = toLowerCase ext.
Proof.
  intros Hbase Hext Hdot. unfold getFileExtension.
  rewrite (split_none "?" (base ++ String "." ext))
    by (rewrite hasChar_app; simpl; now rewrite Hbase, Hext).
  rewrite split_app, (split_none "." ext Hdot).
  pose proof (split_not_nil "." base) as Hne.
  destruct (split "." base) as [|part parts] eqn:E; [contradiction|].
  rewrite length_app. cbn [List.length]. 
  replace (S (List.length parts) + 1 <=? 1)%nat with false
    by (symmetry; apply Nat.leb_gt; lia).
  rewrite last_last. apply toLowerCase_empty.
Qed.

Lemma getFileExtension_cases (base ext query : string) :
  hasChar "?" base = false -> hasChar "?" ext = false -> hasChar "." ext = false ->
  getFileExtension ((base ++ String "." ext) ++ String "?" query) = toLowerCase ext
  /\ getFileExtension (base ++ String "." ext) = toLowerCase ext
  /\ (hasChar "." base = false ->
        getFileExtension base = EmptyString
        /\ getFileExtension (base ++ String "?" query) = EmptyString).
Proof.
  intros Hbase Hext Hdot.
  assert (Hclean : hasChar "?" (base ++ String "." ext) = false)
    by (rewrite hasChar_app; simpl; now rewrite Hbase, Hext).
  split; [|split].
  - unfold getFileExtension. rewrite split_app, (split_none "?" _ Hclean).
    cbn [app]. fold (split "." (base ++ String "." ext)).
    pose proof (getFileExtension_plain base ext Hbase Hext Hdot) as Hplain.
    unfold getFileExtension in Hplain. now rewrite (split_none "?" _ Hclean) in Hplain.
  - now apply getFileExtension_plain.
  - intros Hnodot.
    assert (Hblank : (if (List.length (split "." base) <=? 1)%nat then EmptyString
                      else if Js.isEmpty (last (split "." base) EmptyString)
                           then EmptyString
                           else toLowerCase (last (split "." base) EmptyString))
                     = EmptyString)
      by now rewrite (split_none "." base Hnodot).
    split; unfold getFileExtension.
    + now rewrite (split_none "?" base Hbase).
    + rewrite split_app, (split_none "?" base Hbase). exact Hblank.
Qed.

(** X10: the extension is the lower-cased text after the last dot of what
    comes before the first question mark: for [base.ext?query], with no
    question mark in [base] or [ext] and no dot in [ext], it is [ext] in lower
    case, whatever the query, dots included; and a url with no dot before the
    query has the empty extension. *)
Theorem getFileExtension_of_path (base ext query : string) :
  hasChar "?" base = false -> hasChar "?" ext = false -> hasChar "." ext = false ->
  getFileExtension ((base ++ String "." ext) ++ String "?" query) = toLowerCase ext
  /\ getFileExtension (base ++ String "." ext) = toLowerCase ext
  /\ (hasChar "." base = false ->
        getFileExtension base = EmptyString
        /\ getFileExtension (base ++ String "?" query) = EmptyString).
Proof. exact (getFileExtension_cases base ext query). Qed.

Lemma getFileExtension_of_path_witness :
  getFileExtension "https://cdn.example.com/v1.2/Photo.JPG?size=1.5x&t=a.b" = "jpg"%string
  /\ getFileExtension "https://example.com/readme?file=a.png" = "com/readme"%string.
Proof.
  split; [|reflexivity].
  exact (proj1 (getFileExtension_of_path "https://cdn.example.com/v1.2/Photo" "JPG"
                  "size=1.5x&t=a.b" eq_refl eq_refl eq_refl)).
Defined.

(** ** Choice of the loader *)

Lemma lowerUnit_facts (c : ascii) :
  lowerUnit (lowerUnit c) = lowerUnit c
  /\ Ascii.eqb (lowerUnit c) "." = Ascii.eqb c "."
  /\ Ascii.eqb (lowerUnit c) "?" = Ascii.eqb c "?".
Proof.
  destruct c as [b0 b1 b2 b3 b4 b5 b6 b7].
  destruct b0, b1, b2, b3, b4, b5, b6, b7; repeat split; reflexivity.
Qed.

Lemma toLowerCase_idempotent (s : string) :
  toLowerCase (toLowerCase s) = toLowerCase s.
Proof.
  induction s as [|c s IH]; [reflexivity|]. cbn [toLowerCase].
  now rewrite IH, (proj1 (lowerUnit_facts c)).
Qed.

Lemma toLowerCase_hasChar (s : string) :
  hasChar "." (toLowerCase s) = hasChar "." s
  /\ hasChar "?" (toLowerCase s) = hasChar "?" s.
Proof.
  induction s as [|c s (IHdot & IHquery)]; [now split|].
  cbn [toLowerCase hasChar]. destruct (lowerUnit_facts c) as (_ & -> & ->).
  now rewrite IHdot, IHquery.
Qed.

(** X11: the loader is chosen from the extension alone, without regard to
    case, path or query: [base.ext?query] is loaded like [.ext] written in
    lower case; and a url with no dot before its query goes to the generic
    loader, the one that uses [fetch]. *)
Theorem loader_chosen_by_extension (base ext query : string) :
  hasChar "?" base = false -> hasChar "?" ext = false -> hasChar "." ext = false ->
  loaderOf ((base ++ String "." ext) ++ String "?" query) =
    loaderOf (String "." (toLowerCase ext))
  /\ loaderOf (base ++ String "." ext) = loaderOf (String "." (toLowerCase ext))
  /\ (hasChar "." base = false ->
        loaderOf base = loadGeneric
        /\ loaderOf (base ++ String "?" query) = loadGeneric).
Proof.
  intros Hbase Hext Hdot.
  destruct (getFileExtension_cases base ext query Hbase Hext Hdot)
    as (Hquery & Hplain & Hnone).
  destruct (toLowerCase_hasChar ext) as (Hdot' & Hquery').
  assert (Hlower : getFileExtension (String "." (toLowerCase ext)) = toLowerCase ext).
  { change (String "." (toLowerCase ext))
      with (EmptyString ++ String "." (toLowerCase ext))%string.
    rewrite getFileExtension_plain;
      [apply toLowerCase_idempotent | reflexivity | congruence | congruence]. }
  unfold loaderOf. rewrite Hquery, Hplain, Hlower.
  split; [reflexivity|]. split; [reflexivity|].
  intros Hnodot. destruct (Hnone Hnodot) as (-> & ->). now split.
Qed.

Lemma loader_chosen_by_extension_witness :
  loaderOf "https://cdn.example.com/fonts/Inter.WOFF2?v=3.1" = loadFont
  /\ loaderOf "/api/items?format=a.png" = loadGeneric.
Proof.
  destruct (loader_chosen_by_extension "https://cdn.example.com/fonts/Inter" "WOFF2"
              "v=3.1" eq_refl eq_refl eq_refl) as (Hfont & _).
  destruct (loader_chosen_by_extension "/api/items" "" "format=a.png"
              eq_refl eq_refl eq_refl) as (_ & _ & Hnone).
  split; [exact Hfont | exact (proj2 (Hnone eq_refl))].
Defined.

Lemma mapGet_font (key : string) :
  mapGet key LOADER_MAP = Some loadFont ->
  key = "woff"%string \/ key = "woff2"%string \/ key = "ttf"%string.
Proof.
  unfold LOADER_MAP. cbn [mapGet].
  repeat match goal with
         | |- context [String.eqb key ?k] =>
             destruct (String.eqb key k) eqn:?; [try discriminate|]
         end;
    try discriminate; intros _;
    match goal with
    | H : String.eqb key _ = true |- _ => apply String.eqb_eq in H; subst; auto
    end.
Qed.

(** X12: the font loader never falls back on its default MIME type: for
    every url that [loadByType] gives to the font loader, [getFontType] is
    ["font/"] followed by the extension of the url. *)
Theorem font_type_follows_extension (url : string) :
  loaderOf url = loadFont ->
  getFontType url = ("font/" ++ getFileExtension url)%string.
Proof.
  unfold loaderOf, getFontType. intros Hfont.
  destruct (mapGet (getFileExtension url) LOADER_MAP) as [loader|] eqn:Hget;
    [|discriminate].
  subst loader. destruct (mapGet_font _ Hget) as [-> | [-> | ->]]; reflexivity.
Qed.

Lemma font_type_follows_extension_witness :
  getFontType "/fonts/Body.TTF?v=2" = "font/ttf"%string.
Proof. exact (font_type_follows_extension "/fonts/Body.TTF?v=2" eq_refl). Defined.

(** ** One load through an element *)

(** The event is one of the two the loader listens to. *)
Definition isAwaited (config : LoaderConfig) (name : string) : bool :=
  String.eqb (successEvent config) name || String.eqb (errorEvent config) name.

(** The result that the event [name] gives the promise. *)
Definition resultOf (config : LoaderConfig) (tag url name : string) : unit + string :=
  if String.eqb (successEvent config) name then inl tt
  else inr (failureMessage tag url).

(** The load after its first awaited event. *)
Definition settledLoad (env : Env) (config : LoaderConfig) (result : unit + string)
    : Load :=
  {| listeners := []; isCleanedUp := true; settled := Some result;
     inDocument :=
       if hasCleanup config then false else appendsToHead config && hasHead env;
     cleanupCalls := if hasCleanup config then 1 else 0;
     settleCalls := 1 |}.

Lemma removeEventListener_load (name : string) (handler : Handler)
    (ls : list (string * Handler)) (c : bool) (s : option (unit + string))
    (d : bool) (k n : nat) :
  removeEventListener name handler (Build_Load ls c s d k n) =
  Build_Load
    (filter (fun entry =>
               negb (String.eqb (fst entry) name && Handler_eqb (snd entry) handler))
            ls)
    c s d k n.
Proof. reflexivity. Qed.

Lemma configCleanup_load (config : LoaderConfig)
    (ls : list (string * Handler)) (c : bool) (s : option (unit + string))
    (d : bool) (k n : nat) :
  configCleanup config (Build_Load ls c s d k n) =
  Build_Load ls c s (if hasCleanup config then false else d)
             (if hasCleanup config then S k else k) n.
Proof. unfold configCleanup. now destruct (hasCleanup config). Qed.

Lemma cleanup_load (config : LoaderConfig)
    (ls : list (string * Handler)) (s : option (unit + string))
    (d : bool) (k n : nat) :
  cleanup config (Build_Load ls false s d k n) =
  configCleanup config
    (removeEventListener (errorEvent config) onError
       (removeEventListener (successEvent config) onSuccess
          (Build_Load ls true s d k n))).
Proof. reflexivity. Qed.

Lemma settleWith_load (result : unit + string)
    (ls : list (string * Handler)) (c : bool) (d : bool) (k n : nat) :
  settleWith result (Build_Load ls c None d k n) =
  Build_Load ls c (Some result) d k (S n).
Proof. reflexivity. Qed.

(** What either handler does to a load that has not been cleaned up, once the
    dispatch has removed it from the listeners. *)
Lemma runHandler_load (config : LoaderConfig) (tag url : string) (handler : Handler)
    (ls : list (string * Handler)) (d : bool) :
  (forall entry, In entry ls ->
     entry = (successEvent config, onSuccess) \/ entry = (errorEvent config, onError)) ->
  runHandler config tag url handler (Build_Load ls false None d 0 0) =
  Build_Load [] true
    (Some match handler with
          | onSuccess => inl tt
          | onError => inr (failureMessage tag url)
          end)
    (if hasCleanup config then false else d)
    (if hasCleanup config then 1 else 0) 1.
Proof.
  intros Hls.
  assert (Hnone :
            filter (fun entry =>
                      negb (String.eqb (fst entry) (errorEvent config)
                            && Handler_eqb (snd entry) onError))
              (filter (fun entry =>
                         negb (String.eqb (fst entry) (successEvent config)
                               && Handler_eqb (snd entry) onSuccess)) ls) = []).
  { induction ls as [|entry ls IH]; [reflexivity|].
    cbn [filter].
    destruct (Hls entry (or_introl eq_refl)) as [-> | ->]; cbn [fst snd Handler_eqb].
    - rewrite String.eqb_refl. cbn [andb negb].
      apply IH. intros e He. apply Hls. now right.
    - rewrite andb_false_r. cbn [negb filter fst snd Handler_eqb].
      rewrite String.eqb_refl. cbn [andb negb].
      apply IH. intros e He. apply Hls. now right. }
  destruct handler; unfold runHandler;
    rewrite cleanup_load, !removeEventListener_load, Hnone, configCleanup_load,
      settleWith_load; reflexivity.
Qed.

Lemma dispatchEvent_first (env : Env) (config : LoaderConfig) (tag url name : string) :
  createElement config env = inl tag ->
  dispatchEvent config tag url name (snd (startLoad env config)) =
  if isAwaited config name
  then settledLoad env config (resultOf config tag url name)
  else snd (startLoad env config).
Proof.
  intros Htag. unfold startLoad, isAwaited, resultOf, settledLoad. rewrite Htag.
  cbn [snd]. unfold dispatchEvent. cbn [listeners].
  set (d := appendsToHead config && hasHead env).
  cbn [deliver].
  unfold isListening at 1. cbn [listeners existsb fst snd Handler_eqb].
  rewrite String.eqb_refl. cbn [andb orb]. rewrite andb_true_r.
  destruct (String.eqb (successEvent config) name) eqn:Hs; cbn [orb].
  - rewrite removeEventListener_load.
    rewrite runHandler_load.
    + unfold isListening. cbn [listeners existsb]. now rewrite andb_false_r.
    + intros entry Hin. apply filter_In in Hin. destruct Hin as [[<- | [<- | []]] _];
        [now left | now right].
  - unfold isListening. cbn [listeners existsb fst snd Handler_eqb].
    rewrite String.eqb_refl, andb_false_r. cbn [andb orb]. rewrite andb_true_r.
    destruct (String.eqb (errorEvent config) name) eqn:He; [|reflexivity].
    rewrite removeEventListener_load.
    rewrite runHandler_load; [reflexivity|].
    intros entry Hin. apply filter_In in Hin. destruct Hin as [[<- | [<- | []]] _];
      [now left | now right].
Qed.

Lemma receive_settled (env : Env) (config : LoaderConfig) (tag url : string)
    (names : list string) (result : unit + string) :
  receive config tag url names (settledLoad env config result) =
  settledLoad env config result.
Proof.
  unfold receive. induction names as [|name names IH]; [reflexivity|].
  cbn [fold_left]. exact IH.
Qed.

Lemma receive_first (env : Env) (config : LoaderConfig) (tag url : string)
    (names : list string) :
  createElement config env = inl tag ->
  receive config tag url names (snd (startLoad env config)) =
  match find (isAwaited config) names with
  | Some name => settledLoad env config (resultOf config tag url name)
  | None => snd (startLoad env config)
  end.
Proof.
  intros Htag. induction names as [|name names IH]; [reflexivity|].
  unfold receive in *. cbn [fold_left find].
  rewrite (dispatchEvent_first env config tag url name Htag).
  destruct (isAwaited config name); [|exact IH].
  apply (receive_settled env config tag url names).
Qed.

(** X13: a load through an element settles once and cleans up once,
    whatever events the element receives and however often: the promise takes
    the result of the first awaited event (success if it is the success
    event, else the failure message with tag and url), [resolve] or [reject]
    and [config.cleanup] are each called at most once, and once the promise
    has settled no listener is left on the element and an element that the
    config had put in the document has been taken out.  While no awaited
    event comes, the element stays where [setup] put it.  When
    [createElement] throws, the promise is rejected with its message and
    nothing else happens. *)
Theorem element_load_settles_once
    (env : Env) (config : LoaderConfig) (url : string) (names : list string) :
  let tag := fst (startLoad env config) in
  let l := receive config tag url names (snd (startLoad env config)) in
  settled l =
    match createElement config env with
    | inr message => Some (inr message)
    | inl tag =>
        match find (isAwaited config) names with
        | Some name => Some (resultOf config tag url name)
        | None => None
        end
    end
  /\ (settleCalls l <= 1)%nat
  /\ (cleanupCalls l <= 1)%nat
  /\ (settled l <> None ->
        listeners l = [] /\ (hasCleanup config = true -> inDocument l = false))
  /\ (settled l = None ->
        inDocument l = appendsToHead config && hasHead env
        /\ listeners l =
           [(successEvent config, onSuccess); (errorEvent config, onError)]).
Proof.
  cbv zeta. destruct (createElement config env) as [tag|message] eqn:Htag.
  - replace (fst (startLoad env config)) with tag
      by (unfold startLoad; now rewrite Htag).
    rewrite (receive_first env config tag url names Htag).
    destruct (find (isAwaited config) names) as [name|].
    + unfold settledLoad. cbn [settled settleCalls cleanupCalls listeners inDocument].
      split; [reflexivity|]. split; [lia|].
      split; [destruct (hasCleanup config); lia|].
      split; [|discriminate].
      intros _. split; [reflexivity|]. now intros ->.
    + unfold startLoad. rewrite Htag.
      cbn [snd settled settleCalls cleanupCalls listeners inDocument].
      split; [reflexivity|]. split; [lia|]. split; [lia|].
      split; [congruence | now split].
  - assert (Hstart : startLoad env config =
                     (EmptyString,
                      {| listeners := []; isCleanedUp := false;
                         settled := Some (inr message); inDocument := false;
                         cleanupCalls := 0; settleCalls := 0 |}))
      by (unfold startLoad; now rewrite Htag).
    rewrite Hstart. cbn [fst snd].
    assert (Hidle : forall l0, listeners l0 = [] ->
              receive config EmptyString url names l0 = l0).
    { intros l0 Hl0. unfold receive. induction names as [|name names IH];
        [reflexivity|].
      cbn [fold_left]. unfold dispatchEvent at 2. rewrite Hl0. exact IH. }
    rewrite Hidle by reflexivity.
    cbn [settled settleCalls cleanupCalls listeners inDocument].
    split; [reflexivity|]. split; [lia|]. split; [lia|].
    split; [|discriminate]. intros _. split; [reflexivity | reflexivity].
Qed.
